(** * smartass-prompts: the prompt evaluation and tagging pipeline

    A shallow embedding of [lib/aiEvaluator.ts] and the properties of its
    four exported functions: [evaluatePrompt], [generateAutoTags],
    [batchEvaluatePrompts] and [calculateScoringStats].

    Conventions of the embedding.
    - A JavaScript string is the list of its UTF-16 code units, so that
      [String.prototype.length] is [List.length].  The ASCII literals of
      the source are written [js "..."].
    - A JavaScript number is the exact rational value of a finite IEEE
      double.  Ordering tests ([min], [max]) are exact on such values, and
      so is the arithmetic of the token estimate, of the bucket labels and
      of the counters ([length / 4], [(value - 1) / 2], [count + 1]) on
      the values the theorems range over.  The sums and the quotients of
      the averages are rounded as the language rounds them, and can be an
      infinity ([double]).  No score is a non-finite number, since the
      schema bounds the scores by 1 and 10.
    - Where the language leaves a result to the implementation (the
      source text of a native function, the order of a sort whose
      comparator is not consistent), the result is a parameter.
    - An exception is a value of [thrown]; code that may throw returns an
      [outcome]; [try ... catch] is [try_catch].
    - [JSON.parse] is a builtin of the language and the language-model
      service is outside the program: both are parameters.

    The later parts embed what surrounds the pipeline in the application:
    the validation helpers and session guards of [lib/auth.ts], the
    callback route, and the handlers of the components [PromptBrowser],
    [PromptCard], [PromptUploadForm] and [CommentsSection].  The database
    and the authentication service are parameters there, as the
    language-model service is here. *)

From Stdlib Require Import String Ascii.
From Stdlib Require Import List Bool Arith NArith ZArith.
From Stdlib Require Import QArith Qround Qpower Lia Lqa Permutation Sorted.
From Stdlib Require Import DecimalString.
From Equations Require Import Equations.
Import ListNotations.

Local Open Scope Z_scope.
Local Open Scope list_scope.

(** ** Strings *)

Definition code_unit := N.
Definition jsstring := list code_unit.

Definition js (s : string) : jsstring :=
  map N_of_ascii (list_ascii_of_string s).
Arguments js s%_string.

Definition jsstring_eq_dec (a b : jsstring) : {a = b} + {a <> b} :=
  list_eq_dec N.eq_dec a b.

Definition jsstring_eqb (a b : jsstring) : bool :=
  if jsstring_eq_dec a b then true else false.

(** [ToString] of an integral number below 10^21 in magnitude: its decimal
    numeral, with a leading [-] when negative. *)
Definition ToString_int (n : Z) : jsstring :=
  js (NilZero.string_of_int (Z.to_int n)).

(** ** Numbers *)

Definition number := Q.
Bind Scope Q_scope with number.

Definition Math_floor (x : number) : Z := Qfloor x.
Definition Math_ceil (x : number) : Z := Qceiling x.

Definition is_integer (x : number) : Prop := exists z : Z, x == inject_Z z.

(** The value of the source literal [0.1]: the double nearest to 1/10. *)
Definition double_0_1 : number :=
  3602879701896397 # 36028797018963968.

(** ** Exceptions *)

Inductive thrown : Type :=
| JsError (message : jsstring)   (* an instance of [Error] *)
| JsOther.                       (* any other thrown value *)

Inductive outcome (A : Type) : Type :=
| Returned (a : A)
| Threw (e : thrown).
Arguments Returned {A} a.
Arguments Threw {A} e.

Definition try_catch {A} (body : outcome A) (handler : thrown -> outcome A)
  : outcome A :=
  match body with
  | Returned a => Returned a
  | Threw e => handler e
  end.

Definition and_then {A B} (m : outcome A) (k : A -> outcome B) : outcome B :=
  match m with
  | Returned a => k a
  | Threw e => Threw e
  end.

Declare Scope outcome_scope.
Delimit Scope outcome_scope with outcome.
Notation "'let!' x ':=' m 'in' k" := (and_then m (fun x => k))
  (at level 10, x name, m at level 100, k at level 200) : outcome_scope.

(** ** JSON values, as [JSON.parse] produces them *)

#[local] Set Warnings "-register-all".

Inductive json : Type :=
| JNull
| JBool (b : bool)
| JNum (x : number)
| JStr (s : jsstring)
| JArr (items : list json)
| JObj (fields : list (jsstring * json)).

(** Property read [o[key]] on a parsed object: [None] is [undefined]. *)
Fixpoint get (fields : list (jsstring * json)) (key : jsstring) : option json :=
  match fields with
  | [] => None
  | (k, v) :: rest => if jsstring_eqb k key then Some v else get rest key
  end.

(** ** The data model *)

Inductive Category : Type :=
| creative | technical | business | educational | other.

Inductive Complexity : Type :=
| beginner | intermediate | advanced.

Definition Category_values : list Category :=
  [creative; technical; business; educational; other].

Definition Complexity_values : list Complexity :=
  [beginner; intermediate; advanced].

Definition Category_literal (c : Category) : jsstring :=
  match c with
  | creative => js "creative"
  | technical => js "technical"
  | business => js "business"
  | educational => js "educational"
  | other => js "other"
  end.

Definition Complexity_literal (c : Complexity) : jsstring :=
  match c with
  | beginner => js "beginner"
  | intermediate => js "intermediate"
  | advanced => js "advanced"
  end.

Module Reasoning.
Record t : Type := mk {
  clarity : jsstring;
  structure : jsstring;
  usefulness : jsstring;
  overall : jsstring
}.
End Reasoning.

Module PromptScore.
Record t : Type := mk {
  clarity : number;
  structure : number;
  usefulness : number;
  overall : number;
  reasoning : Reasoning.t;
  suggestedTags : list jsstring;
  category : Category;
  complexity : Complexity;
  estimatedTokens : option number   (* [None]: the key is absent *)
}.
End PromptScore.

Module AutoTagResult.
Record t : Type := mk {
  tags : list jsstring;
  confidence : number;
  reasoning : jsstring
}.
End AutoTagResult.

(** ** The validation library (zod), as far as the two schemas use it

    A schema is a function from a possibly absent JSON value to the
    validated value; [None] is a [ZodError]. *)

Definition schema (A : Type) : Type := option json -> option A.

Definition bind_opt {A B} (m : option A) (k : A -> option B) : option B :=
  match m with
  | Some a => k a
  | None => None
  end.

Notation "x <- m ;; k" := (bind_opt m (fun x => k))
  (at level 61, m at next level, right associativity).

Definition z_number : schema number := fun v =>
  match v with
  | Some (JNum x) => Some x
  | _ => None
  end.

Definition z_min (bound : number) (s : schema number) : schema number :=
  fun v => x <- s v ;; if Qle_bool bound x then Some x else None.

Definition z_max (bound : number) (s : schema number) : schema number :=
  fun v => x <- s v ;; if Qle_bool x bound then Some x else None.

Definition z_string : schema jsstring := fun v =>
  match v with
  | Some (JStr s) => Some s
  | _ => None
  end.

Fixpoint parse_items {A} (s : schema A) (items : list json) : option (list A) :=
  match items with
  | [] => Some []
  | i :: rest => a <- s (Some i) ;; r <- parse_items s rest ;; Some (a :: r)
  end.

Definition z_array {A} (s : schema A) : schema (list A) := fun v =>
  match v with
  | Some (JArr items) => parse_items s items
  | _ => None
  end.

Definition z_array_max {A} (bound : nat) (s : schema (list A))
  : schema (list A) :=
  fun v => l <- s v ;; if (length l <=? bound)%nat then Some l else None.

Fixpoint find_literal {A} (literal : A -> jsstring) (values : list A)
  (s : jsstring) : option A :=
  match values with
  | [] => None
  | a :: rest =>
      if jsstring_eqb (literal a) s then Some a else find_literal literal rest s
  end.

Definition z_enum {A} (literal : A -> jsstring) (values : list A) : schema A :=
  fun v =>
    match v with
    | Some (JStr s) => find_literal literal values s
    | _ => None
    end.

Definition z_optional {A} (s : schema A) : schema (option A) := fun v =>
  match v with
  | None => Some None
  | Some _ => a <- s v ;; Some (Some a)
  end.

Definition reasoningSchema : schema Reasoning.t := fun v =>
  match v with
  | Some (JObj o) =>
      clarity <- z_string (get o (js "clarity")) ;;
      structure <- z_string (get o (js "structure")) ;;
      usefulness <- z_string (get o (js "usefulness")) ;;
      overall <- z_string (get o (js "overall")) ;;
      Some (Reasoning.mk clarity structure usefulness overall)
  | _ => None
  end.

Definition scoringSchema : schema PromptScore.t := fun v =>
  match v with
  | Some (JObj o) =>
      clarity <- z_max 10 (z_min 1 z_number) (get o (js "clarity")) ;;
      structure <- z_max 10 (z_min 1 z_number) (get o (js "structure")) ;;
      usefulness <- z_max 10 (z_min 1 z_number) (get o (js "usefulness")) ;;
      overall <- z_max 10 (z_min 1 z_number) (get o (js "overall")) ;;
      reasoning <- reasoningSchema (get o (js "reasoning")) ;;
      suggestedTags <-
        z_array_max 10 (z_array z_string) (get o (js "suggestedTags")) ;;
      category <- z_enum Category_literal Category_values
                    (get o (js "category")) ;;
      complexity <- z_enum Complexity_literal Complexity_values
                      (get o (js "complexity")) ;;
      estimatedTokens <- z_optional z_number (get o (js "estimatedTokens")) ;;
      Some (PromptScore.mk clarity structure usefulness overall reasoning
              suggestedTags category complexity estimatedTokens)
  | _ => None
  end.

Definition autoTagSchema : schema AutoTagResult.t := fun v =>
  match v with
  | Some (JObj o) =>
      tags <- z_array_max 10 (z_array z_string) (get o (js "tags")) ;;
      confidence <- z_max 1 (z_min 0 z_number) (get o (js "confidence")) ;;
      reasoning <- z_string (get o (js "reasoning")) ;;
      Some (AutoTagResult.mk tags confidence reasoning)
  | _ => None
  end.

(** ** The completion service *)

Module OpenAI.
Record ChatMessage : Type := { content : option jsstring }.
Record Choice : Type := { message : option ChatMessage }.
Record ChatCompletion : Type := { choices : list Choice }.
End OpenAI.

(** What awaiting [openai.chat.completions.create(...)] produces. *)
Inductive api_reply : Type :=
| Rejects (e : thrown)
| Resolves (completion : OpenAI.ChatCompletion).

Definition await_create (reply : api_reply) : outcome OpenAI.ChatCompletion :=
  match reply with
  | Rejects e => Threw e
  | Resolves completion => Returned completion
  end.

(** [completion.choices[0]?.message?.content] *)
Definition first_content (completion : OpenAI.ChatCompletion)
  : option jsstring :=
  match nth_error (OpenAI.choices completion) 0 with
  | None => None
  | Some choice =>
      match OpenAI.message choice with
      | None => None
      | Some m => OpenAI.content m
      end
  end.

(** [!responseContent]: true for [undefined], [null] and the empty string. *)
Definition falsy (s : option jsstring) : bool :=
  match s with
  | None => true
  | Some [] => true
  | Some (_ :: _) => false
  end.

Definition or_empty (s : option jsstring) : jsstring :=
  match s with
  | Some t => t
  | None => []
  end.

Section Evaluator.

(** [JSON.parse]: returns the value or throws a [SyntaxError]. *)
Variable JSON_parse : jsstring -> outcome json.

(** The message of the [ZodError] reported for a rejected value, and
    [String(e)] of a thrown value. *)
Variable ZodError_message : json -> jsstring.
Variable String_of : thrown -> jsstring.

(** [schema.parse(value)]: returns the validated value or throws. *)
Definition parse {A} (s : schema A) (value : json) : outcome A :=
  match s (Some value) with
  | Some a => Returned a
  | None => Threw (JsError (ZodError_message value))
  end.

(** [reply] is what the completion service answers to the one request of
    the call; the request itself (the rendered instruction with [title] and
    [description], the model, the temperature) goes to the service and is
    not looked at again.  [console.error] writes a diagnostic and is left
    out. *)
Definition evaluatePrompt (reply : api_reply) (promptContent : jsstring)
  (title description : option jsstring) : outcome PromptScore.t :=
  try_catch
    (let! completion := await_create reply in
     let responseContent := first_content completion in
     if falsy responseContent then
       Threw (JsError (js "No response from OpenAI"))
     else
       let! parsedResponse :=
         try_catch
           (JSON_parse (or_empty responseContent))
           (fun parseError =>
              Threw (JsError
                       (js "Failed to parse OpenAI response as JSON: "
                          ++ String_of parseError)))
       in
       let! validatedScore := parse scoringSchema parsedResponse in
       Returned validatedScore)%outcome
    (fun error =>
       Returned
         {| PromptScore.clarity := 5;
            PromptScore.structure := 5;
            PromptScore.usefulness := 5;
            PromptScore.overall := 5;
            PromptScore.reasoning :=
              {| Reasoning.clarity :=
                   js "Evaluation failed - default score assigned";
                 Reasoning.structure :=
                   js "Evaluation failed - default score assigned";
                 Reasoning.usefulness :=
                   js "Evaluation failed - default score assigned";
                 Reasoning.overall :=
                   js "Evaluation failed - default score assigned" |};
            PromptScore.suggestedTags := [js "untagged"];
            PromptScore.category := other;
            PromptScore.complexity := intermediate;
            PromptScore.estimatedTokens :=
              Some (inject_Z
                      (Math_ceil
                         (inject_Z (Z.of_nat (length promptContent)) / 4)))
         |}).

Definition generateAutoTags (reply : api_reply) (promptContent : jsstring)
  (title description : option jsstring) : outcome AutoTagResult.t :=
  try_catch
    (let! completion := await_create reply in
     let responseContent := first_content completion in
     if falsy responseContent then
       Threw (JsError (js "No response from OpenAI"))
     else
       let! parsedResponse := JSON_parse (or_empty responseContent) in
       let! validatedResult := parse autoTagSchema parsedResponse in
       Returned validatedResult)%outcome
    (fun error =>
       Returned
         {| AutoTagResult.tags := [js "prompt"; js "untagged"];
            AutoTagResult.confidence := double_0_1;
            AutoTagResult.reasoning :=
              js "Auto-tagging failed - default tags assigned" |}).

End Evaluator.

(** ** Vocabulary for the properties of the evaluator *)

(** The ways the external call can fail, as the catch block sees them. *)
Inductive evaluation_failure {A} (JSON_parse : jsstring -> outcome json)
  (s : schema A) : api_reply -> Prop :=
| call_rejected e :
    evaluation_failure JSON_parse s (Rejects e)
| content_missing completion :
    falsy (first_content completion) = true ->
    evaluation_failure JSON_parse s (Resolves completion)
| body_not_json completion text e :
    first_content completion = Some text -> text <> [] ->
    JSON_parse text = Threw e ->
    evaluation_failure JSON_parse s (Resolves completion)
| schema_violation completion text value :
    first_content completion = Some text -> text <> [] ->
    JSON_parse text = Returned value ->
    s (Some value) = None ->
    evaluation_failure JSON_parse s (Resolves completion).

(** The response carries a JSON text that the schema accepts as [a]. *)
Inductive valid_response {A} (JSON_parse : jsstring -> outcome json)
  (s : schema A) (reply : api_reply) (value : json) (a : A) : Prop :=
| response_accepted completion text :
    reply = Resolves completion ->
    first_content completion = Some text -> text <> [] ->
    JSON_parse text = Returned value ->
    s (Some value) = Some a ->
    valid_response JSON_parse s reply value a.

Definition within (lo hi : number) (x : number) : Prop :=
  (lo <= x /\ x <= hi)%Q.

(** Every key of the validated score holds what the response object holds. *)
Definition same_data (value : json) (s : PromptScore.t) : Prop :=
  exists o r,
    value = JObj o /\
    get o (js "clarity") = Some (JNum (PromptScore.clarity s)) /\
    get o (js "structure") = Some (JNum (PromptScore.structure s)) /\
    get o (js "usefulness") = Some (JNum (PromptScore.usefulness s)) /\
    get o (js "overall") = Some (JNum (PromptScore.overall s)) /\
    get o (js "reasoning") = Some (JObj r) /\
    get r (js "clarity")
      = Some (JStr (Reasoning.clarity (PromptScore.reasoning s))) /\
    get r (js "structure")
      = Some (JStr (Reasoning.structure (PromptScore.reasoning s))) /\
    get r (js "usefulness")
      = Some (JStr (Reasoning.usefulness (PromptScore.reasoning s))) /\
    get r (js "overall")
      = Some (JStr (Reasoning.overall (PromptScore.reasoning s))) /\
    get o (js "suggestedTags")
      = Some (JArr (map JStr (PromptScore.suggestedTags s))) /\
    get o (js "category")
      = Some (JStr (Category_literal (PromptScore.category s))) /\
    get o (js "complexity")
      = Some (JStr (Complexity_literal (PromptScore.complexity s))) /\
    get o (js "estimatedTokens")
      = option_map JNum (PromptScore.estimatedTokens s).

Definition in_range (s : PromptScore.t) : Prop :=
  within 1 10 (PromptScore.clarity s) /\
  within 1 10 (PromptScore.structure s) /\
  within 1 10 (PromptScore.usefulness s) /\
  within 1 10 (PromptScore.overall s) /\
  (length (PromptScore.suggestedTags s) <= 10)%nat /\
  In (PromptScore.category s) Category_values /\
  In (PromptScore.complexity s) Complexity_values.

(** The literals as the specification prints them, with U+2014 (em dash). *)
Definition em_dash : code_unit := 8212%N.

Definition spec_evaluation_failed : jsstring :=
  js "Evaluation failed " ++ [em_dash] ++ js " default score assigned".

Definition spec_tagging_failed : jsstring :=
  js "Auto-tagging failed " ++ [em_dash] ++ js " default tags assigned.".


(** The fallback score of the evaluation client, with the reasoning
    literal left open: scores 5, tags [untagged], category [other],
    complexity [intermediate], and the token estimate the least integer
    that is at least a quarter of the content length. *)
Definition default_score (literal : jsstring) (promptContent : jsstring)
  (s : PromptScore.t) : Prop :=
  PromptScore.clarity s = 5%Q /\
  PromptScore.structure s = 5%Q /\
  PromptScore.usefulness s = 5%Q /\
  PromptScore.overall s = 5%Q /\
  PromptScore.reasoning s = Reasoning.mk literal literal literal literal /\
  PromptScore.suggestedTags s = [js "untagged"] /\
  PromptScore.category s = other /\
  PromptScore.complexity s = intermediate /\
  exists tokens : Z,
    PromptScore.estimatedTokens s = Some (inject_Z tokens) /\
    4 * (tokens - 1) < Z.of_nat (length promptContent) <= 4 * tokens.

(** The fallback of the auto-tagger, with the reasoning literal left open. *)
Definition default_tags (literal : jsstring) (r : AutoTagResult.t) : Prop :=
  AutoTagResult.tags r = [js "prompt"; js "untagged"] /\
  AutoTagResult.confidence r = double_0_1 /\
  AutoTagResult.reasoning r = literal.
(** ** Arithmetic on doubles

    A number of the program is a double, and [number] holds the exact
    value of a finite one.  The sum and the quotient of two doubles are
    the doubles nearest to the exact sum and quotient, the one with the
    even significand when two are equally near, and an infinity when that
    double would be of magnitude 2^1024 or more. *)

(** The power of two at or below a positive number:
    [2 ^ binade x <= x < 2 ^ (binade x + 1)]. *)
Definition binade (x : number) : Z :=
  let e := Z.log2 (Qnum x) - Z.log2 (Zpos (Qden x)) in
  if Qle_bool (2 ^ e) x then e else e - 1.

(** The nearest integer, the even one of two that are equally near. *)
Definition round_half_even (y : number) : Z :=
  let f := Qfloor y in
  match Qcompare (y - inject_Z f) (1 # 2) with
  | Lt => f
  | Gt => f + 1
  | Eq => if Z.even f then f else f + 1
  end.

(** A double has a significand of 53 bits, and its exponent is at least
    -1022. *)
Definition round_positive (x : number) : number :=
  let ulp := (2 ^ (Z.max (binade x) (-1022) - 52))%Q in
  inject_Z (round_half_even (x / ulp)) * ulp.

(** The nearest number with such a significand, whatever its exponent. *)
Definition round_nearest (x : number) : number :=
  match Qcompare x 0 with
  | Eq => 0
  | Gt => round_positive x
  | Lt => - round_positive (- x)
  end.

(** The value of an arithmetic operation on finite numbers. *)
Inductive double : Type :=
| Finite (x : number)
| Infinity (negative : bool).

(** The exponent of a finite double is at most 1023. *)
Definition round_double (x : number) : double :=
  if Qle_bool (2 ^ 1024) (round_nearest x) then Infinity false
  else if Qle_bool (round_nearest x) (- 2 ^ 1024) then Infinity true
  else Finite (round_nearest x).

(** [a + b] for a finite [b], and [a / n] for a finite [n] above 0 *)
Definition Number_add (a : double) (b : number) : double :=
  match a with
  | Finite x => round_double (x + b)
  | Infinity negative => Infinity negative
  end.

Definition Number_div (a : double) (n : number) : double :=
  match a with
  | Finite x => round_double (x / n)
  | Infinity negative => Infinity negative
  end.

(** ** Plain objects used as counters ([Record<string, number>])

    The own properties of the object in creation order.  What a counter
    holds under a key is a number, or, once the key has named a function
    member of [Object.prototype], a string: the source text of the
    member, which begins with the word [function], with a [1] added for
    every increment; [Source rest] is the string [function] followed by
    [rest].  A number held is a count of increments, a whole number;
    adding 1 to it is exact as long as it is below 2^53, which takes as
    many increments to pass. *)

Inductive held : Type :=
| Count (n : Z)
| Source (rest : jsstring).

Definition counter := list (jsstring * held).

(** The own property names of [Object.prototype]: eleven functions and the
    accessor [__proto__]. *)
Definition Object_prototype_keys : list jsstring :=
  [ js "constructor"; js "hasOwnProperty"; js "isPrototypeOf";
    js "propertyIsEnumerable"; js "toLocaleString"; js "toString";
    js "valueOf"; js "__proto__"; js "__defineGetter__";
    js "__defineSetter__"; js "__lookupGetter__"; js "__lookupSetter__" ].

Definition inherited (key : jsstring) : bool :=
  existsb (jsstring_eqb key) Object_prototype_keys.

Fixpoint own {V} (o : list (jsstring * V)) (key : jsstring) : option V :=
  match o with
  | [] => None
  | (k, n) :: rest => if jsstring_eqb k key then Some n else own rest key
  end.

(** [o[key] = v] for a key other than [__proto__]: an existing property
    keeps its place, a new one is created last. *)
Fixpoint assign {V} (o : list (jsstring * V)) (key : jsstring) (v : V)
  : list (jsstring * V) :=
  match o with
  | [] => [(key, v)]
  | (k, n) :: rest =>
      if jsstring_eqb k key then (k, v) :: rest
      else (k, n) :: assign rest key v
  end.

(** [(x || 0) + 1] for what a counter holds: a string is not empty, and
    the sum of a string and a number is the string followed by the
    numeral. *)
Definition or_zero_plus_one (x : held) : held :=
  match x with
  | Count n => Count ((if n =? 0 then 0 else n) + 1)
  | Source rest => Source (rest ++ js "1")
  end.

Section Counters.

(** What follows the word [function] in the source text that
    [Function.prototype.toString] gives for the member of
    [Object.prototype] of that name; the implementation chooses it. *)
Variable native_source : jsstring -> jsstring.

(** [o[key] = (o[key] || 0) + 1].  Without an own property the read
    [o[key]] finds the member of [Object.prototype] of that name, if there
    is one.  For a function, the sum is its source text followed by [1].
    For [__proto__] the read gives the prototype object and the sum is a
    string, which the setter of [__proto__] ignores: the object stays as
    it is. *)
Definition increment (o : counter) (key : jsstring) : counter :=
  match own o key with
  | Some x => assign o key (or_zero_plus_one x)
  | None =>
      if jsstring_eqb key (js "__proto__") then o
      else if inherited key
      then assign o key (Source (native_source key ++ js "1"))
      else assign o key (Count 1)
  end.

(** [keys.forEach(key => { o[key] = (o[key] || 0) + 1 })] *)
Definition tally (o : counter) (keys : list jsstring) : counter :=
  fold_left increment keys o.

End Counters.

(** *** Property enumeration order

    An array index is a canonical decimal numeral below 2^32 - 1.
    [Object.entries] lists the array-index keys first, in ascending numeric
    order, then the other keys in creation order. *)

Definition is_digit (c : code_unit) : bool := ((48 <=? c) && (c <=? 57))%N.

Fixpoint digits_value (acc : N) (s : jsstring) : option N :=
  match s with
  | [] => Some acc
  | c :: rest =>
      if is_digit c then digits_value (acc * 10 + (c - 48))%N rest else None
  end.

Definition array_index (key : jsstring) : option N :=
  match key with
  | [] => None
  | c :: rest =>
      if (c =? 48)%N then
        match rest with [] => Some 0%N | _ :: _ => None end
      else
        match digits_value 0%N key with
        | Some n => if (n <? 2 ^ 32 - 1)%N then Some n else None
        | None => None
        end
  end.

Definition is_array_index (key : jsstring) : bool :=
  match array_index key with Some _ => true | None => false end.

Definition index_of (key : jsstring) : N :=
  match array_index key with Some n => n | None => 0%N end.

Fixpoint insert_by_index {V} (e : jsstring * V) (l : list (jsstring * V))
  : list (jsstring * V) :=
  match l with
  | [] => [e]
  | x :: rest =>
      if (index_of (fst e) <=? index_of (fst x))%N then e :: x :: rest
      else x :: insert_by_index e rest
  end.

Definition ascending_by_index {V} (l : list (jsstring * V))
  : list (jsstring * V) :=
  fold_right insert_by_index [] l.

Definition Object_entries {V} (o : list (jsstring * V)) : list (jsstring * V) :=
  ascending_by_index (filter (fun e => is_array_index (fst e)) o)
    ++ filter (fun e => negb (is_array_index (fst e))) o.

(** *** [Array.prototype.sort] with a comparator

    The sort is stable: an element moves behind a later one only when the
    comparator is positive on the pair. *)

Fixpoint sort_insert {A} (compare : A -> A -> Z) (e : A) (sorted : list A)
  : list A :=
  match sorted with
  | [] => [e]
  | x :: rest =>
      if 0 <? compare e x then x :: sort_insert compare e rest
      else e :: x :: rest
  end.

Definition Array_sort {A} (compare : A -> A -> Z) (l : list A) : list A :=
  fold_right (sort_insert compare) [] l.

(** The number the sort takes from the comparator: a result that is not a
    number counts as zero. *)
Definition SortCompare {A} (compare : A -> A -> option Z) (a b : A) : Z :=
  match compare a b with
  | Some v => v
  | None => 0
  end.

(** A comparator is consistent on the elements when each of its results
    is a number and it treats the elements as a weak order: this is the
    condition under which the language fixes the result of the sort. *)
Definition consistent_at {A} (compare : A -> A -> Z) (a b c : A) : bool :=
  (compare a a =? 0)
  && implb (compare a b =? 0) (compare b a =? 0)
  && implb ((compare a b =? 0) && (compare b c =? 0)) (compare a c =? 0)
  && implb ((compare a b <? 0) && (compare b c <? 0)) (compare a c <? 0)
  && implb ((0 <? compare a b) && (0 <? compare b c)) (0 <? compare a c).

Definition consistent {A} (compare : A -> A -> option Z) (l : list A)
  : bool :=
  forallb
    (fun a =>
       forallb
         (fun b =>
            match compare a b with Some _ => true | None => false end
            && forallb (consistent_at (SortCompare compare) a b) l)
         l)
    l.

(** [l.sort(compare)]: with a comparator that is not consistent on the
    elements the order is the implementation's, [engine_order]. *)
Definition Array_prototype_sort {A} (engine_order : list A -> list A)
  (compare : A -> A -> option Z) (l : list A) : list A :=
  if consistent compare l
  then Array_sort (SortCompare compare) l
  else engine_order l.

(** ** The statistics aggregator *)

Inductive metric : Type := clarity | structure | usefulness | overall.

Definition metric_names : list metric :=
  [clarity; structure; usefulness; overall].

(** [score[metric]] *)
Definition metric_value (m : metric) (score : PromptScore.t) : number :=
  match m with
  | clarity => PromptScore.clarity score
  | structure => PromptScore.structure score
  | usefulness => PromptScore.usefulness score
  | overall => PromptScore.overall score
  end.

Module Averages.
Record t : Type := mk {
  clarity : double;
  structure : double;
  usefulness : double;
  overall : double
}.
End Averages.

Module Distributions.
Record t : Type := mk {
  clarity : counter;
  structure : counter;
  usefulness : counter;
  overall : counter
}.
End Distributions.

Module TagCount.
Record t : Type := mk {
  tag : jsstring;
  count : held
}.
End TagCount.

Module ScoringStats.
Record t : Type := mk {
  averages : Averages.t;
  distributions : Distributions.t;
  topTags : list TagCount.t;
  categoryDistribution : counter
}.
End ScoringStats.

(** [distributions[metric]] and [distributions[metric] = o] *)
Definition histogram (d : Distributions.t) (m : metric) : counter :=
  match m with
  | clarity => Distributions.clarity d
  | structure => Distributions.structure d
  | usefulness => Distributions.usefulness d
  | overall => Distributions.overall d
  end.

Definition with_histogram (d : Distributions.t) (m : metric) (o : counter)
  : Distributions.t :=
  match m with
  | clarity =>
      Distributions.mk o (Distributions.structure d)
        (Distributions.usefulness d) (Distributions.overall d)
  | structure =>
      Distributions.mk (Distributions.clarity d) o
        (Distributions.usefulness d) (Distributions.overall d)
  | usefulness =>
      Distributions.mk (Distributions.clarity d) (Distributions.structure d)
        o (Distributions.overall d)
  | overall =>
      Distributions.mk (Distributions.clarity d) (Distributions.structure d)
        (Distributions.usefulness d) o
  end.

(** The template
    [`${Math.floor((value - 1) / 2) * 2 + 1}-${Math.floor((value - 1) / 2) * 2 + 2}`].
    The subtraction and the halving are exact for values from 1 up to
    2^53. *)
Definition range_of (value : number) : jsstring :=
  ToString_int (Math_floor ((value - 1) / 2) * 2 + 1)
    ++ js "-"
    ++ ToString_int (Math_floor ((value - 1) / 2) * 2 + 2).

Definition no_distributions : Distributions.t :=
  Distributions.mk [] [] [] [].

(** [b.count - a.count]: a number, or [None] when one of the two counts is
    a string. *)
Definition by_count_descending (a b : TagCount.t) : option Z :=
  match TagCount.count b, TagCount.count a with
  | Count y, Count x => Some (y - x)
  | _, _ => None
  end.

(** [scores.reduce((sum, s) => sum + s[m], 0) / scores.length] *)
Definition average (m : metric) (scores : list PromptScore.t) : double :=
  Number_div
    (fold_left (fun sum s => Number_add sum (metric_value m s)) scores
       (Finite 0))
    (inject_Z (Z.of_nat (length scores))).

Section Aggregator.

Variable native_source : jsstring -> jsstring.
Variable engine_order : list TagCount.t -> list TagCount.t.

(** The inner [forEach] over the four metrics. *)
Definition each_metric (d : Distributions.t) (score : PromptScore.t)
  : Distributions.t :=
  fold_left
    (fun d m =>
       let value := metric_value m score in
       let range := range_of value in
       with_histogram d m (increment native_source (histogram d m) range))
    metric_names d.

Definition distributions_of (scores : list PromptScore.t)
  : Distributions.t :=
  fold_left each_metric scores no_distributions.

Definition tagCounts_of (scores : list PromptScore.t) : counter :=
  fold_left
    (fun tagCounts score =>
       tally native_source tagCounts (PromptScore.suggestedTags score))
    scores [].

Definition topTags_of (scores : list PromptScore.t) : list TagCount.t :=
  firstn 20
    (Array_prototype_sort engine_order by_count_descending
       (map (fun e => TagCount.mk (fst e) (snd e))
          (Object_entries (tagCounts_of scores)))).

Definition categoryDistribution_of (scores : list PromptScore.t) : counter :=
  fold_left
    (fun categoryDistribution score =>
       increment native_source categoryDistribution
         (Category_literal (PromptScore.category score)))
    scores [].

Definition calculateScoringStats (scores : list PromptScore.t)
  : ScoringStats.t :=
  if (length scores =? 0)%nat then
    {| ScoringStats.averages :=
         Averages.mk (Finite 0) (Finite 0) (Finite 0) (Finite 0);
       ScoringStats.distributions := Distributions.mk [] [] [] [];
       ScoringStats.topTags := [];
       ScoringStats.categoryDistribution := [] |}
  else
    {| ScoringStats.averages :=
         Averages.mk (average clarity scores) (average structure scores)
           (average usefulness scores) (average overall scores);
       ScoringStats.distributions := distributions_of scores;
       ScoringStats.topTags := topTags_of scores;
       ScoringStats.categoryDistribution :=
         categoryDistribution_of scores |}.

End Aggregator.

(** ** The words of the specification on tag counting

    Flatten the tags of all items, count the occurrences of each tag, list
    the tags in the order in which they are first met. *)

Definition all_tags (scores : list PromptScore.t) : list jsstring :=
  flat_map PromptScore.suggestedTags scores.

Fixpoint first_seen (tags : list jsstring) : list jsstring :=
  match tags with
  | [] => []
  | t :: rest =>
      t :: filter (fun u => negb (jsstring_eqb u t)) (first_seen rest)
  end.

Definition occurrences (tags : list jsstring) (t : jsstring) : Z :=
  Z.of_nat (count_occ jsstring_eq_dec tags t).

Definition counted (tags : list jsstring) : counter :=
  map (fun t => (t, Count (occurrences tags t))) (first_seen tags).

(** The number of a count. *)
Definition number_of (x : held) : Z :=
  match x with Count n => n | Source _ => 0 end.

Definition is_number (x : held) : bool :=
  match x with Count _ => true | Source _ => false end.

Definition tally_of (e : TagCount.t) : Z := number_of (TagCount.count e).

Definition entry (e : jsstring * held) : TagCount.t :=
  TagCount.mk (fst e) (snd e).

Definition count_ge (a b : TagCount.t) : Prop := tally_of a >= tally_of b.

(** [output] is [input] sorted by descending count, equal counts keeping
    the order they have in [input]. *)
Definition stable_descending (input output : list TagCount.t) : Prop :=
  Permutation input output /\
  StronglySorted count_ge output /\
  forall c,
    filter (fun e => tally_of e =? c) output
    = filter (fun e => tally_of e =? c) input.

(** A tag with the number of its occurrences. *)
Definition with_occurrences (tags : list jsstring) (t : jsstring)
  : TagCount.t :=
  TagCount.mk t (Count (occurrences tags t)).

(** C8 as the specification words it: ties follow first-met order. *)
Definition top_by_first_seen (scores : list PromptScore.t)
  (top : list TagCount.t) : Prop :=
  exists sorted,
    stable_descending
      (map (with_occurrences (all_tags scores))
         (first_seen (all_tags scores)))
      sorted /\
    top = firstn 20 sorted.

(** The order in which the keys of an object are enumerated: the distinct
    tags, those that are array indices first, in ascending numeric order,
    then the others in the order in which they are first met. *)
Definition enumerated (tags keys : list jsstring) : Prop :=
  exists numerals others,
    keys = numerals ++ others /\
    Permutation
      (filter is_array_index (first_seen tags)) numerals /\
    StronglySorted (fun a b => (index_of a < index_of b)%N) numerals /\
    others = filter (fun t => negb (is_array_index t)) (first_seen tags).

(** C8 as amended: ties follow the order of enumeration. *)
Definition top_by_enumeration (scores : list PromptScore.t)
  (top : list TagCount.t) : Prop :=
  exists keys sorted,
    enumerated (all_tags scores) keys /\
    stable_descending (map (with_occurrences (all_tags scores)) keys)
      sorted /\
    top = firstn 20 sorted.

(** ** The words of the specification on histograms *)

Definition bucket (k : Z) : jsstring :=
  ToString_int (2 * k + 1) ++ js "-" ++ ToString_int (2 * k + 2).

Definition bucket_labels : list jsstring :=
  [js "1-2"; js "3-4"; js "5-6"; js "7-8"; js "9-10"].

Definition in_bucket (k : Z) (x : number) : bool :=
  Qle_bool (inject_Z (2 * k + 1)) x && Qle_bool x (inject_Z (2 * k + 2)).

Definition integer_in_scale (x : number) : Prop :=
  exists v : Z, x == inject_Z v /\ 1 <= v <= 10.

Definition integer_scores (score : PromptScore.t) : Prop :=
  forall m, integer_in_scale (metric_value m score).

Definition count_of (o : counter) (key : jsstring) : Z :=
  match own o key with Some x => number_of x | None => 0 end.

(** The comparator on the numbers of the counts. *)
Definition by_tally_descending (a b : TagCount.t) : Z :=
  tally_of b - tally_of a.

(** ** The batch orchestrator *)

Module BatchItem.
Record t : Type := mk {
  content : jsstring;
  title : option jsstring;
  description : option jsstring;
  id : jsstring
}.
End BatchItem.

Module BatchResult.
Record t : Type := mk {
  id : jsstring;
  score : PromptScore.t;
  error : option jsstring   (* [None]: the key is absent *)
}.
End BatchResult.

(** What the orchestrator does that can be observed from outside, in the
    order in which it does it.  Every event is recorded by the operation
    that it names: the call, the await, the timer. *)
Inductive event : Type :=
| Evaluate (k : nat)   (* [evaluatePrompt] is called for the item at index
                          [k] of the input: its request is issued *)
| AwaitAll (calls : list nat)
                       (* [await Promise.all] over the promises made for
                          the items at these indices *)
| Sleep (ms : Z).      (* [await] of a timer of [ms] milliseconds *)

(** A promise returned by the callback that ran for the item at index
    [made_for]; what it settles to is known to the one who awaits it. *)
Module Promise.
Record t (A : Type) : Type := mk {
  made_for : nat;
  settles_to : outcome A
}.
Arguments mk {A} made_for settles_to.
Arguments made_for {A} t.
Arguments settles_to {A} t.
End Promise.

Definition batchSize : nat := 5.

(** [l.slice(i, j)] for [i <= j] *)
Definition slice {A} (l : list A) (i j : nat) : list A :=
  firstn (j - i) (skipn i l).

(** [Promise.all]: the values in the order of the promises, or a
    rejection. *)
Fixpoint Promise_all {A} (promises : list (outcome A)) : outcome (list A) :=
  match promises with
  | [] => Returned []
  | p :: rest =>
      (let! a := p in let! r := Promise_all rest in Returned (a :: r))%outcome
  end.

(** [await Promise.all(promises)]: the caller is suspended until all the
    promises have settled. *)
Definition await_all {A} (promises : list (Promise.t A)) (trace : list event)
  : outcome (list A) * list event :=
  (Promise_all (map Promise.settles_to promises),
   trace ++ [AwaitAll (map Promise.made_for promises)]).

(** [await new Promise(resolve => setTimeout(resolve, ms))] *)
Definition sleep (ms : Z) (trace : list event) : list event :=
  trace ++ [Sleep ms].

Section Orchestrator.

(** What the call of [evaluatePrompt] for the item at index [k] settles
    to.  The orchestrator is written against a callee that may throw. *)
Variable evaluate : nat -> BatchItem.t -> outcome PromptScore.t.

(** The call [evaluatePrompt(prompt.content, prompt.title,
    prompt.description)] made for the item at index [k]: the request is
    issued when the call is made. *)
Definition call_evaluatePrompt (k : nat) (prompt : BatchItem.t)
  (trace : list event) : outcome PromptScore.t * list event :=
  (evaluate k prompt, trace ++ [Evaluate k]).

(** The callback of [batch.map]: it runs up to its [await], that is, it
    makes the call, and returns a promise for the value of the rest of its
    body. *)
Definition settle (k : nat) (prompt : BatchItem.t) (trace : list event)
  : Promise.t BatchResult.t * list event :=
  let called := call_evaluatePrompt k prompt trace in
  (Promise.mk k
     (try_catch
        (let! score := fst called in
         Returned {| BatchResult.id := BatchItem.id prompt;
                     BatchResult.score := score;
                     BatchResult.error := None |})%outcome
        (fun error =>
           Returned
             {| BatchResult.id := BatchItem.id prompt;
                BatchResult.score :=
                  {| PromptScore.clarity := 1;
                     PromptScore.structure := 1;
                     PromptScore.usefulness := 1;
                     PromptScore.overall := 1;
                     PromptScore.reasoning :=
                       {| Reasoning.clarity := js "Evaluation failed";
                          Reasoning.structure := js "Evaluation failed";
                          Reasoning.usefulness := js "Evaluation failed";
                          Reasoning.overall := js "Evaluation failed" |};
                     PromptScore.suggestedTags := [js "error"];
                     PromptScore.category := other;
                     PromptScore.complexity := intermediate;
                     PromptScore.estimatedTokens := None |};
                BatchResult.error :=
                  Some match error with
                       | JsError message => message
                       | JsOther => js "Unknown error"
                       end |})),
   snd called).

(** [batch.map(async (prompt) => ...)]: the callback runs for each item of
    the window in turn, so that every call of the window is made before
    the array of promises exists. *)
Fixpoint map_async (k : nat) (batch : list BatchItem.t) (trace : list event)
  : list (Promise.t BatchResult.t) * list event :=
  match batch with
  | [] => ([], trace)
  | prompt :: rest =>
      let made := settle k prompt trace in
      let others := map_async (S k) rest (snd made) in
      (fst made :: fst others, snd others)
  end.

(** The [for] loop, from index [i] on. *)
Equations? batch_loop (prompts : list BatchItem.t) (i : nat)
  (results : list BatchResult.t) (trace : list event)
  : outcome (list BatchResult.t) * list event
  by wf (length prompts - i)%nat lt :=
batch_loop prompts i results trace with lt_dec i (length prompts) := {
  | right _ => (Returned results, trace)
  | left _ =>
      let batch := slice prompts i (i + batchSize) in
      let batchPromises := map_async i batch trace in
      let awaited := await_all (fst batchPromises) (snd batchPromises) in
      match fst awaited with
      | Threw e => (Threw e, snd awaited)
      | Returned batchResults =>
          batch_loop prompts (i + batchSize) (results ++ batchResults)
            (if (i + batchSize <? length prompts)%nat
             then sleep 1000 (snd awaited)
             else snd awaited)
      end }.
Proof.
  unfold batchSize. lia.
Qed.

Definition batchEvaluatePrompts (prompts : list BatchItem.t)
  : outcome (list BatchResult.t) * list event :=
  batch_loop prompts 0 [] [].

End Orchestrator.

(** The orchestrator over the evaluation client: [service k] is the reply
    of the completion service to the call issued for item [k]. *)
Definition batchEvaluatePrompts_with_service
  (JSON_parse : jsstring -> outcome json)
  (ZodError_message : json -> jsstring) (String_of : thrown -> jsstring)
  (service : nat -> api_reply) (prompts : list BatchItem.t)
  : outcome (list BatchResult.t) * list event :=
  batchEvaluatePrompts
    (fun k prompt =>
       evaluatePrompt JSON_parse ZodError_message String_of (service k)
         (BatchItem.content prompt) (BatchItem.title prompt)
         (BatchItem.description prompt))
    prompts.

(** ** The words of the specification on windows

    For [n] items: the number of windows, the size of window [w], and the
    events of the whole batch, window after window, with a pause of one
    second after every window but the last. *)

Definition window_count (n : nat) : nat := (n + 4) / 5.

Definition window_size (n w : nat) : nat := Nat.min 5 (n - 5 * w).

Definition window_events (n w : nat) : list event :=
  map Evaluate (seq (5 * w) (window_size n w))
    ++ [AwaitAll (seq (5 * w) (window_size n w))]
    ++ (if (S w <? window_count n)%nat then [Sleep 1000] else []).

Definition schedule (n : nat) : list event :=
  flat_map (window_events n) (seq 0 (window_count n)).

Definition is_sleep (e : event) : bool :=
  match e with Sleep _ => true | _ => false end.

(** The score substituted for an item whose evaluation threw. *)
Definition pessimistic (s : PromptScore.t) : Prop :=
  PromptScore.clarity s = 1%Q /\
  PromptScore.structure s = 1%Q /\
  PromptScore.usefulness s = 1%Q /\
  PromptScore.overall s = 1%Q /\
  PromptScore.suggestedTags s = [js "error"].

(** [error instanceof Error ? error.message : 'Unknown error'] as the
    specification calls it: the captured message. *)
Definition captured_message (e : thrown) : jsstring :=
  match e with
  | JsError message => message
  | JsOther => js "Unknown error"
  end.

(** [r] is the result of [prompt] when its evaluation had the outcome
    [reply]: the score returned and no error, or the substituted score
    with the captured message; in both cases under the id of the item. *)
Definition result_of (reply : outcome PromptScore.t) (prompt : BatchItem.t)
  (r : BatchResult.t) : Prop :=
  BatchResult.id r = BatchItem.id prompt /\
  match reply with
  | Returned score =>
      BatchResult.score r = score /\ BatchResult.error r = None
  | Threw e =>
      pessimistic (BatchResult.score r) /\
      PromptScore.estimatedTokens (BatchResult.score r) = None /\
      BatchResult.error r = Some (captured_message e)
  end.

(** [results] are the results of the items [prompts], at the indices from
    [k] on, one result per item and in the same order, each by the outcome
    of the evaluation of its own item. *)
Inductive settled_from (evaluate : nat -> BatchItem.t -> outcome PromptScore.t)
  : nat -> list BatchItem.t -> list BatchResult.t -> Prop :=
| settled_nil k : settled_from evaluate k [] []
| settled_cons k prompt prompts r results :
    result_of (evaluate k prompt) prompt r ->
    settled_from evaluate (S k) prompts results ->
    settled_from evaluate k (prompt :: prompts) (r :: results).

(** ** Further vocabulary for the evaluator and the aggregator *)

(** Every key of the validated tag result holds what the response object
    holds. *)
Definition same_tag_data (value : json) (r : AutoTagResult.t) : Prop :=
  exists o,
    value = JObj o /\
    get o (js "tags") = Some (JArr (map JStr (AutoTagResult.tags r))) /\
    get o (js "confidence") = Some (JNum (AutoTagResult.confidence r)) /\
    get o (js "reasoning") = Some (JStr (AutoTagResult.reasoning r)).

(** The values of bucket [k] when scores need not be whole: from [2k+1]
    up to, but not including, [2k+3]. *)
Definition in_wide_bucket (k : Z) (x : number) : bool :=
  Qle_bool (inject_Z (2 * k + 1)) x && negb (Qle_bool (inject_Z (2 * k + 3)) x).

Definition scores_in_scale (score : PromptScore.t) : Prop :=
  forall m, within 1 10 (metric_value m score).

Definition has_category (c : Category) (score : PromptScore.t) : bool :=
  match c, PromptScore.category score with
  | creative, creative | technical, technical | business, business
  | educational, educational | other, other => true
  | _, _ => false
  end.

Definition is_evaluate (e : event) : bool :=
  match e with Evaluate _ => true | _ => false end.

Definition is_await (e : event) : bool :=
  match e with AwaitAll _ => true | _ => false end.

(** The items whose promises an event awaits. *)
Definition awaited (e : event) : list nat :=
  match e with AwaitAll calls => calls | _ => [] end.

(** [stats.averages[m]] *)
Definition mean (a : Averages.t) (m : metric) : double :=
  match m with
  | clarity => Averages.clarity a
  | structure => Averages.structure a
  | usefulness => Averages.usefulness a
  | overall => Averages.overall a
  end.

(** A score as the evaluation client substitutes it on a failure, as far
    as the aggregator looks at it. *)
Definition neutral (s : PromptScore.t) : Prop :=
  (forall m, metric_value m s = 5%Q) /\
  PromptScore.suggestedTags s = [js "untagged"] /\
  PromptScore.category s = other.

(** ** Regular expressions, as far as the validators use them

    The patterns of [lib/auth.ts] have no flags: they work on code units.
    A pattern anchored with [^] and [$] tests the whole string; an
    unanchored character class tests whether some code unit is in the
    class. *)

(** [\s]: white space and line terminators. *)
Definition is_space (c : code_unit) : bool :=
  ((9 <=? c) && (c <=? 13) || (c =? 32) || (c =? 160) || (c =? 5760)
   || (8192 <=? c) && (c <=? 8202) || (c =? 8232) || (c =? 8233)
   || (c =? 8239) || (c =? 8287) || (c =? 12288) || (c =? 65279))%N.

Definition is_upper (c : code_unit) : bool := ((65 <=? c) && (c <=? 90))%N.
Definition is_lower (c : code_unit) : bool := ((97 <=? c) && (c <=? 122))%N.

Inductive regex : Type :=
| Nothing                       (* matches no string *)
| Empty                         (* matches the empty string *)
| Class (cls : code_unit -> bool)
| Cat (r1 r2 : regex)
| Star (r : regex).

(** [r+] *)
Definition Plus (r : regex) : regex := Cat r (Star r).

Fixpoint nullable (r : regex) : bool :=
  match r with
  | Nothing => false
  | Empty => true
  | Class _ => false
  | Cat r1 r2 => nullable r1 && nullable r2
  | Star _ => true
  end.

(** The strings [s] such that [c :: s] matches [r], as alternatives. *)
Fixpoint derive (c : code_unit) (r : regex) : list regex :=
  match r with
  | Nothing => []
  | Empty => []
  | Class cls => if cls c then [Empty] else []
  | Cat r1 r2 =>
      map (fun d => Cat d r2) (derive c r1)
        ++ (if nullable r1 then derive c r2 else [])
  | Star r1 => map (fun d => Cat d (Star r1)) (derive c r1)
  end.

(** Does the whole of [s] match one of [rs]? *)
Fixpoint match_any (rs : list regex) (s : jsstring) : bool :=
  match s with
  | [] => existsb nullable rs
  | c :: rest => match_any (flat_map (derive c) rs) rest
  end.

(** [/^r$/.test(s)] *)
Definition test_whole (r : regex) (s : jsstring) : bool := match_any [r] s.

(** [/[cls]/.test(s)] *)
Definition test_class (cls : code_unit -> bool) (s : jsstring) : bool :=
  existsb cls s.

(** The strings a pattern denotes. *)
Inductive matches : regex -> jsstring -> Prop :=
| m_empty : matches Empty []
| m_class cls c : cls c = true -> matches (Class cls) [c]
| m_cat r1 r2 s1 s2 :
    matches r1 s1 -> matches r2 s2 -> matches (Cat r1 r2) (s1 ++ s2)
| m_star_nil r : matches (Star r) []
| m_star_cons r s1 s2 :
    matches r s1 -> matches (Star r) s2 -> matches (Star r) (s1 ++ s2).

(** ** The validation helpers of [lib/auth.ts] *)

(** [[^\s@]] *)
Definition not_space_or_at (c : code_unit) : bool :=
  negb (is_space c || (c =? 64)%N).

(** [/^[^\s@]+@[^\s@]+\.[^\s@]+$/] *)
Definition emailRegex : regex :=
  Cat (Plus (Class not_space_or_at))
    (Cat (Class (N.eqb 64))
       (Cat (Plus (Class not_space_or_at))
          (Cat (Class (N.eqb 46))
             (Plus (Class not_space_or_at))))).

Definition validateEmail (email : jsstring) : bool :=
  test_whole emailRegex email.

Module PasswordCheck.
Record t : Type := mk {
  valid : bool;
  errors : list jsstring
}.
End PasswordCheck.

(** [errors.push(message)] when [condition] holds *)
Definition push_if (condition : bool) (message : jsstring)
  (errors : list jsstring) : list jsstring :=
  if condition then errors ++ [message] else errors.

Definition validatePassword (password : jsstring) : PasswordCheck.t :=
  let errors := [] in
  let errors :=
    push_if (length password <? 8)%nat
      (js "Password must be at least 8 characters long") errors in
  let errors :=
    push_if (negb (test_class is_upper password))
      (js "Password must contain at least one uppercase letter") errors in
  let errors :=
    push_if (negb (test_class is_lower password))
      (js "Password must contain at least one lowercase letter") errors in
  let errors :=
    push_if (negb (test_class is_digit password))
      (js "Password must contain at least one number") errors in
  {| PasswordCheck.valid := (length errors =? 0)%nat;
     PasswordCheck.errors := errors |}.

Definition clean (c : code_unit) : Prop := not_space_or_at c = true.

Definition at_sign : code_unit := 64%N.
Definition full_stop : code_unit := 46%N.

(** ** String builtins used by the components *)

(** [s.trim()]: white space and line terminators removed at both ends. *)
Fixpoint trimStart (s : jsstring) : jsstring :=
  match s with
  | [] => []
  | c :: rest => if is_space c then trimStart rest else s
  end.

Definition trimEnd (s : jsstring) : jsstring := rev (trimStart (rev s)).

Definition trim (s : jsstring) : jsstring := trimEnd (trimStart s).

(** [s.split(separator)] for a separator of one code unit. *)
Fixpoint split_on (separator : code_unit) (s : jsstring) : list jsstring :=
  match s with
  | [] => [[]]
  | c :: rest =>
      if (c =? separator)%N then [] :: split_on separator rest
      else
        match split_on separator rest with
        | [] => [[c]]
        | piece :: pieces => (c :: piece) :: pieces
        end
  end.

(** [pieces.join(separator)] *)
Fixpoint join (separator : jsstring) (pieces : list jsstring) : jsstring :=
  match pieces with
  | [] => []
  | [piece] => piece
  | piece :: rest => piece ++ separator ++ join separator rest
  end.

(** [Boolean(s)] for a string *)
Definition truthy (s : jsstring) : bool :=
  match s with [] => false | _ :: _ => true end.

(** [text.substring(0, n)] for an integral [n]: [n] is clamped to the
    string. *)
Definition substring_to (text : jsstring) (n : Z) : jsstring :=
  firstn (Z.to_nat n) text.

(** ** [PromptCard]: [truncateText] *)

Definition truncateText (text : jsstring) (maxLength : Z) : jsstring :=
  if Z.of_nat (length text) <=? maxLength then text
  else substring_to text maxLength ++ js "...".

(** ** [PromptBrowser]: the tag filter of [fetchPrompts]

    [params.tags.split(',').map(tag => tag.trim()).filter(Boolean)] *)

Definition comma : code_unit := 44%N.

Definition filter_tags (tags : jsstring) : list jsstring :=
  filter truthy (map trim (split_on comma tags)).

(** The argument of [query.overlaps('tags', ...)], or [None] when the
    query is left without a tag filter. *)
Definition overlaps_argument (tags : option jsstring)
  : option (list jsstring) :=
  match tags with
  | None => None
  | Some text =>
      if truthy text then
        let tags := filter_tags text in
        if (0 <? length tags)%nat then Some tags else None
      else None
  end.

(** A tag as [filter_tags] yields them: not empty, no comma, no white
    space at either end. *)
Definition tidy (tag : jsstring) : Prop :=
  tag <> [] /\ ~ In comma tag /\
  (forall c rest, tag = c :: rest -> is_space c = false) /\
  (forall c front, tag = front ++ [c] -> is_space c = false).

(** [padded] is [tag] with white space around it. *)
Definition padding_of (tag padded : jsstring) : Prop :=
  exists before after,
    padded = before ++ tag ++ after /\
    Forall (fun c => is_space c = true) before /\
    Forall (fun c => is_space c = true) after.

(** ** [CommentsSection]: [formatDate]

    [now] and [date] are the two [getTime()] values, in milliseconds; the
    division by 60000 and the floor are exact for time stamps of the
    calendar range.  [localeDate] stands for the call of
    [toLocaleDateString], which decides on the year from both dates. *)

Section RelativeDate.

Variable localeDate : Z -> Z -> jsstring.

Definition formatDate (now date : Z) : jsstring :=
  let diffInMinutes := (now - date) / (1000 * 60) in
  if diffInMinutes <? 1 then js "just now"
  else if diffInMinutes <? 60 then ToString_int diffInMinutes ++ js "m ago"
  else if diffInMinutes <? 1440 then
    ToString_int (diffInMinutes / 60) ++ js "h ago"
  else if diffInMinutes <? 10080 then
    ToString_int (diffInMinutes / 1440) ++ js "d ago"
  else localeDate date now.

End RelativeDate.

(** ** Plain objects with values of any type

    The own properties in creation order; the keys used below are neither
    array indices nor names of members of [Object.prototype]. *)

Fixpoint property {V} (o : list (jsstring * V)) (key : jsstring) : option V :=
  match o with
  | [] => None
  | (k, v) :: rest => if jsstring_eqb k key then Some v else property rest key
  end.

(** [o[key] = v] *)
Fixpoint set_property {V} (o : list (jsstring * V)) (key : jsstring) (v : V)
  : list (jsstring * V) :=
  match o with
  | [] => [(key, v)]
  | (k, x) :: rest =>
      if jsstring_eqb k key then (k, v) :: rest
      else (k, x) :: set_property rest key v
  end.

(** [array.includes(s)] for strings *)
Definition includes (array : list jsstring) (s : jsstring) : bool :=
  existsb (jsstring_eqb s) array.

(** ** [PromptUploadForm] *)

Module UploadFile.
Record t : Type := mk {
  name : jsstring;
  size : Z;
  type : jsstring
}.
End UploadFile.

Module FormData.
Record t : Type := mk {
  title : jsstring;
  description : jsstring;
  category : jsstring;
  tags : list jsstring
}.
End FormData.

Module Issue.
Record t : Type := mk {
  path : jsstring;
  message : jsstring
}.
End Issue.

Definition allowedTypes : list jsstring :=
  [js "text/plain"; js "text/markdown"; js "application/json"; js "text/csv"].

Definition formCategories : list jsstring :=
  [js "creative"; js "technical"; js "business"; js "educational";
   js "other"].

(** [.refine(check, { message })]: an issue when the check fails; the
    refinements that follow are still run. *)
Definition refine (check : bool) (path message : jsstring) : list Issue.t :=
  if check then [] else [Issue.mk path message].

Module FormState.
Record t : Type := mk {
  formData : FormData.t;
  tagInput : jsstring;
  errors : list (jsstring * jsstring)
}.
End FormState.

Section UploadForm.

(** [String.prototype.toLowerCase], and the message of the validation
    library for a value outside an enumeration. *)
Variable toLowerCase : jsstring -> jsstring.
Variable invalid_enum_message : jsstring -> jsstring.

(** The issues of [promptFileSchema.parse({ file, ...formData })], in the
    order in which the schema lists its keys. *)
Definition promptFileSchema_issues (file : UploadFile.t)
  (formData : FormData.t) : list Issue.t :=
  refine (UploadFile.size file <=? 5 * 1024 * 1024) (js "file")
    (js "File size must be less than 5MB")
  ++ refine (includes allowedTypes (UploadFile.type file)) (js "file")
       (js "File must be .txt, .md, .json, or .csv format")
  ++ refine (3 <=? length (FormData.title formData))%nat (js "title")
       (js "Title must be at least 3 characters")
  ++ refine (length (FormData.title formData) <=? 100)%nat (js "title")
       (js "Title must be less than 100 characters")
  ++ refine (10 <=? length (FormData.description formData))%nat
       (js "description")
       (js "Description must be at least 10 characters")
  ++ refine (length (FormData.description formData) <=? 500)%nat
       (js "description")
       (js "Description must be less than 500 characters")
  ++ refine (includes formCategories (FormData.category formData))
       (js "category") (invalid_enum_message (FormData.category formData))
  ++ refine (length (FormData.tags formData) <=? 5)%nat (js "tags")
       (js "Maximum 5 tags allowed").

(** [error.errors.forEach(err => { newErrors[err.path[0]] = err.message })] *)
Definition errors_of (issues : list Issue.t) : list (jsstring * jsstring) :=
  fold_left
    (fun newErrors err =>
       set_property newErrors (Issue.path err) (Issue.message err))
    issues [].

(** The value returned and the errors set. *)
Definition validateForm (selectedFile : option UploadFile.t)
  (formData : FormData.t) : bool * list (jsstring * jsstring) :=
  let issues :=
    match selectedFile with
    | None =>
        [Issue.mk (js "file") (js "Please select a file to upload")]
    | Some file => promptFileSchema_issues file formData
    end in
  match issues with
  | [] => (true, [])
  | _ :: _ => (false, errors_of issues)
  end.

Definition with_tags (formData : FormData.t) (tags : list jsstring)
  : FormData.t :=
  FormData.mk (FormData.title formData) (FormData.description formData)
    (FormData.category formData) tags.

Definition addTag (st : FormState.t) : FormState.t :=
  let formData := FormState.formData st in
  let tagInput := FormState.tagInput st in
  if truthy (trim tagInput) && (length (FormData.tags formData) <? 5)%nat
  then
    let newTag := toLowerCase (trim tagInput) in
    let formData' :=
      if negb (includes (FormData.tags formData) newTag)
      then with_tags formData (FormData.tags formData ++ [newTag])
      else formData in
    FormState.mk formData' [] (FormState.errors st)
  else st.

Definition removeTag (tagToRemove : jsstring) (st : FormState.t)
  : FormState.t :=
  let formData := FormState.formData st in
  FormState.mk
    (with_tags formData
       (filter (fun tag => negb (jsstring_eqb tag tagToRemove))
          (FormData.tags formData)))
    (FormState.tagInput st) (FormState.errors st).

(** The three fields the form edits through [handleInputChange]. *)
Inductive text_field : Type := f_title | f_description | f_category.

Definition field_name (field : text_field) : jsstring :=
  match field with
  | f_title => js "title"
  | f_description => js "description"
  | f_category => js "category"
  end.

Definition handleInputChange (field : text_field) (value : jsstring)
  (st : FormState.t) : FormState.t :=
  let prev := FormState.formData st in
  let formData :=
    match field with
    | f_title =>
        FormData.mk value (FormData.description prev)
          (FormData.category prev) (FormData.tags prev)
    | f_description =>
        FormData.mk (FormData.title prev) value (FormData.category prev)
          (FormData.tags prev)
    | f_category =>
        FormData.mk (FormData.title prev) (FormData.description prev) value
          (FormData.tags prev)
    end in
  let errors :=
    match property (FormState.errors st) (field_name field) with
    | Some (_ :: _) =>
        set_property (FormState.errors st) (field_name field) []
    | _ => FormState.errors st
    end in
  FormState.mk formData (FormState.tagInput st) errors.

(** What the user can do to the form before submitting it. *)
Inductive form_action : Type :=
| TypeTag (text : jsstring)                         (* [setTagInput] *)
| PressAdd                                          (* Enter or comma *)
| ClickRemove (tag : jsstring)
| Change (field : text_field) (value : jsstring).

Definition act (st : FormState.t) (a : form_action) : FormState.t :=
  match a with
  | TypeTag text =>
      FormState.mk (FormState.formData st) text (FormState.errors st)
  | PressAdd => addTag st
  | ClickRemove tag => removeTag tag st
  | Change field value => handleInputChange field value st
  end.

Definition initial_form : FormState.t :=
  FormState.mk (FormData.mk [] [] (js "other") []) [] [].

End UploadForm.

(** The form after a sequence of actions on the empty form. *)
Definition run_form (toLowerCase : jsstring -> jsstring)
  (actions : list form_action) : FormState.t :=
  fold_left (act toLowerCase) actions initial_form.

(** What [validateForm] requires of a form. *)
Definition acceptable (file : UploadFile.t) (formData : FormData.t) : Prop :=
  UploadFile.size file <= 5242880 /\
  In (UploadFile.type file) allowedTypes /\
  (3 <= length (FormData.title formData) <= 100)%nat /\
  (10 <= length (FormData.description formData) <= 500)%nat /\
  In (FormData.category formData) formCategories /\
  (length (FormData.tags formData) <= 5)%nat.

(** The two conditions that [addTag] keeps. *)
Definition tags_within_limit (st : FormState.t) : Prop :=
  (length (FormData.tags (FormState.formData st)) <= 5)%nat /\
  NoDup (FormData.tags (FormState.formData st)).

(** ** [URLSearchParams]

    The list of name-value pairs.  [set] gives the value to the first pair
    of that name and removes the others of that name, or appends a pair
    when there is none; [delete] removes every pair of that name; [get]
    reads the first one. *)

Module URLSearchParams.

Definition t : Type := list (jsstring * jsstring).

Definition delete (params : t) (name : jsstring) : t :=
  filter (fun pair => negb (jsstring_eqb (fst pair) name)) params.

Fixpoint set (params : t) (name value : jsstring) : t :=
  match params with
  | [] => [(name, value)]
  | (k, v) :: rest =>
      if jsstring_eqb k name then (k, value) :: delete rest name
      else (k, v) :: set rest name value
  end.

Definition get (params : t) (name : jsstring) : option jsstring :=
  property params name.

Definition getAll (params : t) (name : jsstring) : list jsstring :=
  map snd (filter (fun pair => jsstring_eqb (fst pair) name) params).

End URLSearchParams.

(** ** [PromptBrowser] *)

(** [value && value !== 'all' && value !== ''] *)
Definition kept (value : jsstring) : bool :=
  truthy value && negb (jsstring_eqb value (js "all"))
  && negb (jsstring_eqb value (js "")).

(** The parameters after the [forEach] of [updateURL]; [params] are the
    entries of the argument in enumeration order, and the copy made by
    [new URLSearchParams(urlSearchParams.toString())] has the pairs of
    [urlSearchParams]. *)
Definition updateURL_params (urlSearchParams : URLSearchParams.t)
  (params : list (jsstring * jsstring)) : URLSearchParams.t :=
  fold_left
    (fun newSearchParams entry =>
       if kept (snd entry)
       then URLSearchParams.set newSearchParams (fst entry) (snd entry)
       else URLSearchParams.delete newSearchParams (fst entry))
    params urlSearchParams.

(** The address given to [router.push]; [toString] is the serialisation of
    the platform. *)
Definition updateURL (toString : URLSearchParams.t -> jsstring)
  (urlSearchParams : URLSearchParams.t)
  (params : list (jsstring * jsstring)) : jsstring :=
  let newSearchParams := updateURL_params urlSearchParams params in
  js "/prompts"
  ++ (if truthy (toString newSearchParams)
      then js "?" ++ toString newSearchParams
      else js "").

(** The argument of [fetchPrompts] and [updateURL]. *)
Module FilterParams.
Record t : Type := mk {
  search : jsstring;
  category : jsstring;
  tags : jsstring;
  sort : jsstring
}.
End FilterParams.

(** [Object.entries(params)]: no key is an array index. *)
Definition entries_of (params : FilterParams.t)
  : list (jsstring * jsstring) :=
  [(js "search", FilterParams.search params);
   (js "category", FilterParams.category params);
   (js "tags", FilterParams.tags params);
   (js "sort", FilterParams.sort params)].

(** The calls made on the query builder of [fetchPrompts], in order. *)
Inductive clause : Type :=
| eq_bool (column : jsstring) (value : bool)
| eq_text (column value : jsstring)
| or_filter (filters : jsstring)
| overlaps (column : jsstring) (values : list jsstring)
| order_descending (column : jsstring)
| limit (count : Z).

Definition search_filter (search : jsstring) : jsstring :=
  js "title.ilike.%" ++ search ++ js "%,description.ilike.%" ++ search
  ++ js "%".

Definition order_column (sort : jsstring) : jsstring :=
  if jsstring_eqb sort (js "popular") then js "like_count"
  else if jsstring_eqb sort (js "views") then js "view_count"
  else if jsstring_eqb sort (js "score") then js "overall_score"
  else js "created_at".

Definition fetchPrompts_query (params : FilterParams.t) : list clause :=
  [eq_bool (js "is_public") true; eq_text (js "status") (js "approved")]
  ++ (if truthy (FilterParams.search params)
      then [or_filter (search_filter (FilterParams.search params))]
      else [])
  ++ (if truthy (FilterParams.category params)
         && negb (jsstring_eqb (FilterParams.category params) (js "all"))
      then [eq_text (js "category") (FilterParams.category params)]
      else [])
  ++ match overlaps_argument (Some (FilterParams.tags params)) with
     | Some tags => [overlaps (js "tags") tags]
     | None => []
     end
  ++ [order_descending (order_column (FilterParams.sort params));
      limit 24].

Module BrowserState.
Record t : Type := mk {
  searchQuery : jsstring;
  selectedCategory : jsstring;
  selectedSort : jsstring;
  tagFilter : jsstring
}.
End BrowserState.

(** [handleFilterChange]: the state set, and the argument passed to
    [fetchPrompts] and to [updateURL]. *)
Definition handleFilterChange (type value : jsstring) (st : BrowserState.t)
  : BrowserState.t * FilterParams.t :=
  let params :=
    FilterParams.mk (BrowserState.searchQuery st)
      (if jsstring_eqb type (js "category") then value
       else BrowserState.selectedCategory st)
      (if jsstring_eqb type (js "tags") then value
       else BrowserState.tagFilter st)
      (if jsstring_eqb type (js "sort") then value
       else BrowserState.selectedSort st) in
  (BrowserState.mk (BrowserState.searchQuery st)
     (if jsstring_eqb type (js "category") then value
      else BrowserState.selectedCategory st)
     (if jsstring_eqb type (js "sort") then value
      else BrowserState.selectedSort st)
     (if jsstring_eqb type (js "tags") then value
      else BrowserState.tagFilter st),
   params).

(** *** [handleLike]

    [like_count] is the integer column of the table; [rest] stands for the
    other columns, which the update copies. *)

Module Prompt.
Record t (R : Type) : Type := mk {
  id : jsstring;
  like_count : Z;
  rest : R
}.
Arguments mk {R} id like_count rest.
Arguments id {R} t.
Arguments like_count {R} t.
Arguments rest {R} t.
End Prompt.

Inductive db_call : Type :=
| insert_like (user_id prompt_id : jsstring)
| delete_like (user_id prompt_id : jsstring).

(** The awaited call rejects, or resolves to a value with its [error] key
    null or set; [handleLike] does not read the value. *)
Inductive db_reply : Type :=
| DbRejects (e : thrown)
| DbResolves (error : bool).

(** The calls made, the way the function ends, and the prompts of the
    component afterwards. *)
Definition handleLike {R} (db : db_call -> db_reply)
  (currentUserId : option jsstring) (promptId : jsstring) (isLiked : bool)
  (prompts : list (Prompt.t R))
  : list db_call * outcome unit * list (Prompt.t R) :=
  match currentUserId with
  | None => ([], Returned tt, prompts)
  | Some [] => ([], Returned tt, prompts)
  | Some ((_ :: _) as user) =>
      let call :=
        if isLiked then insert_like user promptId
        else delete_like user promptId in
      match db call with
      | DbRejects e => ([call], Threw e, prompts)
      | DbResolves _ =>
          ([call], Returned tt,
           map (fun prompt =>
                  if jsstring_eqb (Prompt.id prompt) promptId
                  then Prompt.mk (Prompt.id prompt)
                         (Prompt.like_count prompt
                          + (if isLiked then 1 else -1))
                         (Prompt.rest prompt)
                  else prompt)
             prompts)
      end
  end.

(** ** Sessions ([auth.ts]) *)

(** The way a server function ends: it returns, or [redirect] leaves for
    another page. *)
Inductive navigation (A : Type) : Type :=
| Stays (a : A)
| Redirects (path : jsstring).
Arguments Stays {A} a.
Arguments Redirects {A} path.

(** [supabase.auth.getUser()] rejects, or resolves to
    [{ data: { user }, error }]. *)
Inductive getUser_reply (User : Type) : Type :=
| GetUserRejects (e : thrown)
| GetUserResolves (user : option User) (error : bool).
Arguments GetUserRejects {User} e.
Arguments GetUserResolves {User} user error.

Definition getCurrentUser {User} (reply : getUser_reply User)
  : option User :=
  match reply with
  | GetUserRejects _ => None
  | GetUserResolves user error => if error then None else user
  end.

Definition requireAuth {User} (reply : getUser_reply User)
  : navigation User :=
  match getCurrentUser reply with
  | None => Redirects (js "/auth/login")
  | Some user => Stays user
  end.

Definition redirectIfAuthenticated {User} (reply : getUser_reply User)
  : navigation unit :=
  match getCurrentUser reply with
  | Some _ => Redirects (js "/prompts")
  | None => Stays tt
  end.

(** ** The callback route ([route.ts]) *)

Module AuthUser.
Record metadata : Type := mk_metadata {
  full_name : option jsstring;
  avatar_url : option jsstring
}.
Record t : Type := mk {
  id : jsstring;
  email : jsstring;
  user_metadata : option metadata
}.
End AuthUser.

Module Profile.
Record t : Type := mk {
  id : jsstring;
  email : jsstring;
  full_name : jsstring;
  avatar_url : option jsstring;
  updated_at : jsstring
}.
End Profile.

(** [value || null] *)
Definition or_null (value : option jsstring) : option jsstring :=
  if falsy value then None else value.

(** The row given to [upsert]; [now] is [new Date().toISOString()]. *)
Definition profile_of (now : jsstring) (user : AuthUser.t) : Profile.t :=
  Profile.mk (AuthUser.id user) (AuthUser.email user)
    (or_empty
       (match AuthUser.user_metadata user with
        | Some metadata => AuthUser.full_name metadata
        | None => None
        end))
    (or_null
       (match AuthUser.user_metadata user with
        | Some metadata => AuthUser.avatar_url metadata
        | None => None
        end))
    now.

Inductive exchange_reply : Type :=
| ExchangeRejects (e : thrown)
| ExchangeResolves (user : option AuthUser.t) (error : bool).

Inductive upsert_reply : Type :=
| UpsertRejects (e : thrown)
| UpsertResolves (profileError : bool).

Inductive route_call : Type :=
| exchangeCodeForSession (code : jsstring)
| upsert_profile (row : Profile.t).

Definition login_error (origin reason : jsstring) : jsstring :=
  origin ++ js "/auth/login?error=" ++ reason.

Section Route.

(** [NextResponse.redirect(url)]: the response whose [Location] is the
    address that [new URL(url)] reads from the text [url], or the error
    thrown when [url] is not an address.  A response is told here by its
    [Location]. *)
Variable NextResponse_redirect : jsstring -> outcome jsstring.

Variable exchange : jsstring -> exchange_reply.
Variable upsert : Profile.t -> upsert_reply.

(** The body of the [try]: the calls made, and the response returned from
    inside it, [None] when the body runs to its end, or what it throws. *)
Definition try_body (now origin code next : jsstring)
  : list route_call * outcome (option jsstring) :=
  match exchange code with
  | ExchangeRejects e => ([exchangeCodeForSession code], Threw e)
  | ExchangeResolves user error =>
      if error
      then ([exchangeCodeForSession code],
            (let! response :=
               NextResponse_redirect
                 (login_error origin (js "callback_error")) in
             Returned (Some response))%outcome)
      else match user with
           | Some user =>
               match upsert (profile_of now user) with
               | UpsertRejects e =>
                   ([exchangeCodeForSession code;
                     upsert_profile (profile_of now user)],
                    Threw e)
               | UpsertResolves _ =>
                   ([exchangeCodeForSession code;
                     upsert_profile (profile_of now user)],
                    (let! response :=
                       NextResponse_redirect (origin ++ next) in
                     Returned (Some response))%outcome)
               end
           | None => ([exchangeCodeForSession code], Returned None)
           end
  end.

(** The calls made and the response returned, or what the handler throws;
    [origin] is [requestUrl.origin], [code] and [next] are the two
    [searchParams.get] values. *)
Definition GET (now origin : jsstring) (code next : option jsstring)
  : list route_call * outcome jsstring :=
  let next := match next with Some path => path | None => js "/prompts" end in
  match code with
  | Some ((_ :: _) as code) =>
      let tried := try_body now origin code next in
      (fst tried,
       (let! returned :=
          try_catch (snd tried)
            (fun _ =>
               let! response :=
                 NextResponse_redirect
                   (login_error origin (js "unexpected_error")) in
               Returned (Some response)) in
        match returned with
        | Some response => Returned response
        | None =>
            NextResponse_redirect (login_error origin (js "no_code"))
        end)%outcome)
  | _ => ([], NextResponse_redirect (login_error origin (js "no_code")))
  end.

End Route.

(** ** [CommentsSection] *)

(** A row of [prompt_comments]; [rest] stands for the columns that the
    component copies and does not read. *)
Module CommentRow.
Record t (R : Type) : Type := mk {
  id : jsstring;
  content : jsstring;
  parent_id : option jsstring;
  is_edited : bool;
  rest : R
}.
Arguments mk {R} id content parent_id is_edited rest.
Arguments id {R} t.
Arguments content {R} t.
Arguments parent_id {R} t.
Arguments is_edited {R} t.
Arguments rest {R} t.
End CommentRow.

(** *** The threading of [fetchComments]

    The first [forEach] makes one object for each row: the object of the
    row at position [k] has address [k].  [commentMap] is a [Map] from ids
    to addresses, [rootComments] an array of addresses, and the [replies]
    arrays of all objects, by address, are the third component; pushing an
    address into a [replies] array is seen through every reference to
    that object. *)

Section Threading.

Context {R : Type}.

Definition numbered (data : list (CommentRow.t R))
  : list (nat * CommentRow.t R) :=
  combine (seq 0 (length data)) data.

Definition first_pass (data : list (CommentRow.t R))
  : list (jsstring * nat) * list nat :=
  fold_left
    (fun state entry =>
       let commentMap :=
         set_property (fst state) (CommentRow.id (snd entry)) (fst entry) in
       if falsy (CommentRow.parent_id (snd entry))
       then (commentMap, snd state ++ [fst entry])
       else (commentMap, snd state))
    (numbered data) ([], []).

(** [heap[parent].replies.push(child)] *)
Fixpoint push_reply (heap : list (list nat)) (parent child : nat)
  : list (list nat) :=
  match heap, parent with
  | [], _ => []
  | replies :: objects, O => (replies ++ [child]) :: objects
  | replies :: objects, S parent' =>
      replies :: push_reply objects parent' child
  end.

(** The second [forEach] on one row: the parent found in [commentMap] and
    the object to push, [commentMap.get(comment.id)], which the first
    [forEach] has stored. *)
Definition link (commentMap : list (jsstring * nat))
  (comment : CommentRow.t R) : option (nat * nat) :=
  if falsy (CommentRow.parent_id comment) then None
  else
    match property commentMap (or_empty (CommentRow.parent_id comment)) with
    | Some parent =>
        match property commentMap (CommentRow.id comment) with
        | Some child => Some (parent, child)
        | None => None
        end
    | None => None
    end.

Definition second_pass (commentMap : list (jsstring * nat))
  (data : list (CommentRow.t R)) : list (list nat) :=
  fold_left
    (fun heap comment =>
       match link commentMap comment with
       | Some (parent, child) => push_reply heap parent child
       | None => heap
       end)
    data (repeat [] (length data)).

(** [rootComments] and the [replies] of every object. *)
Definition thread (data : list (CommentRow.t R))
  : list nat * list (list nat) :=
  let state := first_pass data in
  (snd state, second_pass (fst state) data).

(** [reply] answers [comment]: its [parent_id] is not empty and is the id
    of [comment]. *)
Definition answers (comment reply : CommentRow.t R) : bool :=
  negb (falsy (CommentRow.parent_id reply))
  && jsstring_eqb (or_empty (CommentRow.parent_id reply))
       (CommentRow.id comment).

(** The objects that the component shows: those reached from
    [rootComments] through [replies]. *)
Inductive shown (data : list (CommentRow.t R)) : nat -> Prop :=
| shown_root k : In k (fst (thread data)) -> shown data k
| shown_reply a k :
    shown data a -> In k (nth a (snd (thread data)) []) -> shown data k.

End Threading.

(** *** The comments of the component's state

    A comment with its [replies]; a comment without the key reads as one
    with no replies everywhere in the component. *)

Inductive Comment (R : Type) : Type :=
| Node (row : CommentRow.t R) (replies : list (Comment R)).
Arguments Node {R} row replies.

Definition row_of {R} (comment : Comment R) : CommentRow.t R :=
  match comment with Node row _ => row end.

Definition replies_of {R} (comment : Comment R) : list (Comment R) :=
  match comment with Node _ replies => replies end.

Definition comment_id {R} (comment : Comment R) : jsstring :=
  CommentRow.id (row_of comment).

(** [{ ...comment, content, is_edited: true }] *)
Definition edited {R} (content : jsstring) (comment : Comment R)
  : Comment R :=
  match comment with
  | Node row replies =>
      Node (CommentRow.mk (CommentRow.id row) content
              (CommentRow.parent_id row) true (CommentRow.rest row))
        replies
  end.

(** The awaited [insert(...).select(...).single()]: it rejects, or resolves
    to an error, or to the row inserted. *)
Inductive insert_reply (R : Type) : Type :=
| InsertRejects (e : thrown)
| InsertError
| InsertResolves (data : CommentRow.t R).
Arguments InsertRejects {R} e.
Arguments InsertError {R}.
Arguments InsertResolves {R} data.

Module CommentsState.
Record t (R : Type) : Type := mk {
  comments : list (Comment R);
  newComment : jsstring;
  replyingTo : option jsstring;
  replyContent : jsstring;
  editingComment : option jsstring;
  editContent : jsstring;
  loading : bool
}.
Arguments mk {R} comments newComment replyingTo replyContent editingComment
  editContent loading.
Arguments comments {R} t.
Arguments newComment {R} t.
Arguments replyingTo {R} t.
Arguments replyContent {R} t.
Arguments editingComment {R} t.
Arguments editContent {R} t.
Arguments loading {R} t.
End CommentsState.

Section CommentHandlers.

Context {R : Type}.

Definition with_comments (st : CommentsState.t R)
  (comments : list (Comment R)) : CommentsState.t R :=
  CommentsState.mk comments (CommentsState.newComment st)
    (CommentsState.replyingTo st) (CommentsState.replyContent st)
    (CommentsState.editingComment st) (CommentsState.editContent st)
    (CommentsState.loading st).

Definition with_loading (st : CommentsState.t R) (loading : bool)
  : CommentsState.t R :=
  CommentsState.mk (CommentsState.comments st) (CommentsState.newComment st)
    (CommentsState.replyingTo st) (CommentsState.replyContent st)
    (CommentsState.editingComment st) (CommentsState.editContent st)
    loading.

(** [insert] is called with the trimmed text. *)
Definition handleSubmitComment
  (insert : jsstring -> insert_reply R) (currentUserId : option jsstring)
  (st : CommentsState.t R) : CommentsState.t R :=
  if falsy currentUserId
     || negb (truthy (trim (CommentsState.newComment st)))
  then st
  else
    match insert (trim (CommentsState.newComment st)) with
    | InsertResolves data =>
        CommentsState.mk (CommentsState.comments st ++ [Node data []]) []
          (CommentsState.replyingTo st) (CommentsState.replyContent st)
          (CommentsState.editingComment st) (CommentsState.editContent st)
          false
    | _ => with_loading st false
    end.

(** [insert] is called with the trimmed text and the parent. *)
Definition handleSubmitReply
  (insert : jsstring -> jsstring -> insert_reply R)
  (currentUserId : option jsstring) (parentId : jsstring)
  (st : CommentsState.t R) : CommentsState.t R :=
  if falsy currentUserId
     || negb (truthy (trim (CommentsState.replyContent st)))
  then st
  else
    match insert (trim (CommentsState.replyContent st)) parentId with
    | InsertResolves data =>
        CommentsState.mk
          (map (fun comment =>
                  if jsstring_eqb (comment_id comment) parentId
                  then Node (row_of comment)
                         (replies_of comment ++ [Node data []])
                  else comment)
             (CommentsState.comments st))
          (CommentsState.newComment st) None []
          (CommentsState.editingComment st) (CommentsState.editContent st)
          false
    | _ => with_loading st false
    end.

(** [update] is called with the id and the trimmed text. *)
Definition handleEditComment (update : jsstring -> jsstring -> db_reply)
  (commentId : jsstring) (st : CommentsState.t R) : CommentsState.t R :=
  if negb (truthy (trim (CommentsState.editContent st))) then st
  else
    match update commentId (trim (CommentsState.editContent st)) with
    | DbResolves false =>
        CommentsState.mk
          (map (fun comment =>
                  if jsstring_eqb (comment_id comment) commentId
                  then edited (trim (CommentsState.editContent st)) comment
                  else
                    Node (row_of comment)
                      (map (fun reply =>
                              if jsstring_eqb (comment_id reply) commentId
                              then edited
                                     (trim (CommentsState.editContent st))
                                     reply
                              else reply)
                         (replies_of comment)))
             (CommentsState.comments st))
          (CommentsState.newComment st) (CommentsState.replyingTo st)
          (CommentsState.replyContent st) None []
          (CommentsState.loading st)
    | _ => st
    end.

(** [confirmed] is the answer to [confirm]; [update] marks the row as
    deleted. *)
Definition handleDeleteComment (confirmed : bool)
  (update : jsstring -> db_reply) (commentId : jsstring)
  (st : CommentsState.t R) : CommentsState.t R :=
  if negb confirmed then st
  else
    match update commentId with
    | DbResolves false =>
        with_comments st
          (map (fun comment =>
                  Node (row_of comment)
                    (filter (fun reply =>
                               negb (jsstring_eqb (comment_id reply)
                                       commentId))
                       (replies_of comment)))
             (filter (fun comment =>
                        negb (jsstring_eqb (comment_id comment) commentId))
                (CommentsState.comments st)))
    | _ => st
    end.

End CommentHandlers.

(** No top-level comment and no reply of one has the id. *)
Definition unused_id {R} (commentId : jsstring) (comments : list (Comment R))
  : Prop :=
  Forall
    (fun comment =>
       comment_id comment <> commentId /\
       Forall (fun reply => comment_id reply <> commentId)
         (replies_of comment))
    comments.

(** ** Sample inputs *)

Definition reply_with (text : jsstring) : api_reply :=
  Resolves
    {| OpenAI.choices :=
         [ {| OpenAI.message := Some {| OpenAI.content := Some text |} |} ] |}.

(** Stand-ins for the parameters: a [JSON.parse] that knows one text and
    its value, and one that rejects every text. *)
Definition reads (text : jsstring) (value : json) : jsstring -> outcome json :=
  fun t =>
    if jsstring_eqb t text then Returned value
    else Threw (JsError (js "Unexpected token")).

Definition unreadable : jsstring -> outcome json :=
  fun _ => Threw (JsError (js "Unexpected token")).

Definition plain_message : json -> jsstring := fun _ => js "invalid".
Definition plain_text : thrown -> jsstring := fun _ => js "error".

Definition sample_reasoning : json :=
  JObj [ (js "clarity", JStr (js "clear"));
         (js "structure", JStr (js "ordered"));
         (js "usefulness", JStr (js "handy"));
         (js "overall", JStr (js "good")) ].

(** A response whose clarity is 7.5. *)
Definition fractional_response : json :=
  JObj [ (js "clarity", JNum (15 # 2));
         (js "structure", JNum 8);
         (js "usefulness", JNum 7);
         (js "overall", JNum 8);
         (js "reasoning", sample_reasoning);
         (js "suggestedTags", JArr [JStr (js "writing")]);
         (js "category", JStr (js "creative"));
         (js "complexity", JStr (js "beginner")) ].

Definition fractional_score : PromptScore.t :=
  {| PromptScore.clarity := 15 # 2;
     PromptScore.structure := 8;
     PromptScore.usefulness := 7;
     PromptScore.overall := 8;
     PromptScore.reasoning :=
       Reasoning.mk (js "clear") (js "ordered") (js "handy") (js "good");
     PromptScore.suggestedTags := [js "writing"];
     PromptScore.category := creative;
     PromptScore.complexity := beginner;
     PromptScore.estimatedTokens := None |}.

Definition quoted (s : string) : jsstring := [34%N] ++ js s ++ [34%N].
Arguments quoted s%_string.

Definition fractional_text : jsstring :=
  js "{" ++ quoted "clarity" ++ js ":7.5,"
    ++ quoted "structure" ++ js ":8,"
    ++ quoted "usefulness" ++ js ":7,"
    ++ quoted "overall" ++ js ":8,"
    ++ quoted "reasoning" ++ js ":{"
      ++ quoted "clarity" ++ js ":" ++ quoted "clear" ++ js ","
      ++ quoted "structure" ++ js ":" ++ quoted "ordered" ++ js ","
      ++ quoted "usefulness" ++ js ":" ++ quoted "handy" ++ js ","
      ++ quoted "overall" ++ js ":" ++ quoted "good" ++ js "},"
    ++ quoted "suggestedTags" ++ js ":[" ++ quoted "writing" ++ js "],"
    ++ quoted "category" ++ js ":" ++ quoted "creative" ++ js ","
    ++ quoted "complexity" ++ js ":" ++ quoted "beginner" ++ js "}".

Definition scored (value : number) (tags : list jsstring) : PromptScore.t :=
  PromptScore.mk value value value value (Reasoning.mk [] [] [] []) tags
    other intermediate None.

(** Three items with values 2, 7, 7. *)
Definition scenario_scores : list PromptScore.t :=
  [ scored 2 [js "ai"];
    scored 7 [js "ai"; js "writing"];
    scored 7 [js "writing"] ].

(** Stand-ins for the implementation: a source text for the functions of
    [Object.prototype], and a sort that leaves an array it need not order
    as it is. *)
Definition native_code (key : jsstring) : jsstring :=
  js " " ++ key ++ js "() { [native code] }".

Definition as_given : list TagCount.t -> list TagCount.t := fun l => l.

(** One item tagged "ai" first and "2024" second. *)
Definition year_tagged : list PromptScore.t :=
  [ scored 8 [js "ai"; js "2024"] ].

Definition item (name text : string) : BatchItem.t :=
  BatchItem.mk (js text) None None (js name).
Arguments item (name text)%_string.

Definition three_items : list BatchItem.t :=
  [ item "p1" "Write a poem"; item "p2" "Sort a list";
    item "p3" "Plan a trip" ].

Definition twelve_items : list BatchItem.t :=
  map (fun name => item name "Write a poem")
    [ "p1"; "p2"; "p3"; "p4"; "p5"; "p6";
      "p7"; "p8"; "p9"; "p10"; "p11"; "p12" ]%string.

(** An evaluation that throws for the item at index 1 and returns for
    every other item. *)
Definition second_throws (k : nat) (prompt : BatchItem.t)
  : outcome PromptScore.t :=
  if (k =? 1)%nat then Threw (JsError (js "rate limit exceeded"))
  else Returned fractional_score.

Definition three_results : list BatchResult.t :=
  match fst (batchEvaluatePrompts second_throws three_items) with
  | Returned results => results
  | Threw _ => []
  end.

(** A tagging response and its validated result. *)
Definition tags_response : json :=
  JObj [ (js "tags", JArr [JStr (js "writing")]);
         (js "confidence", JNum (9 # 10));
         (js "reasoning", JStr (js "fits")) ].

Definition tags_text : jsstring :=
  js "{" ++ quoted "tags" ++ js ":[" ++ quoted "writing" ++ js "],"
    ++ quoted "confidence" ++ js ":0.9,"
    ++ quoted "reasoning" ++ js ":" ++ quoted "fits" ++ js "}".

Definition tags_result : AutoTagResult.t :=
  AutoTagResult.mk [js "writing"] (9 # 10) (js "fits").

(** A service that rejects every call. *)
Definition outage : nat -> api_reply := fun _ => Rejects JsOther.

(** Four comments: a top-level one, a reply to it, a reply to the reply,
    and a reply to a comment that is not among them. *)
Definition row (name text : string) (parent : option string)
  : CommentRow.t unit :=
  CommentRow.mk (js name) (js text) (option_map js parent) false tt.
Arguments row (name text)%_string parent.

Definition nested_rows : list (CommentRow.t unit) :=
  [ row "c1" "first" None;
    row "c2" "second" (Some "c1"%string);
    row "c3" "third" (Some "c2"%string);
    row "c4" "lost" (Some "gone"%string) ].

Definition nested_comments : list (Comment unit) :=
  [ Node (row "c1" "first" None)
      [ Node (row "c2" "second" (Some "c1"%string))
          [ Node (row "c3" "third" (Some "c2"%string)) [] ] ] ].

(** The component with a text typed in every input. *)
Definition typing (comments : list (Comment unit)) (text : string)
  : CommentsState.t unit :=
  CommentsState.mk comments (js text) None (js text) None (js text) false.
Arguments typing comments text%_string.

(** A database that accepts every change, and one that inserts under a
    given id. *)
Definition accepts : jsstring -> db_reply := fun _ => DbResolves false.

Definition inserts (name : string) (parent : option jsstring)
  : jsstring -> insert_reply unit :=
  fun text => InsertResolves (CommentRow.mk (js name) text parent false tt).
Arguments inserts name%_string parent.
(** ** Lemmas on the schema combinators *)

Lemma bind_opt_Some {A B} (m : option A) (k : A -> option B) b :
  bind_opt m k = Some b -> exists a, m = Some a /\ k a = Some b.
Proof.
  destruct m as [a|]; simpl; intros H; [exists a; auto | discriminate].
Qed.

Ltac bind_inv H :=
  let a := fresh "a" in
  let Ha := fresh "Ha" in
  apply bind_opt_Some in H; destruct H as (a & Ha & H).

Lemma jsstring_eqb_true a b : jsstring_eqb a b = true -> a = b.
Proof.
  unfold jsstring_eqb. destruct (jsstring_eq_dec a b); congruence.
Qed.

Lemma z_number_inv v x : z_number v = Some x -> v = Some (JNum x).
Proof.
  destruct v as [[]|]; simpl; congruence.
Qed.

Lemma z_range_inv lo hi v x :
  z_max hi (z_min lo z_number) v = Some x ->
  v = Some (JNum x) /\ within lo hi x.
Proof.
  unfold z_max, z_min. intros H.
  bind_inv H. bind_inv Ha.
  destruct (Qle_bool lo a0) eqn:Hlo; [|discriminate].
  destruct (Qle_bool a hi) eqn:Hhi; [|discriminate].
  inversion Ha; inversion H; subst.
  apply z_number_inv in Ha0.
  split; [assumption|].
  split; apply Qle_bool_iff; assumption.
Qed.

Lemma z_string_inv v s : z_string v = Some s -> v = Some (JStr s).
Proof.
  destruct v as [[]|]; simpl; congruence.
Qed.

Lemma parse_items_strings items l :
  parse_items z_string items = Some l -> items = map JStr l.
Proof.
  revert l. induction items as [|i rest IH]; simpl; intros l H.
  - inversion H. reflexivity.
  - bind_inv H. bind_inv H. inversion H; subst.
    destruct i; try discriminate. inversion Ha; subst.
    simpl. f_equal. apply IH. assumption.
Qed.

Lemma z_tags_inv bound v l :
  z_array_max bound (z_array z_string) v = Some l ->
  v = Some (JArr (map JStr l)) /\ (length l <= bound)%nat.
Proof.
  unfold z_array_max. intros H. bind_inv H.
  destruct (length a <=? bound)%nat eqn:Hlen; [|discriminate].
  inversion H; subst.
  apply Nat.leb_le in Hlen. split; [|assumption].
  destruct v as [[]|]; simpl in Ha; try discriminate.
  apply parse_items_strings in Ha. congruence.
Qed.

Lemma find_literal_inv {A} (literal : A -> jsstring) values s a :
  find_literal literal values s = Some a -> literal a = s /\ In a values.
Proof.
  induction values as [|b rest IH]; simpl; [discriminate|].
  destruct (jsstring_eqb (literal b) s) eqn:Heq; intros H.
  - inversion H; subst. split; [apply jsstring_eqb_true; assumption | auto].
  - destruct (IH H). auto.
Qed.

Lemma z_enum_inv {A} (literal : A -> jsstring) values v a :
  z_enum literal values v = Some a ->
  v = Some (JStr (literal a)) /\ In a values.
Proof.
  destruct v as [[]|]; simpl; try discriminate.
  intros H. apply find_literal_inv in H. destruct H as [<- Hin]. auto.
Qed.

Lemma z_optional_number_inv v x :
  z_optional z_number v = Some x -> v = option_map JNum x.
Proof.
  destruct v as [j|]; unfold z_optional.
  - intros H. bind_inv H. inversion H; subst.
    apply z_number_inv in Ha. assumption.
  - intros H. inversion H. reflexivity.
Qed.

Lemma scoringSchema_inv value s :
  scoringSchema (Some value) = Some s -> same_data value s /\ in_range s.
Proof.
  destruct value; try discriminate.
  unfold scoringSchema. intros H.
  do 9 bind_inv H. inversion H; subst; clear H.
  apply z_range_inv in Ha, Ha0, Ha1, Ha2.
  apply z_tags_inv in Ha4. apply z_enum_inv in Ha5, Ha6.
  apply z_optional_number_inv in Ha7.
  destruct (get fields (js "reasoning")) as [[]|] eqn:Hr;
    try discriminate.
  unfold reasoningSchema in Ha3. do 4 bind_inv Ha3. inversion Ha3; subst; clear Ha3.
  apply z_string_inv in Ha8, Ha9, Ha10, Ha11.
  split.
  - exists fields, fields0. simpl. intuition.
  - unfold in_range. simpl. intuition.
Qed.

(** ** The evaluation client *)

Lemma ceil_quarter (n : Z) :
  4 * (Math_ceil (inject_Z n / 4) - 1) < n <= 4 * Math_ceil (inject_Z n / 4).
Proof.
  unfold Math_ceil.
  pose proof (Qle_ceiling (inject_Z n / 4)) as Hle.
  pose proof (Qceiling_lt (inject_Z n / 4)) as Hlt.
  set (t := Qceiling (inject_Z n / 4)) in *.
  assert (H4 : (0 < 4)%Q) by reflexivity.
  split.
  - apply (Qmult_lt_r _ _ 4 H4) in Hlt.
    assert (E : (inject_Z n / 4 * 4 == inject_Z n)%Q) by (field).
    rewrite E in Hlt.
    unfold Qlt in Hlt. simpl in Hlt. lia.
  - apply (Qmult_le_r _ _ 4 H4) in Hle.
    assert (E : (inject_Z n / 4 * 4 == inject_Z n)%Q) by (field).
    rewrite E in Hle.
    unfold Qle in Hle. simpl in Hle. lia.
Qed.

Section EvaluatorFacts.

Variable JSON_parse : jsstring -> outcome json.
Variable ZodError_message : json -> jsstring.
Variable String_of : thrown -> jsstring.

Lemma falsy_false_inv c :
  falsy c = false -> exists text, c = Some text /\ text <> [].
Proof.
  destruct c as [[|u text]|]; simpl; try discriminate.
  intros _. exists (u :: text). split; [reflexivity | discriminate].
Qed.

(** Every reply is a failure or a valid response: the two cases are all
    there is. *)
Lemma reply_cases {A} (s : schema A) reply :
  evaluation_failure JSON_parse s reply \/
  exists value a, valid_response JSON_parse s reply value a.
Proof.
  destruct reply as [e | completion]; [left; constructor|].
  destruct (falsy (first_content completion)) eqn:Hf.
  - left. apply content_missing. assumption.
  - destruct (falsy_false_inv _ Hf) as (text & Htext & Hne).
    destruct (JSON_parse text) as [value | e] eqn:Hp.
    + destruct (s (Some value)) as [a|] eqn:Hs.
      * right. exists value, a. econstructor; eauto.
      * left. eapply schema_violation; eauto.
    + left. eapply body_not_json; eauto.
Qed.

#[local] Abbreviation evaluate :=
  (evaluatePrompt JSON_parse ZodError_message String_of).
#[local] Abbreviation autotag :=
  (generateAutoTags JSON_parse ZodError_message).

Lemma evaluate_failure reply promptContent title description :
  evaluation_failure JSON_parse scoringSchema reply ->
  evaluate reply promptContent title description
  = evaluate (Rejects JsOther) promptContent title description.
Proof.
  intros H. unfold evaluatePrompt.
  destruct H as [e | c Hf | c text e Hc Hne Hp | c text value Hc Hne Hp Hs];
    cbn [await_create and_then].
  - reflexivity.
  - rewrite Hf. reflexivity.
  - rewrite Hc. destruct text; [congruence|]. simpl. rewrite Hp. reflexivity.
  - rewrite Hc. destruct text; [congruence|]. simpl. rewrite Hp. simpl.
    unfold parse. rewrite Hs. reflexivity.
Qed.

Lemma evaluate_valid reply value s promptContent title description :
  valid_response JSON_parse scoringSchema reply value s ->
  evaluate reply promptContent title description = Returned s.
Proof.
  intros [c text -> Hc Hne Hp Hs]. unfold evaluatePrompt.
  cbn [await_create and_then]. rewrite Hc. destruct text; [congruence|]. simpl. rewrite Hp. simpl.
  unfold parse. rewrite Hs. reflexivity.
Qed.

Lemma evaluate_rejected_default promptContent title description :
  exists s,
    evaluate (Rejects JsOther) promptContent title description = Returned s /\
    default_score (js "Evaluation failed - default score assigned")
      promptContent s.
Proof.
  eexists. split; [reflexivity|].
  unfold default_score. simpl. repeat (split; [reflexivity|]).
  eexists. split; [reflexivity|]. apply ceil_quarter.
Qed.

(** C1 (amended). [evaluatePrompt] returns for every input, and on every
    failure of the external call (a rejected call, missing content, a body
    that is not JSON, a schema violation) it returns the default score:
    all four scores 5, every reasoning string the literal
    "Evaluation failed - default score assigned" (ASCII hyphen), tags
    [untagged], category [other], complexity [intermediate], and
    estimatedTokens the ceiling of a quarter of the content length, which
    is 0 for empty content. *)
Theorem evaluatePrompt_total_with_default
  reply promptContent title description :
  (exists s, evaluate reply promptContent title description = Returned s) /\
  (evaluation_failure JSON_parse scoringSchema reply ->
   exists s,
     evaluate reply promptContent title description = Returned s /\
     default_score (js "Evaluation failed - default score assigned")
       promptContent s /\
     (promptContent = [] -> PromptScore.estimatedTokens s = Some 0%Q)).
Proof.
  assert (Hfail : evaluation_failure JSON_parse scoringSchema reply ->
    exists s,
     evaluate reply promptContent title description = Returned s /\
     default_score (js "Evaluation failed - default score assigned")
       promptContent s /\
     (promptContent = [] -> PromptScore.estimatedTokens s = Some 0%Q)).
  { intros H. rewrite (evaluate_failure _ promptContent title description H).
    destruct (evaluate_rejected_default promptContent title description)
      as (s & Hs & Hd).
    exists s. split; [assumption|]. split; [assumption|].
    intros ->. destruct Hd as (_ & _ & _ & _ & _ & _ & _ & _ & t & Ht & Hb).
    rewrite Ht. change (Z.of_nat (length (@nil code_unit))) with 0 in Hb.
    replace t with 0 by lia. reflexivity. }
  split; [|assumption].
  destruct (reply_cases scoringSchema reply) as [H | (value & s & H)].
  - destruct (Hfail H) as (s & Hs & _). exists s. assumption.
  - exists s. eapply evaluate_valid. eassumption.
Qed.


Lemma autotag_failure reply promptContent title description :
  evaluation_failure JSON_parse autoTagSchema reply ->
  autotag reply promptContent title description
  = autotag (Rejects JsOther) promptContent title description.
Proof.
  intros H. unfold generateAutoTags.
  destruct H as [e | c Hf | c text e Hc Hne Hp | c text value Hc Hne Hp Hs];
    cbn [await_create and_then].
  - reflexivity.
  - rewrite Hf. reflexivity.
  - rewrite Hc. destruct text; [congruence|]. simpl. rewrite Hp. reflexivity.
  - rewrite Hc. destruct text; [congruence|]. simpl. rewrite Hp. simpl.
    unfold parse. rewrite Hs. reflexivity.
Qed.

(** C9 (amended). [generateAutoTags] returns for every input, and on every
    failure of the tagging call it returns tags [prompt; untagged],
    confidence 0.1 and the reasoning literal
    "Auto-tagging failed - default tags assigned" (ASCII hyphen, no final
    full stop). *)
Theorem generateAutoTags_total_with_default
  reply promptContent title description :
  (exists r, autotag reply promptContent title description = Returned r) /\
  (evaluation_failure JSON_parse autoTagSchema reply ->
   exists r,
     autotag reply promptContent title description = Returned r /\
     default_tags (js "Auto-tagging failed - default tags assigned") r).
Proof.
  assert (Hfail : evaluation_failure JSON_parse autoTagSchema reply ->
   exists r,
     autotag reply promptContent title description = Returned r /\
     default_tags (js "Auto-tagging failed - default tags assigned") r).
  { intros H. rewrite (autotag_failure _ _ _ _ H).
    eexists. split; [reflexivity|]. repeat split. }
  split; [|assumption].
  destruct (reply_cases autoTagSchema reply) as [H | (value & r & H)].
  - destruct (Hfail H) as (r & Hr & _). exists r. assumption.
  - exists r. destruct H as [c text -> Hc Hne Hp Hs].
    unfold generateAutoTags. cbn [await_create and_then].
    rewrite Hc. destruct text; [congruence|]. simpl. rewrite Hp. simpl.
    unfold parse. rewrite Hs. reflexivity.
Qed.

End EvaluatorFacts.

(** ** Counters *)

Lemma jsstring_eqb_refl a : jsstring_eqb a a = true.
Proof.
  unfold jsstring_eqb. destruct (jsstring_eq_dec a a); congruence.
Qed.

Lemma jsstring_eqb_neq a b : a <> b -> jsstring_eqb a b = false.
Proof.
  unfold jsstring_eqb. destruct (jsstring_eq_dec a b); congruence.
Qed.

Lemma jsstring_eqb_false a b : jsstring_eqb a b = false -> a <> b.
Proof.
  unfold jsstring_eqb. destruct (jsstring_eq_dec a b); congruence.
Qed.

Ltac eqb_cases a b :=
  let E := fresh "E" in
  destruct (jsstring_eqb a b) eqn:E;
  [apply jsstring_eqb_true in E | apply jsstring_eqb_false in E].

Lemma first_seen_In tags t : In t (first_seen tags) <-> In t tags.
Proof.
  induction tags as [|u rest IH]; simpl; [tauto|].
  rewrite filter_In, IH. split.
  - intros [H | [H _]]; auto.
  - intros [H | H]; [auto|].
    eqb_cases t u; [left; congruence | right; auto].
Qed.

Lemma first_seen_NoDup tags : NoDup (first_seen tags).
Proof.
  induction tags as [|u rest IH]; simpl; constructor.
  - rewrite filter_In. intros [_ H]. rewrite jsstring_eqb_refl in H.
    discriminate.
  - apply NoDup_filter. assumption.
Qed.

Lemma filter_absent (t : jsstring) l :
  ~ In t l -> filter (fun u => negb (jsstring_eqb u t)) l = l.
Proof.
  induction l as [|x l IH]; simpl; [reflexivity|]. intros H.
  rewrite jsstring_eqb_neq by (intros ->; apply H; auto). simpl.
  f_equal. apply IH. tauto.
Qed.

Lemma first_seen_snoc tags t :
  first_seen (tags ++ [t])
  = if in_dec jsstring_eq_dec t tags then first_seen tags
    else first_seen tags ++ [t].
Proof.
  induction tags as [|u rest IH]; simpl; [reflexivity|].
  rewrite IH. destruct (in_dec jsstring_eq_dec t rest) as [Hin | Hout].
  - destruct (jsstring_eq_dec u t); reflexivity.
  - destruct (jsstring_eq_dec u t) as [-> | Hne].
    + rewrite filter_app. simpl. rewrite jsstring_eqb_refl. simpl.
      rewrite app_nil_r. reflexivity.
    + rewrite filter_app. simpl.
      rewrite jsstring_eqb_neq by congruence. reflexivity.
Qed.

Lemma occurrences_snoc tags t u :
  occurrences (tags ++ [t]) u
  = occurrences tags u + (if jsstring_eqb t u then 1 else 0).
Proof.
  unfold occurrences. rewrite count_occ_app. simpl.
  destruct (jsstring_eq_dec t u) as [-> | Hne].
  - rewrite jsstring_eqb_refl. lia.
  - rewrite jsstring_eqb_neq by assumption. lia.
Qed.

Lemma occurrences_absent tags t : ~ In t tags -> occurrences tags t = 0.
Proof.
  intros H. unfold occurrences.
  rewrite (proj1 (count_occ_not_In jsstring_eq_dec tags t) H). reflexivity.
Qed.

Lemma occurrences_present tags t : In t tags -> 0 < occurrences tags t.
Proof.
  intros H. unfold occurrences.
  apply (count_occ_In jsstring_eq_dec) in H. lia.
Qed.

Lemma own_map {V} (f : jsstring -> V) l key :
  own (map (fun t => (t, f t)) l) key
  = if in_dec jsstring_eq_dec key l then Some (f key) else None.
Proof.
  induction l as [|x l IH]; simpl; [reflexivity|].
  eqb_cases x key.
  - subst. destruct (jsstring_eq_dec key key); [reflexivity | congruence].
  - rewrite IH. destruct (jsstring_eq_dec x key); [congruence|].
    destruct (in_dec jsstring_eq_dec key l); reflexivity.
Qed.

Lemma assign_absent {V} (f : jsstring -> V) l key v :
  ~ In key l ->
  assign (map (fun t => (t, f t)) l) key v
  = map (fun t => (t, f t)) l ++ [(key, v)].
Proof.
  induction l as [|x l IH]; simpl; [reflexivity|]. intros H.
  rewrite jsstring_eqb_neq by (intros ->; apply H; auto).
  f_equal. apply IH. tauto.
Qed.

Lemma assign_present {V} (f g : jsstring -> V) l key :
  NoDup l -> In key l ->
  (forall t, t <> key -> g t = f t) ->
  assign (map (fun t => (t, f t)) l) key (g key)
  = map (fun t => (t, g t)) l.
Proof.
  intros Hnd Hin Hfg. induction l as [|x l IH]; simpl; [contradiction|].
  inversion Hnd as [|? ? Hx Hl]; subst.
  eqb_cases x key.
  - subst. f_equal. apply map_ext_in. intros t Ht.
    rewrite Hfg; [reflexivity|]. intros ->. contradiction.
  - rewrite (Hfg x) by assumption. f_equal. apply IH; [assumption|].
    destruct Hin; [contradiction | assumption].
Qed.

Lemma plain_not_proto key :
  inherited key = false -> jsstring_eqb key (js "__proto__") = false.
Proof.
  intros H. eqb_cases key (js "__proto__"); [|reflexivity].
  subst key. vm_compute in H. discriminate H.
Qed.

Section CounterFacts.

Variable native_source : jsstring -> jsstring.

(** One increment of the counter of [pre], for a key that names no member
    of [Object.prototype], is the counter of [pre] with the key
    appended. *)
Lemma increment_counted pre key :
  inherited key = false ->
  increment native_source (counted pre) key = counted (pre ++ [key]).
Proof.
  intros Hp. unfold increment.
  unfold counted. rewrite own_map, first_seen_snoc.
  destruct (in_dec jsstring_eq_dec key (first_seen pre)) as [Hin | Hout];
    destruct (in_dec jsstring_eq_dec key pre) as [Hin' | Hout'];
    try (rewrite first_seen_In in *; contradiction).
  - assert (Hpos := occurrences_present _ _ Hin').
    unfold or_zero_plus_one.
    replace (occurrences pre key =? 0) with false
      by (symmetry; apply Z.eqb_neq; lia).
    replace (occurrences pre key + 1) with (occurrences (pre ++ [key]) key)
      by (rewrite occurrences_snoc, jsstring_eqb_refl; reflexivity).
    apply (assign_present (fun t => Count (occurrences pre t))
             (fun t => Count (occurrences (pre ++ [key]) t)));
      [apply first_seen_NoDup | assumption |].
    intros t Ht. rewrite occurrences_snoc.
    rewrite jsstring_eqb_neq by congruence. f_equal. lia.
  - rewrite (plain_not_proto key Hp), Hp.
    rewrite (assign_absent (fun t => Count (occurrences pre t)))
      by assumption.
    rewrite map_app. simpl. f_equal.
    + apply map_ext_in. intros t Ht. rewrite occurrences_snoc.
      rewrite jsstring_eqb_neq; [repeat f_equal; lia|].
      intros <-. apply Hout. assumption.
    + rewrite occurrences_snoc, jsstring_eqb_refl.
      rewrite occurrences_absent by assumption. reflexivity.
Qed.

Lemma tally_counted pre keys :
  Forall (fun key => inherited key = false) keys ->
  tally native_source (counted pre) keys = counted (pre ++ keys).
Proof.
  intros H. revert pre. unfold tally.
  induction H as [|key rest Hk _ IH]; intros pre; cbn [fold_left].
  - rewrite app_nil_r. reflexivity.
  - rewrite increment_counted by assumption.
    rewrite IH, <- app_assoc. reflexivity.
Qed.

Lemma tally_each_counted {A} (f : A -> jsstring) l : forall pre,
  (forall a, In a l -> inherited (f a) = false) ->
  fold_left (fun o a => increment native_source o (f a)) l (counted pre)
  = counted (pre ++ map f l).
Proof.
  induction l as [|a l IH]; intros pre H; cbn [fold_left map].
  - rewrite app_nil_r. reflexivity.
  - rewrite increment_counted by (apply H; left; reflexivity).
    rewrite IH by (intros b Hb; apply H; right; exact Hb).
    rewrite <- app_assoc. reflexivity.
Qed.

Lemma tagCounts_from scores : forall pre,
  Forall (fun key => inherited key = false) (all_tags scores) ->
  fold_left
    (fun tagCounts score =>
       tally native_source tagCounts (PromptScore.suggestedTags score))
    scores (counted pre)
  = counted (pre ++ all_tags scores).
Proof.
  induction scores as [|s rest IH]; intros pre H; cbn [fold_left].
  - rewrite app_nil_r. reflexivity.
  - unfold all_tags in H. simpl in H. apply Forall_app in H as [Hs Hrest].
    rewrite tally_counted by assumption.
    rewrite IH by assumption. unfold all_tags. simpl.
    rewrite <- app_assoc. reflexivity.
Qed.

Lemma tagCounts_of_counted scores :
  Forall (fun key => inherited key = false) (all_tags scores) ->
  tagCounts_of native_source scores = counted (all_tags scores).
Proof.
  intros H. unfold tagCounts_of.
  change (@nil (jsstring * held)) with (counted []).
  rewrite tagCounts_from by assumption. reflexivity.
Qed.

End CounterFacts.

Lemma count_of_counted tags key :
  count_of (counted tags) key = occurrences tags key.
Proof.
  unfold count_of, counted. rewrite own_map.
  destruct (in_dec jsstring_eq_dec key (first_seen tags)) as [H | H];
    [reflexivity|].
  rewrite first_seen_In in H. symmetry. apply occurrences_absent. assumption.
Qed.

Lemma own_counted tags key :
  own (counted tags) key
  = if in_dec jsstring_eq_dec key tags
    then Some (Count (occurrences tags key)) else None.
Proof.
  unfold counted. rewrite own_map.
  destruct (in_dec jsstring_eq_dec key (first_seen tags)) as [H | H];
    destruct (in_dec jsstring_eq_dec key tags) as [H' | H'];
    try reflexivity; rewrite first_seen_In in H; contradiction.
Qed.

Lemma own_counted_In tags key :
  own (counted tags) key <> None -> In key tags.
Proof.
  rewrite own_counted.
  destruct (in_dec jsstring_eq_dec key tags); [auto | congruence].
Qed.

(** ** The stable sort by descending count *)

Lemma sort_insert_perm {A} (compare : A -> A -> Z) e l :
  Permutation (e :: l) (sort_insert compare e l).
Proof.
  induction l as [|x l IH]; simpl; [reflexivity|].
  destruct (0 <? compare e x); [|reflexivity].
  rewrite perm_swap. apply perm_skip. assumption.
Qed.

Lemma Array_sort_perm {A} (compare : A -> A -> Z) l :
  Permutation l (Array_sort compare l).
Proof.
  induction l as [|x l IH]; simpl; [reflexivity|].
  rewrite <- sort_insert_perm. apply perm_skip. assumption.
Qed.

Lemma sort_insert_sorted e l :
  Sorted count_ge l -> Sorted count_ge (sort_insert by_tally_descending e l).
Proof.
  induction 1 as [|x l Hl IH Hx]; simpl; [repeat constructor|].
  unfold by_tally_descending at 1.
  destruct (0 <? tally_of x - tally_of e) eqn:Hcmp.
  - apply Z.ltb_lt in Hcmp. constructor; [assumption|].
    destruct l as [|y l]; simpl.
    + constructor. unfold count_ge. lia.
    + unfold by_tally_descending at 1.
      destruct (0 <? tally_of y - tally_of e).
      * constructor. inversion Hx. assumption.
      * constructor. unfold count_ge. lia.
  - apply Z.ltb_ge in Hcmp. constructor.
    + constructor; assumption.
    + constructor. unfold count_ge. lia.
Qed.

Lemma Array_sort_sorted l :
  StronglySorted count_ge (Array_sort by_tally_descending l).
Proof.
  apply Sorted_StronglySorted.
  - intros a b c. unfold count_ge. lia.
  - induction l as [|x l IH]; simpl; [constructor|].
    apply sort_insert_sorted. assumption.
Qed.

Lemma sort_insert_stable c e l :
  filter (fun a => tally_of a =? c) (sort_insert by_tally_descending e l)
  = filter (fun a => tally_of a =? c) (e :: l).
Proof.
  induction l as [|x l IH]; [reflexivity|].
  cbn [sort_insert]. unfold by_tally_descending at 1.
  destruct (0 <? tally_of x - tally_of e) eqn:Hcmp;
    [|reflexivity].
  apply Z.ltb_lt in Hcmp. cbn [filter] in *. rewrite IH.
  destruct (tally_of x =? c) eqn:Hx; [|reflexivity].
  apply Z.eqb_eq in Hx.
  replace (tally_of e =? c) with false
    by (symmetry; apply Z.eqb_neq; lia).
  reflexivity.
Qed.

Lemma Array_sort_stable c l :
  filter (fun a => tally_of a =? c) (Array_sort by_tally_descending l)
  = filter (fun a => tally_of a =? c) l.
Proof.
  induction l as [|x l IH]; [reflexivity|].
  cbn [Array_sort fold_right]. fold (Array_sort by_tally_descending l).
  rewrite sort_insert_stable. cbn [filter]. rewrite IH. reflexivity.
Qed.

Lemma Array_sort_stable_descending l :
  stable_descending l (Array_sort by_tally_descending l).
Proof.
  split; [apply Array_sort_perm|].
  split; [apply Array_sort_sorted | intros c; apply Array_sort_stable].
Qed.

(** Two descending lists with the same elements of every count, in the
    same order, are equal. *)
Lemma descending_unique (l1 l2 : list TagCount.t) :
  StronglySorted count_ge l1 -> StronglySorted count_ge l2 ->
  (forall c, filter (fun a => tally_of a =? c) l1
             = filter (fun a => tally_of a =? c) l2) ->
  l1 = l2.
Proof.
  intros H1. revert l2. induction H1 as [|x l1 Hs1 IH Hx]; intros l2 H2 Hf.
  - destruct l2 as [|y l2]; [reflexivity|].
    specialize (Hf (tally_of y)). simpl in Hf.
    rewrite Z.eqb_refl in Hf. discriminate.
  - destruct H2 as [|y l2 Hs2 Hy].
    + specialize (Hf (tally_of x)). simpl in Hf.
      rewrite Z.eqb_refl in Hf. discriminate.
    + assert (Hin : forall a l l', 
                 (forall c, filter (fun a => tally_of a =? c) l
                            = filter (fun a => tally_of a =? c) l') ->
                 In a l -> In a l').
      { intros a l l' Hll Ha.
        assert (Ha' : In a (filter (fun e => tally_of e =? tally_of a) l))
          by (apply filter_In; split; [assumption | apply Z.eqb_refl]).
        rewrite Hll in Ha'. apply filter_In in Ha'. tauto. }
      assert (Hxy : tally_of x = tally_of y).
      { assert (Hx2 : In x (y :: l2)) by (apply (Hin x _ _ Hf); left; auto).
        assert (Hy1 : In y (x :: l1)).
        { apply (Hin y (y :: l2) (x :: l1)); [|left; auto].
          intros c. symmetry. apply Hf. }
        rewrite Forall_forall in Hx, Hy. unfold count_ge in *.
        destruct Hx2 as [-> | Hx2]; [reflexivity|].
        destruct Hy1 as [-> | Hy1]; [reflexivity|].
        specialize (Hx _ Hy1). specialize (Hy _ Hx2). lia. }
      assert (Hhead := Hf (tally_of x)). simpl in Hhead.
      rewrite Z.eqb_refl in Hhead.
      rewrite <- Hxy, Z.eqb_refl in Hhead.
      injection Hhead as -> Htail. f_equal.
      apply IH; [assumption|]. intros c. specialize (Hf c). simpl in Hf.
      destruct (tally_of y =? c); [injection Hf; auto | assumption].
Qed.

Lemma stable_descending_unique input out1 out2 :
  stable_descending input out1 -> stable_descending input out2 -> out1 = out2.
Proof.
  intros (_ & Hs1 & Hf1) (_ & Hs2 & Hf2).
  apply descending_unique; try assumption.
  intros c. rewrite Hf1, Hf2. reflexivity.
Qed.

(** *** The sort of the language on counts that are numbers *)

Lemma sort_insert_ext {A} (c1 c2 : A -> A -> Z) e l :
  (forall x, In x l -> c1 e x = c2 e x) ->
  sort_insert c1 e l = sort_insert c2 e l.
Proof.
  induction l as [|x l IH]; intros H; simpl; [reflexivity|].
  rewrite (H x) by (left; reflexivity).
  rewrite IH by (intros y Hy; apply H; right; exact Hy). reflexivity.
Qed.

Lemma Array_sort_ext {A} (c1 c2 : A -> A -> Z) l :
  (forall x y, In x l -> In y l -> c1 x y = c2 x y) ->
  Array_sort c1 l = Array_sort c2 l.
Proof.
  induction l as [|e l IH]; intros H; [reflexivity|].
  cbn [Array_sort fold_right]. fold (Array_sort c1 l) (Array_sort c2 l).
  rewrite IH by (intros x y Hx Hy; apply H; right; assumption).
  apply sort_insert_ext. intros x Hx. apply H; [left; reflexivity|].
  right. eapply Permutation_in; [symmetry; apply Array_sort_perm | exact Hx].
Qed.

Lemma SortCompare_numbers a b :
  is_number (TagCount.count a) = true ->
  is_number (TagCount.count b) = true ->
  SortCompare by_count_descending a b = by_tally_descending a b.
Proof.
  unfold SortCompare, by_count_descending, by_tally_descending, tally_of.
  destruct (TagCount.count a), (TagCount.count b); try discriminate.
  reflexivity.
Qed.

Lemma numbers_consistent l :
  Forall (fun e => is_number (TagCount.count e) = true) l ->
  consistent by_count_descending l = true.
Proof.
  intros H. rewrite Forall_forall in H. unfold consistent.
  apply forallb_forall. intros a Ha. apply forallb_forall. intros b Hb.
  apply andb_true_intro. split.
  { pose proof (H a Ha) as Na. pose proof (H b Hb) as Nb.
    unfold by_count_descending.
    destruct (TagCount.count a), (TagCount.count b); try discriminate.
    reflexivity. }
  apply forallb_forall. intros c Hc. unfold consistent_at.
  rewrite !SortCompare_numbers by (apply H; assumption).
  unfold by_tally_descending.
  set (x := tally_of a). set (y := tally_of b). set (z := tally_of c).
  destruct (Z.eqb_spec (x - x) 0); [|lia].
  destruct (Z.eqb_spec (y - x) 0); destruct (Z.eqb_spec (x - y) 0);
    try lia;
    destruct (Z.eqb_spec (z - y) 0); destruct (Z.eqb_spec (z - x) 0);
    try lia;
    destruct (Z.ltb_spec (y - x) 0); destruct (Z.ltb_spec (z - y) 0);
    destruct (Z.ltb_spec (z - x) 0); try lia;
    destruct (Z.ltb_spec 0 (y - x)); destruct (Z.ltb_spec 0 (z - y));
    destruct (Z.ltb_spec 0 (z - x)); try lia; reflexivity.
Qed.

(** On counts that are numbers the sort of the language is the stable
    sort by descending count, whatever the implementation. *)
Lemma sort_numbers engine_order l :
  Forall (fun e => is_number (TagCount.count e) = true) l ->
  Array_prototype_sort engine_order by_count_descending l
  = Array_sort by_tally_descending l.
Proof.
  intros H. unfold Array_prototype_sort.
  rewrite numbers_consistent by assumption.
  apply Array_sort_ext. rewrite Forall_forall in H.
  intros x y Hx Hy. apply SortCompare_numbers; apply H; assumption.
Qed.

(** ** Enumeration order *)

Lemma filter_none {A} (f : A -> bool) l :
  Forall (fun a => f a = false) l -> filter f l = [].
Proof.
  induction 1 as [|a l Ha _ IH]; simpl; [reflexivity|].
  rewrite Ha. assumption.
Qed.

Lemma filter_all {A} (f : A -> bool) l :
  Forall (fun a => f a = true) l -> filter f l = l.
Proof.
  induction 1 as [|a l Ha _ IH]; simpl; [reflexivity|].
  rewrite Ha. f_equal. assumption.
Qed.

Lemma Object_entries_no_index {V} (o : list (jsstring * V)) :
  Forall (fun e => is_array_index (fst e) = false) o -> Object_entries o = o.
Proof.
  intros H. unfold Object_entries.
  rewrite filter_none by assumption. simpl.
  apply filter_all. eapply Forall_impl; [|exact H].
  simpl. intros e ->. reflexivity.
Qed.

Lemma counted_no_index tags :
  Forall (fun t => is_array_index t = false) tags ->
  Forall (fun e => is_array_index (fst e) = false) (counted tags).
Proof.
  intros H. unfold counted. rewrite Forall_map. simpl.
  rewrite Forall_forall in *. intros t Ht. apply H.
  apply first_seen_In. assumption.
Qed.

Lemma filter_split_perm {A} (f : A -> bool) l :
  Permutation l (filter f l ++ filter (fun a => negb (f a)) l).
Proof.
  induction l as [|a l IH]; simpl; [constructor|].
  destruct (f a); simpl.
  - constructor. assumption.
  - apply Permutation_cons_app. assumption.
Qed.

Lemma insert_by_index_perm {V} (e : jsstring * V) l :
  Permutation (e :: l) (insert_by_index e l).
Proof.
  induction l as [|x l IH]; simpl; [reflexivity|].
  destruct (index_of (fst e) <=? index_of (fst x))%N; [reflexivity|].
  rewrite perm_swap. constructor. assumption.
Qed.

Lemma ascending_by_index_perm {V} (l : list (jsstring * V)) :
  Permutation l (ascending_by_index l).
Proof.
  induction l as [|x l IH]; simpl; [constructor|].
  rewrite <- insert_by_index_perm. constructor. assumption.
Qed.

(** [Object.entries] lists every own property once. *)
Lemma Object_entries_perm {V} (o : list (jsstring * V)) :
  Permutation o (Object_entries o).
Proof.
  unfold Object_entries.
  rewrite <- ascending_by_index_perm. apply filter_split_perm.
Qed.

Lemma insert_by_index_sorted {V} (e : jsstring * V) l :
  StronglySorted (fun a b => (index_of (fst a) <= index_of (fst b))%N) l ->
  StronglySorted (fun a b => (index_of (fst a) <= index_of (fst b))%N)
    (insert_by_index e l).
Proof.
  induction 1 as [|x l Hl IH Hx]; simpl; [repeat constructor|].
  destruct (N.leb_spec (index_of (fst e)) (index_of (fst x))) as [Hle | Hgt].
  - constructor; [constructor; assumption|].
    constructor; [assumption|].
    eapply Forall_impl; [|exact Hx]. cbn beta. intros a Ha. lia.
  - constructor; [assumption|].
    eapply Permutation_Forall; [apply insert_by_index_perm|].
    constructor; [lia | assumption].
Qed.

Lemma ascending_by_index_sorted {V} (l : list (jsstring * V)) :
  StronglySorted (fun a b => (index_of (fst a) <= index_of (fst b))%N)
    (ascending_by_index l).
Proof.
  induction l as [|x l IH]; simpl; [constructor|].
  apply insert_by_index_sorted. assumption.
Qed.

Lemma StronglySorted_map {A B} (f : A -> B) (R : B -> B -> Prop) l :
  StronglySorted (fun a b => R (f a) (f b)) l -> StronglySorted R (map f l).
Proof.
  induction 1 as [|x l Hl IH Hx]; simpl; constructor; [assumption|].
  rewrite Forall_map. assumption.
Qed.

Lemma keys_filter {V} (f : jsstring -> V) (test : jsstring -> bool) l :
  map fst (filter (fun e => test (fst e)) (map (fun t => (t, f t)) l))
  = filter test l.
Proof.
  induction l as [|t l IH]; simpl; [reflexivity|].
  destruct (test t); simpl; rewrite IH; reflexivity.
Qed.

(** *** Array indices are canonical numerals *)

Lemma digits_value_snoc s : forall acc c,
  digits_value acc (s ++ [c])
  = match digits_value acc s with
    | Some m => if is_digit c then Some (m * 10 + (c - 48))%N else None
    | None => None
    end.
Proof.
  induction s as [|d s IH]; intros acc c; simpl; [reflexivity|].
  destruct (is_digit d); [apply IH | reflexivity].
Qed.

Lemma digits_value_grows s : forall acc n,
  digits_value acc s = Some n -> (acc <= n)%N.
Proof.
  induction s as [|d s IH]; intros acc n H; simpl in H.
  - inversion H. lia.
  - destruct (is_digit d); [|discriminate]. apply IH in H. lia.
Qed.

Lemma digits_value_positive c s n :
  c <> 48%N -> digits_value 0 (c :: s) = Some n -> (0 < n)%N.
Proof.
  intros Hc H. simpl in H. destruct (is_digit c) eqn:Hd; [|discriminate].
  apply digits_value_grows in H. unfold is_digit in Hd.
  apply andb_prop in Hd. destruct Hd as [Hlo Hhi].
  apply N.leb_le in Hlo. lia.
Qed.

(** A numeral without a leading zero is told by its value. *)
Lemma digits_value_injective s1 : forall s2 n,
  hd 0%N s1 <> 48%N -> hd 0%N s2 <> 48%N ->
  digits_value 0 s1 = Some n -> digits_value 0 s2 = Some n -> s1 = s2.
Proof.
  induction s1 as [|c1 s1 IH] using rev_ind; intros s2 n H1 H2 E1 E2.
  - simpl in E1. inversion E1; subst n.
    destruct s2 as [|c2 s2]; [reflexivity|].
    apply digits_value_positive in E2; [lia | exact H2].
  - destruct s2 as [|c2 s2] using rev_ind.
    + simpl in E2. inversion E2; subst n.
      destruct (s1 ++ [c1]) as [|d rest] eqn:E;
        [destruct s1; discriminate|].
      apply digits_value_positive in E1; [lia | exact H1].
    + clear IHs2. rewrite digits_value_snoc in E1, E2.
      destruct (digits_value 0 s1) as [m1|] eqn:D1; [|discriminate].
      destruct (digits_value 0 s2) as [m2|] eqn:D2; [|discriminate].
      destruct (is_digit c1) eqn:Hd1; [|discriminate].
      destruct (is_digit c2) eqn:Hd2; [|discriminate].
      inversion E1 as [V1]. inversion E2 as [V2].
      unfold is_digit in Hd1, Hd2.
      apply andb_prop in Hd1, Hd2.
      destruct Hd1 as [L1 U1], Hd2 as [L2 U2].
      apply N.leb_le in L1, U1, L2, U2.
      assert (Hm : m1 = m2) by lia. assert (Hc : c1 = c2) by lia.
      subst m2 c2. f_equal.
      destruct s1 as [|a1 r1], s2 as [|a2 r2].
      * reflexivity.
      * simpl in D1. inversion D1; subst m1.
        apply digits_value_positive in D2; [lia | exact H2].
      * simpl in D2. inversion D2; subst m1.
        apply digits_value_positive in D1; [lia | exact H1].
      * apply (IH (a2 :: r2) m1); [exact H1 | exact H2 | reflexivity | exact D2].
Qed.

Lemma array_index_injective a b n :
  array_index a = Some n -> array_index b = Some n -> a = b.
Proof.
  unfold array_index. intros Ha Hb.
  destruct a as [|ca ra]; [discriminate|].
  destruct b as [|cb rb]; [discriminate|].
  destruct (N.eqb_spec ca 48) as [-> | Hca];
    destruct (N.eqb_spec cb 48) as [-> | Hcb].
  - destruct ra; [|discriminate]. destruct rb; [|discriminate]. reflexivity.
  - destruct ra; [|discriminate]. inversion Ha; subst n.
    destruct (digits_value 0 (cb :: rb)) as [m|] eqn:D; [|discriminate].
    destruct (m <? 2 ^ 32 - 1)%N; [|discriminate]. inversion Hb; subst m.
    apply digits_value_positive in D; [lia | assumption].
  - destruct rb; [|discriminate]. inversion Hb; subst n.
    destruct (digits_value 0 (ca :: ra)) as [m|] eqn:D; [|discriminate].
    destruct (m <? 2 ^ 32 - 1)%N; [|discriminate]. inversion Ha; subst m.
    apply digits_value_positive in D; [lia | assumption].
  - destruct (digits_value 0 (ca :: ra)) as [ma|] eqn:Da; [|discriminate].
    destruct (digits_value 0 (cb :: rb)) as [mb|] eqn:Db; [|discriminate].
    destruct (ma <? 2 ^ 32 - 1)%N; [|discriminate].
    destruct (mb <? 2 ^ 32 - 1)%N; [|discriminate].
    inversion Ha; inversion Hb; subst ma mb.
    apply (digits_value_injective (ca :: ra) (cb :: rb) n); assumption.
Qed.

Lemma index_of_injective a b :
  is_array_index a = true -> is_array_index b = true ->
  index_of a = index_of b -> a = b.
Proof.
  unfold is_array_index, index_of. intros Ha Hb E.
  destruct (array_index a) as [n|] eqn:Ea; [|discriminate].
  destruct (array_index b) as [m|] eqn:Eb; [|discriminate].
  subst m. apply (array_index_injective a b n); assumption.
Qed.

(** Distinct array indices in ascending order are in strictly ascending
    order. *)
Lemma ascending_strictly (l : list jsstring) :
  NoDup l -> Forall (fun t => is_array_index t = true) l ->
  StronglySorted (fun a b => (index_of a <= index_of b)%N) l ->
  StronglySorted (fun a b => (index_of a < index_of b)%N) l.
Proof.
  intros Hnd Hi Hs. induction Hs as [|x l Hl IH Hx]; [constructor|].
  inversion Hnd as [|? ? Hout Hnd']; subst.
  inversion Hi as [|? ? Hxi Hi']; subst.
  constructor; [apply IH; assumption|].
  rewrite Forall_forall in *. intros b Hb.
  specialize (Hx b Hb).
  destruct (N.eq_dec (index_of x) (index_of b)) as [E | Hne]; [|lia].
  exfalso. apply Hout.
  rewrite (index_of_injective x b Hxi (Hi' b Hb) E). assumption.
Qed.

(** A list in strictly ascending order is the only one among its
    permutations. *)
Lemma ascending_unique (l1 : list jsstring) : forall l2,
  StronglySorted (fun a b => (index_of a < index_of b)%N) l1 ->
  StronglySorted (fun a b => (index_of a < index_of b)%N) l2 ->
  Permutation l1 l2 -> l1 = l2.
Proof.
  induction l1 as [|x l1 IH]; intros l2 H1 H2 Hp.
  - apply Permutation_nil in Hp. subst. reflexivity.
  - destruct l2 as [|y l2];
      [symmetry in Hp; apply Permutation_nil in Hp; discriminate|].
    inversion H1 as [|? ? Hs1 Hx]; subst.
    inversion H2 as [|? ? Hs2 Hy]; subst.
    rewrite Forall_forall in Hx, Hy.
    assert (Hxy : x = y).
    { assert (Hx2 : In x (y :: l2))
        by (eapply Permutation_in; [exact Hp | left; reflexivity]).
      assert (Hy1 : In y (x :: l1))
        by (eapply Permutation_in; [symmetry; exact Hp | left; reflexivity]).
      destruct Hx2 as [<- | Hx2]; [reflexivity|].
      destruct Hy1 as [-> | Hy1]; [reflexivity|].
      specialize (Hx _ Hy1). specialize (Hy _ Hx2). lia. }
    subst y. f_equal. apply IH; try assumption.
    eapply Permutation_cons_inv. exact Hp.
Qed.

Lemma enumerated_unique tags keys1 keys2 :
  enumerated tags keys1 -> enumerated tags keys2 -> keys1 = keys2.
Proof.
  intros (n1 & o1 & -> & Hp1 & Hs1 & ->) (n2 & o2 & -> & Hp2 & Hs2 & ->).
  f_equal. apply ascending_unique; try assumption.
  rewrite <- Hp1. assumption.
Qed.

(** The keys of the counter of [tags], as [Object.entries] lists them, are
    in the order of enumeration described in words. *)
Lemma counted_enumerated tags :
  enumerated tags (map fst (Object_entries (counted tags))).
Proof.
  unfold Object_entries. rewrite map_app.
  assert (Hperm :
    Permutation (filter is_array_index (first_seen tags))
      (map fst
         (ascending_by_index
            (filter (fun e => is_array_index (fst e)) (counted tags))))).
  { rewrite <- (keys_filter (fun t => Count (occurrences tags t))
                  is_array_index (first_seen tags)).
    apply Permutation_map. apply ascending_by_index_perm. }
  eexists. eexists. split; [reflexivity|]. split; [exact Hperm|]. split.
  - apply ascending_strictly.
    + eapply Permutation_NoDup; [exact Hperm|].
      apply NoDup_filter. apply first_seen_NoDup.
    + eapply Permutation_Forall; [exact Hperm|].
      rewrite Forall_forall. intros t Ht. apply filter_In in Ht. tauto.
    + apply StronglySorted_map. apply ascending_by_index_sorted.
  - unfold counted.
    apply (keys_filter (fun t => Count (occurrences tags t))
             (fun t => negb (is_array_index t))).
Qed.

Lemma entries_of_counted tags :
  map entry (Object_entries (counted tags))
  = map (with_occurrences tags) (map fst (Object_entries (counted tags))).
Proof.
  rewrite map_map. apply map_ext_in. intros [t x] He.
  eapply Permutation_in in He; [|symmetry; apply Object_entries_perm].
  unfold counted in He. apply in_map_iff in He.
  destruct He as (t' & E & _). inversion E; subst. reflexivity.
Qed.

Lemma with_occurrences_number tags keys :
  Forall (fun e => is_number (TagCount.count e) = true)
    (map (with_occurrences tags) keys).
Proof.
  rewrite Forall_map. rewrite Forall_forall. reflexivity.
Qed.

(** ** Top tags *)

Lemma topTags_of_counted native_source engine_order scores :
  Forall (fun t => inherited t = false) (all_tags scores) ->
  topTags_of native_source engine_order scores
  = firstn 20
      (Array_sort by_tally_descending
         (map (with_occurrences (all_tags scores))
            (map fst (Object_entries (counted (all_tags scores)))))).
Proof.
  intros H. unfold topTags_of.
  rewrite tagCounts_of_counted by assumption.
  change (map (fun e => TagCount.mk (fst e) (snd e))
            (Object_entries (counted (all_tags scores))))
    with (map entry (Object_entries (counted (all_tags scores)))).
  rewrite entries_of_counted.
  rewrite sort_numbers by apply with_occurrences_number. reflexivity.
Qed.

(** What the aggregator returns has the fields computed by the four
    blocks; for the empty collection these are the empty ones, too. *)
Lemma stats_topTags native_source engine_order scores :
  ScoringStats.topTags
    (calculateScoringStats native_source engine_order scores)
  = topTags_of native_source engine_order scores.
Proof.
  destruct scores; reflexivity.
Qed.

Lemma stats_distributions native_source engine_order scores :
  ScoringStats.distributions
    (calculateScoringStats native_source engine_order scores)
  = distributions_of native_source scores.
Proof.
  destruct scores; reflexivity.
Qed.

Lemma stats_categoryDistribution native_source engine_order scores :
  ScoringStats.categoryDistribution
    (calculateScoringStats native_source engine_order scores)
  = categoryDistribution_of native_source scores.
Proof.
  destruct scores; reflexivity.
Qed.

(** C8 (amended). For every collection none of whose tags names a member of
    [Object.prototype], the top tags that the aggregator returns are: the
    distinct tags of all items, each with the number of its occurrences,
    sorted by descending count with equal counts kept in the order of
    enumeration (the tags that are array indices first, in ascending
    numeric order, then the other tags in first-met order), cut to at most
    20 entries, and nothing else is.  When no tag is an array index, equal
    counts follow first-met order. *)
Theorem topTags_sorted_in_enumeration_order
  native_source engine_order scores :
  Forall (fun t => inherited t = false) (all_tags scores) ->
  top_by_enumeration scores
    (ScoringStats.topTags
       (calculateScoringStats native_source engine_order scores)) /\
  (length
     (ScoringStats.topTags
        (calculateScoringStats native_source engine_order scores))
   <= 20)%nat /\
  (forall top,
     top_by_enumeration scores top ->
     top
     = ScoringStats.topTags
         (calculateScoringStats native_source engine_order scores)) /\
  (Forall (fun t => is_array_index t = false) (all_tags scores) ->
   top_by_first_seen scores
     (ScoringStats.topTags
        (calculateScoringStats native_source engine_order scores))).
Proof.
  intros H. rewrite stats_topTags, topTags_of_counted by assumption.
  split; [|split; [|split]].
  - eexists. eexists. split; [apply counted_enumerated|].
    split; [apply Array_sort_stable_descending | reflexivity].
  - apply firstn_le_length.
  - intros top (keys & sorted & Hkeys & Hsorted & ->). f_equal.
    rewrite (enumerated_unique _ _ _ Hkeys
               (counted_enumerated (all_tags scores))) in Hsorted.
    eapply stable_descending_unique; [exact Hsorted|].
    apply Array_sort_stable_descending.
  - intros Hi. eexists. split; [|reflexivity].
    rewrite (Object_entries_no_index (counted (all_tags scores)))
      by (apply counted_no_index; assumption).
    replace (map fst (counted (all_tags scores)))
      with (first_seen (all_tags scores)).
    + apply Array_sort_stable_descending.
    + unfold counted. rewrite map_map. simpl. symmetry. apply map_id.
Qed.

(** ** Histograms *)

Lemma ToString_int_head n :
  exists c rest,
    ToString_int n = c :: rest /\ (is_digit c = true \/ c = 45%N).
Proof.
  unfold ToString_int, NilZero.string_of_int.
  destruct (Z.to_int n) as [d | d].
  - destruct d; simpl; eexists; eexists;
      (split; [reflexivity | left; reflexivity]).
  - simpl. eexists. eexists. split; [reflexivity | right; reflexivity].
Qed.

Lemma inherited_head key :
  inherited key = true ->
  exists c rest, key = c :: rest /\ In c [99; 104; 105; 112; 116; 118; 95]%N.
Proof.
  unfold inherited. rewrite existsb_exists. intros (k & Hk & Heq).
  apply jsstring_eqb_true in Heq. subst k.
  unfold Object_prototype_keys in Hk. simpl in Hk.
  repeat (destruct Hk as [<- | Hk];
          [eexists; eexists; split; [reflexivity | simpl; tauto]|]).
  contradiction.
Qed.

Lemma range_of_not_inherited value : inherited (range_of value) = false.
Proof.
  destruct (inherited (range_of value)) eqn:H; [|reflexivity].
  exfalso. apply inherited_head in H. destruct H as (c & rest & Hr & Hc).
  unfold range_of in Hr.
  destruct (ToString_int_head (Math_floor ((value - 1) / 2) * 2 + 1))
    as (c' & rest' & Hs & Hd).
  rewrite Hs in Hr. simpl in Hr. injection Hr as -> _.
  simpl in Hc.
  destruct Hd as [Hd | ->].
  - repeat (destruct Hc as [<- | Hc]; [vm_compute in Hd; discriminate Hd|]).
    contradiction.
  - repeat (destruct Hc as [Hc' | Hc]; [discriminate Hc'|]).
    contradiction.
Qed.

Lemma histogram_with d m o m' :
  histogram (with_histogram d m o) m'
  = match m, m' with
    | clarity, clarity | structure, structure | usefulness, usefulness
    | overall, overall => o
    | _, _ => histogram d m'
    end.
Proof. destruct m, m'; reflexivity. Qed.

Section HistogramFacts.

Variable native_source : jsstring -> jsstring.

(** One item adds one to one key of each histogram. *)
Lemma each_metric_increments d score m :
  histogram (each_metric native_source d score) m
  = increment native_source (histogram d m)
      (range_of (metric_value m score)).
Proof.
  unfold each_metric, metric_names. cbn [fold_left].
  rewrite !histogram_with. destruct m; reflexivity.
Qed.

Lemma each_score_tally scores m : forall d,
  histogram (fold_left (each_metric native_source) scores d) m
  = fold_left
      (fun o s =>
         increment native_source o (range_of (metric_value m s)))
      scores (histogram d m).
Proof.
  induction scores as [|s rest IH]; intros d; cbn [fold_left];
    [reflexivity|].
  rewrite IH, each_metric_increments. reflexivity.
Qed.

Lemma distributions_of_counted scores m :
  histogram (distributions_of native_source scores) m
  = counted (map (fun s => range_of (metric_value m s)) scores).
Proof.
  unfold distributions_of. rewrite each_score_tally.
  assert (E : histogram no_distributions m = counted [])
    by (destruct m; reflexivity).
  rewrite E.
  rewrite (tally_each_counted native_source
             (fun s => range_of (metric_value m s)) scores [])
    by (intros s _; apply range_of_not_inherited).
  reflexivity.
Qed.

End HistogramFacts.

Lemma range_of_comp x y : x == y -> range_of x = range_of y.
Proof.
  intros H. unfold range_of, Math_floor.
  assert (E : Qfloor ((x - 1) / 2) = Qfloor ((y - 1) / 2))
    by (rewrite H; reflexivity).
  rewrite E. reflexivity.
Qed.

Lemma scale_cases v :
  1 <= v <= 10 ->
  v = 1 \/ v = 2 \/ v = 3 \/ v = 4 \/ v = 5 \/
  v = 6 \/ v = 7 \/ v = 8 \/ v = 9 \/ v = 10.
Proof. lia. Qed.

Lemma range_of_integer x v :
  x == inject_Z v -> 1 <= v <= 10 -> range_of x = bucket ((v - 1) / 2).
Proof.
  intros Hx Hv. rewrite (range_of_comp _ _ Hx).
  destruct (scale_cases v Hv) as [H|[H|[H|[H|[H|[H|[H|[H|[H|H]]]]]]]]];
    subst v; reflexivity.
Qed.

Lemma in_bucket_integer k x v :
  x == inject_Z v ->
  in_bucket k x = true <-> 2 * k + 1 <= v <= 2 * k + 2.
Proof.
  intros Hx. unfold in_bucket.
  rewrite andb_true_iff, !Qle_bool_iff, Hx, <- !Zle_Qle. reflexivity.
Qed.

Lemma bucket_injective k k' :
  0 <= k <= 4 -> 0 <= k' <= 4 -> bucket k = bucket k' -> k = k'.
Proof.
  intros Hk Hk' H.
  assert (Ck : k = 0 \/ k = 1 \/ k = 2 \/ k = 3 \/ k = 4) by lia.
  assert (Ck' : k' = 0 \/ k' = 1 \/ k' = 2 \/ k' = 3 \/ k' = 4) by lia.
  destruct Ck as [-> | [-> | [-> | [-> | ->]]]];
    destruct Ck' as [-> | [-> | [-> | [-> | ->]]]];
    try reflexivity; vm_compute in H; discriminate H.
Qed.

Lemma bucket_label k : 0 <= k <= 4 -> In (bucket k) bucket_labels.
Proof.
  intros Hk.
  assert (Ck : k = 0 \/ k = 1 \/ k = 2 \/ k = 3 \/ k = 4) by lia.
  destruct Ck as [-> | [-> | [-> | [-> | ->]]]]; vm_compute; tauto.
Qed.

Lemma half_spec v k : (v - 1) / 2 = k <-> 2 * k + 1 <= v <= 2 * k + 2.
Proof.
  pose proof (Z_div_mod_eq_full (v - 1) 2) as Hd.
  pose proof (Z.mod_pos_bound (v - 1) 2 ltac:(lia)) as Hm.
  lia.
Qed.

(** For an integer value of the scale, the label computed by the code is
    the label of bucket [k] exactly when the value lies in bucket [k]. *)
Lemma range_of_in_bucket k x :
  0 <= k <= 4 -> integer_in_scale x ->
  (if jsstring_eq_dec (range_of x) (bucket k) then true else false)
  = in_bucket k x.
Proof.
  intros Hk (v & Hx & Hv).
  rewrite (range_of_integer x v Hx Hv).
  destruct (jsstring_eq_dec (bucket ((v - 1) / 2)) (bucket k)) as [E | E].
  - apply bucket_injective in E;
      [|pose proof (half_spec v ((v - 1) / 2)); lia | lia].
    symmetry. apply (in_bucket_integer k x v Hx). apply half_spec. assumption.
  - destruct (in_bucket k x) eqn:Hb; [|reflexivity].
    apply (in_bucket_integer k x v Hx) in Hb.
    exfalso. apply E. f_equal. apply half_spec. assumption.
Qed.

Lemma occurrences_bucket m k scores :
  0 <= k <= 4 -> Forall integer_scores scores ->
  occurrences (map (fun s => range_of (metric_value m s)) scores) (bucket k)
  = Z.of_nat
      (length (filter (fun s => in_bucket k (metric_value m s)) scores)).
Proof.
  intros Hk H. unfold occurrences. f_equal.
  induction H as [|s rest Hs _ IH]; [reflexivity|].
  cbn [map count_occ filter].
  pose proof (range_of_in_bucket k (metric_value m s) Hk (Hs m)) as E.
  destruct (jsstring_eq_dec (range_of (metric_value m s)) (bucket k));
    rewrite <- E; simpl; rewrite IH; reflexivity.
Qed.

Lemma one_bucket x :
  integer_in_scale x ->
  exists k, 0 <= k <= 4 /\ in_bucket k x = true /\
            forall k', in_bucket k' x = true -> k' = k.
Proof.
  intros (v & Hx & Hv). exists ((v - 1) / 2).
  pose proof (half_spec v ((v - 1) / 2)) as Hh.
  split; [lia|]. split.
  - apply (in_bucket_integer _ x v Hx). lia.
  - intros k' Hk'. apply (in_bucket_integer _ x v Hx) in Hk'.
    symmetry. apply half_spec. assumption.
Qed.

Lemma buckets_cover m scores :
  Forall integer_scores scores ->
  fold_right Z.add 0
    (map (fun k =>
            Z.of_nat
              (length
                 (filter (fun s => in_bucket k (metric_value m s)) scores)))
       [0; 1; 2; 3; 4])
  = Z.of_nat (length scores).
Proof.
  induction 1 as [|s rest Hs _ IH]; [reflexivity|].
  cbn [map fold_right filter] in *.
  destruct (one_bucket _ (Hs m)) as (k & Hk & Hin & Huniq).
  assert (Hb : forall k', in_bucket k' (metric_value m s)
                          = if k' =? k then true else false).
  { intros k'. destruct (k' =? k) eqn:E.
    - apply Z.eqb_eq in E. subst. assumption.
    - apply Z.eqb_neq in E.
      destruct (in_bucket k' (metric_value m s)) eqn:Hk'; [|reflexivity].
      apply Huniq in Hk'. contradiction. }
  rewrite !Hb.
  assert (Ck : k = 0 \/ k = 1 \/ k = 2 \/ k = 3 \/ k = 4) by lia.
  destruct Ck as [-> | [-> | [-> | [-> | ->]]]];
    cbn [Z.eqb Pos.eqb length]; lia.
Qed.

(** C7. For every collection whose scores are integers of [1,10], each
    dimension value [v] is counted in exactly one of the five buckets
    "1-2", "3-4", "5-6", "7-8", "9-10", the bucket "{2k+1}-{2k+2}" with
    [k = floor((v-1)/2)]: the histogram that the aggregator returns for
    each dimension has no other key, holds numbers only, each bucket counts
    the values lying in it, and the five counts add up to the number of
    items.  For the empty collection the result is all-zero averages,
    empty histograms, no tags and an empty category distribution. *)
Theorem histogram_buckets_partition_scale
  native_source engine_order scores :
  Forall integer_scores scores ->
  map bucket [0; 1; 2; 3; 4] = bucket_labels /\
  (forall v, 1 <= v <= 10 ->
     exists k,
       0 <= k <= 4 /\ k = (v - 1) / 2 /\
       range_of (inject_Z v) = bucket k /\
       2 * k + 1 <= v <= 2 * k + 2 /\
       forall k', 2 * k' + 1 <= v <= 2 * k' + 2 -> k' = k) /\
  (forall m,
     (forall k, 0 <= k <= 4 ->
        count_of
          (histogram
             (ScoringStats.distributions
                (calculateScoringStats native_source engine_order scores))
             m)
          (bucket k)
        = Z.of_nat
            (length
               (filter (fun s => in_bucket k (metric_value m s)) scores))) /\
     (forall key x,
        own
          (histogram
             (ScoringStats.distributions
                (calculateScoringStats native_source engine_order scores))
             m)
          key = Some x ->
        In key bucket_labels /\ exists n, x = Count n /\ 1 <= n) /\
     fold_right Z.add 0
       (map
          (fun k =>
             count_of
               (histogram
                  (ScoringStats.distributions
                     (calculateScoringStats native_source engine_order
                        scores))
                  m)
               (bucket k))
          [0; 1; 2; 3; 4])
     = Z.of_nat (length scores)) /\
  calculateScoringStats native_source engine_order []
  = {| ScoringStats.averages :=
         Averages.mk (Finite 0) (Finite 0) (Finite 0) (Finite 0);
       ScoringStats.distributions := Distributions.mk [] [] [] [];
       ScoringStats.topTags := [];
       ScoringStats.categoryDistribution := [] |}.
Proof.
  intros H. split; [reflexivity|]. split; [|split; [|reflexivity]].
  - intros v Hv. exists ((v - 1) / 2).
    pose proof (half_spec v ((v - 1) / 2)) as Hh.
    split; [lia|]. split; [reflexivity|]. split.
    + apply range_of_integer; [reflexivity | assumption].
    + split; [lia|]. intros k' Hk'. symmetry. apply half_spec. assumption.
  - intros m. rewrite stats_distributions, distributions_of_counted.
    assert (Hcount : forall k, 0 <= k <= 4 ->
      count_of
        (counted (map (fun s => range_of (metric_value m s)) scores))
        (bucket k)
      = Z.of_nat
          (length
             (filter (fun s => in_bucket k (metric_value m s)) scores))).
    { intros k Hk. rewrite count_of_counted.
      apply occurrences_bucket; assumption. }
    split; [assumption|]. split.
    + intros key x Hkey. rewrite own_counted in Hkey.
      destruct (in_dec jsstring_eq_dec key
                  (map (fun s => range_of (metric_value m s)) scores))
        as [Hin | Hout]; [|discriminate Hkey].
      inversion Hkey; subst x. split.
      * apply in_map_iff in Hin. destruct Hin as (s & <- & Hs).
        rewrite Forall_forall in H. destruct (H s Hs m) as (v & Hx & Hv).
        rewrite (range_of_integer _ v Hx Hv). apply bucket_label.
        pose proof (half_spec v ((v - 1) / 2)). lia.
      * eexists. split; [reflexivity|].
        pose proof (occurrences_present _ _ Hin). lia.
    + rewrite <- (buckets_cover m scores H). cbn [map].
      rewrite !Hcount by lia. reflexivity.
Qed.

(** ** The batch orchestrator *)

Lemma window_lt n w : (w < window_count n <-> 5 * w < n)%nat.
Proof.
  unfold window_count.
  pose proof (Nat.div_mod_eq (n + 4) 5) as Hd.
  pose proof (Nat.mod_upper_bound (n + 4) 5 ltac:(lia)) as Hm.
  lia.
Qed.

Section OrchestratorFacts.

Variable evaluate : nat -> BatchItem.t -> outcome PromptScore.t.

(** The callback makes the call and nothing else; its promise fulfils with
    the result of its item. *)
Lemma settle_spec k prompt trace :
  Promise.made_for (fst (settle evaluate k prompt trace)) = k /\
  snd (settle evaluate k prompt trace) = trace ++ [Evaluate k] /\
  exists r,
    Promise.settles_to (fst (settle evaluate k prompt trace)) = Returned r /\
    result_of (evaluate k prompt) prompt r.
Proof.
  unfold settle, call_evaluatePrompt. cbn [fst snd Promise.made_for].
  split; [reflexivity|]. split; [reflexivity|].
  cbn [Promise.settles_to].
  destruct (evaluate k prompt) as [score | e]; simpl; eexists;
    (split; [reflexivity|]); split; try reflexivity; simpl.
  - split; reflexivity.
  - split; [repeat split|]. split; [reflexivity|].
    destruct e; reflexivity.
Qed.

Lemma settled_from_app k ps1 rs1 ps2 rs2 :
  settled_from evaluate k ps1 rs1 ->
  settled_from evaluate (k + length ps1) ps2 rs2 ->
  settled_from evaluate k (ps1 ++ ps2) (rs1 ++ rs2).
Proof.
  induction 1 as [k | k p ps r rs Hr Hrest IH]; simpl; intros H2.
  - rewrite Nat.add_0_r in H2. assumption.
  - constructor; [assumption|]. apply IH.
    rewrite Nat.add_succ_l, <- Nat.add_succ_r. assumption.
Qed.

Lemma settled_from_length k ps rs :
  settled_from evaluate k ps rs -> length rs = length ps.
Proof.
  induction 1; simpl; congruence.
Qed.

Lemma settled_from_nth k ps rs :
  settled_from evaluate k ps rs ->
  forall j prompt,
    nth_error ps j = Some prompt ->
    exists r,
      nth_error rs j = Some r /\
      result_of (evaluate (k + j) prompt) prompt r.
Proof.
  induction 1 as [k | k p ps r rs Hr Hrest IH]; intros j prompt Hj.
  - destruct j; discriminate.
  - destruct j as [|j]; simpl in Hj.
    + inversion Hj; subst. exists r. rewrite Nat.add_0_r. auto.
    + destruct (IH j prompt Hj) as (r' & Hn & Hs).
      exists r'. split; [assumption|].
      rewrite <- Nat.add_succ_comm. assumption.
Qed.

(** A window: the calls are made in item order, one for each item; the
    promises are those of the items of the window, and they all fulfil,
    with the results in item order. *)
Lemma map_async_settles batch : forall k trace,
  exists rs,
    Promise_all
      (map Promise.settles_to (fst (map_async evaluate k batch trace)))
    = Returned rs /\
    settled_from evaluate k batch rs /\
    map Promise.made_for (fst (map_async evaluate k batch trace))
    = seq k (length batch) /\
    snd (map_async evaluate k batch trace)
    = trace ++ map Evaluate (seq k (length batch)).
Proof.
  induction batch as [|p rest IH]; intros k trace; cbn [map_async].
  - exists []. simpl. rewrite app_nil_r. repeat split. constructor.
  - cbv zeta. cbn [fst snd map length seq].
    destruct (settle_spec k p trace) as (Hfor & Htrace & r & Hr & Hres).
    rewrite Htrace.
    destruct (IH (S k) (trace ++ [Evaluate k])) as (rs & Hall & Hset & Hm & Htr).
    exists (r :: rs). cbn [Promise_all]. rewrite Hr, Hall, Hfor, Hm, Htr.
    split; [reflexivity|]. split; [constructor; assumption|].
    split; [reflexivity|]. rewrite <- app_assoc. reflexivity.
Qed.

Lemma loop_from_window prompts r : forall w results trace,
  (w + r = window_count (length prompts))%nat ->
  exists rs,
    batch_loop evaluate prompts (5 * w) results trace
    = (Returned (results ++ rs),
       trace ++ flat_map (window_events (length prompts)) (seq w r)) /\
    settled_from evaluate (5 * w) (skipn (5 * w) prompts) rs.
Proof.
  set (n := length prompts).
  induction r as [|r IH]; intros w results trace Hw;
    rewrite batch_loop_equation_1; fold n.
  - destruct (lt_dec (5 * w) n) as [Hlt | Hge].
    + pose proof (proj2 (window_lt n w) Hlt). lia.
    + simpl. exists []. rewrite !app_nil_r. split; [reflexivity|].
      rewrite skipn_all2 by (unfold n in Hge; lia). constructor.
  - destruct (lt_dec (5 * w) n) as [Hlt | Hge].
    2:{ exfalso. apply Hge. apply window_lt. lia. }
    cbn [batch_loop_unfold_clause_1]. cbv zeta.
    set (batch := slice prompts (5 * w) (5 * w + batchSize)).
    assert (Hbatch : batch = firstn 5 (skipn (5 * w) prompts)).
    { unfold batch, slice, batchSize. f_equal. lia. }
    assert (Hlen : length batch = window_size n w).
    { rewrite Hbatch, length_firstn, length_skipn. reflexivity. }
    destruct (map_async_settles batch (5 * w) trace)
      as (rs1 & Hall & Hset & Hfor & Htr).
    unfold await_all, sleep. cbn [fst snd].
    rewrite Hall, Hfor, Htr, Hlen.
    destruct (IH (S w) (results ++ rs1)
                (if (5 * w + batchSize <? n)%nat
                 then ((trace ++ map Evaluate (seq (5 * w) (window_size n w)))
                         ++ [AwaitAll (seq (5 * w) (window_size n w))])
                        ++ [Sleep 1000]
                 else (trace ++ map Evaluate (seq (5 * w) (window_size n w)))
                        ++ [AwaitAll (seq (5 * w) (window_size n w))]))
      as (rs2 & Hloop & Hset2); [lia|].
    replace (5 * w + batchSize)%nat with (5 * S w)%nat
      by (unfold batchSize; lia).
    replace (5 * w + batchSize)%nat with (5 * S w)%nat in Hloop
      by (unfold batchSize; lia).
    exists (rs1 ++ rs2). split.
    + fold n. rewrite Hloop. rewrite <- app_assoc. f_equal.
      cbn [seq flat_map]. unfold window_events at 2. fold n.
      assert (Hsleep : (5 * S w <? n)%nat = (S w <? window_count n)%nat).
      { destruct (5 * S w <? n)%nat eqn:E1;
          destruct (S w <? window_count n)%nat eqn:E2; try reflexivity.
        - apply Nat.ltb_lt in E1. apply Nat.ltb_ge in E2.
          apply (proj2 (window_lt n (S w))) in E1. lia.
        - apply Nat.ltb_ge in E1. apply Nat.ltb_lt in E2.
          apply (proj1 (window_lt n (S w))) in E2. lia. }
      rewrite Hsleep.
      destruct (S w <? window_count n)%nat;
        rewrite <- ?app_assoc; reflexivity.
    + rewrite <- (firstn_skipn 5 (skipn (5 * w) prompts)).
      rewrite <- Hbatch. apply settled_from_app; [assumption|].
      rewrite skipn_skipn.
      assert (Hcase : (length batch = 5 \/ n <= 5 * S w)%nat).
      { rewrite Hlen. unfold window_size. lia. }
      destruct Hcase as [H5 | Hend].
      * rewrite H5. replace (5 + 5 * w)%nat with (5 * S w)%nat by lia.
        replace (5 * w + 5)%nat with (5 * S w)%nat by lia. assumption.
      * replace (5 + 5 * w)%nat with (5 * S w)%nat by lia.
        rewrite skipn_all2 in Hset2 |- * by (fold n; lia).
        inversion Hset2; subst. constructor.
Qed.

(** The whole batch: it returns, with one settled result per item in
    input order, after the events of the schedule. *)
Lemma batch_settles prompts :
  exists results,
    batchEvaluatePrompts evaluate prompts
    = (Returned results, schedule (length prompts)) /\
    settled_from evaluate 0 prompts results.
Proof.
  destruct (loop_from_window prompts (window_count (length prompts)) 0 [] [])
    as (rs & Hloop & Hset); [lia|].
  exists rs. split; assumption.
Qed.

End OrchestratorFacts.

Lemma settled_ids evaluate k prompts results :
  settled_from evaluate k prompts results ->
  map BatchResult.id results = map BatchItem.id prompts.
Proof.
  induction 1 as [k | k p ps r rs Hr Hrest IH]; simpl; [reflexivity|].
  f_equal; [|assumption]. apply Hr.
Qed.

(** C2. For every input sequence, [batchEvaluatePrompts] returns as many
    results as there are items, in input order, the k-th result carrying
    the id of the k-th item; for the empty sequence it returns the empty
    sequence and calls nothing. *)
Theorem batchEvaluatePrompts_one_result_per_item evaluate prompts :
  (exists results trace,
     batchEvaluatePrompts evaluate prompts = (Returned results, trace) /\
     length results = length prompts /\
     map BatchResult.id results = map BatchItem.id prompts) /\
  batchEvaluatePrompts evaluate [] = (Returned [], []).
Proof.
  split; [|reflexivity].
  destruct (batch_settles evaluate prompts) as (results & Hrun & Hset).
  exists results, (schedule (length prompts)).
  split; [assumption|]. split.
  - eapply settled_from_length. eassumption.
  - eapply settled_ids. eassumption.
Qed.

(** C3. Whatever the evaluations of the items do, the batch completes with
    one result per item; the result of an item whose evaluation throws
    carries the item's id, the fallback score with all four scores 1 and
    tags [error], and the captured error message in its error field; the
    result of an item whose evaluation returns carries that score and no
    error field, whatever happened to the other items. *)
Theorem batchEvaluatePrompts_isolates_failures evaluate prompts k prompt :
  nth_error prompts k = Some prompt ->
  exists results trace r,
    batchEvaluatePrompts evaluate prompts = (Returned results, trace) /\
    length results = length prompts /\
    nth_error results k = Some r /\
    BatchResult.id r = BatchItem.id prompt /\
    match evaluate k prompt with
    | Returned score =>
        BatchResult.score r = score /\ BatchResult.error r = None
    | Threw e =>
        pessimistic (BatchResult.score r) /\
        BatchResult.error r = Some (captured_message e)
    end.
Proof.
  intros Hk.
  destruct (batch_settles evaluate prompts) as (results & Hrun & Hset).
  destruct (settled_from_nth evaluate _ _ _ Hset k prompt Hk)
    as (r & Hr & Hs).
  exists results, (schedule (length prompts)), r.
  split; [assumption|].
  split; [eapply settled_from_length; eassumption|].
  split; [assumption|].
  destruct Hs as [Hid Hcase].
  split; [assumption|].
  simpl in Hcase. destruct (evaluate k prompt); tauto.
Qed.

Lemma settled_from_In evaluate k prompts results r :
  settled_from evaluate k prompts results -> In r results ->
  exists j prompt, result_of (evaluate j prompt) prompt r.
Proof.
  induction 1 as [k | k p ps r0 rs Hr Hrest IH]; simpl; [contradiction|].
  intros [<- | Hin]; [exists k, p; assumption | auto].
Qed.

(** C10. A result of the batch whose error field is set has a score without
    estimatedTokens, whereas the default score that [evaluatePrompt] itself
    returns on a failure always has one. *)
Theorem failed_item_has_no_token_estimate evaluate prompts results trace r :
  batchEvaluatePrompts evaluate prompts = (Returned results, trace) ->
  In r results ->
  BatchResult.error r <> None ->
  PromptScore.estimatedTokens (BatchResult.score r) = None /\
  forall JSON_parse ZodError_message String_of reply content title
         description,
    evaluation_failure JSON_parse scoringSchema reply ->
    exists s tokens,
      evaluatePrompt JSON_parse ZodError_message String_of reply content
        title description = Returned s /\
      PromptScore.estimatedTokens s = Some tokens.
Proof.
  intros Hrun Hin Herr. split.
  - destruct (batch_settles evaluate prompts) as (results' & Hrun' & Hset).
    rewrite Hrun in Hrun'. inversion Hrun'; subst results'.
    destruct (settled_from_In _ _ _ _ _ Hset Hin) as (j & p & Hs).
    destruct Hs as [_ Hcase].
    destruct (evaluate j p).
    + destruct Hcase as [_ Hnone]. congruence.
    + tauto.
  - intros JSON_parse ZodError_message String_of reply content title
      description Hfail.
    rewrite (evaluate_failure _ _ _ _ content title description Hfail).
    eexists. eexists. split; reflexivity.
Qed.

(** *** Windows *)

Lemma window_indices n r : forall w,
  (w + r = window_count n)%nat ->
  flat_map (fun w => seq (5 * w) (window_size n w)) (seq w r)
  = seq (5 * w) (n - 5 * w).
Proof.
  induction r as [|r IH]; intros w Hw; cbn [seq flat_map].
  - assert (H : ~ (w < window_count n)%nat) by lia.
    rewrite window_lt in H. replace (n - 5 * w)%nat with 0%nat by lia.
    reflexivity.
  - rewrite IH by lia.
    assert (H : (w < window_count n)%nat) by lia.
    rewrite window_lt in H. unfold window_size.
    destruct (Nat.le_gt_cases 5 (n - 5 * w)) as [Hfull | Hlast].
    + rewrite Nat.min_l by assumption.
      replace (5 * S w)%nat with (5 * w + 5)%nat by lia.
      rewrite <- seq_app. f_equal. lia.
    + rewrite Nat.min_r by lia.
      replace (n - 5 * S w)%nat with 0%nat by lia.
      cbn [seq]. rewrite app_nil_r. reflexivity.
Qed.

Lemma filter_sleep_evaluate l : filter is_sleep (map Evaluate l) = [].
Proof.
  induction l; simpl; auto.
Qed.

Lemma sleeps_from n r : forall w,
  (w + r = window_count n)%nat ->
  length (filter is_sleep (flat_map (window_events n) (seq w r))) = pred r.
Proof.
  induction r as [|r IH]; intros w Hw; [reflexivity|].
  cbn [seq flat_map]. unfold window_events at 1.
  rewrite !filter_app, filter_sleep_evaluate, !length_app, IH by lia.
  destruct (S w <? window_count n)%nat eqn:E; simpl.
  - apply Nat.ltb_lt in E. lia.
  - apply Nat.ltb_ge in E. lia.
Qed.

(** C6. The events of a batch, each recorded by the call, the await or the
    timer that it names, are those of the schedule: the items are taken in
    contiguous windows of 5, the last one possibly smaller; in each window
    the call of every item is made, then the promises of exactly these
    items are awaited together; a pause of 1000 ms follows every window
    but the last.  The batch returns after these events with the results
    of the items, each by the outcome of the call made for it.  For 12
    items: windows of 5, 5 and 2 with two pauses. *)
Theorem batchEvaluatePrompts_windows evaluate prompts :
  (exists results,
     batchEvaluatePrompts evaluate prompts
     = (Returned results, schedule (length prompts)) /\
     settled_from evaluate 0 prompts results) /\
  (forall w, (w < window_count (length prompts))%nat ->
     (1 <= window_size (length prompts) w <= 5)%nat /\
     ((S w < window_count (length prompts))%nat ->
      window_size (length prompts) w = 5%nat)) /\
  flat_map (fun w => seq (5 * w) (window_size (length prompts) w))
    (seq 0 (window_count (length prompts)))
  = seq 0 (length prompts) /\
  length (filter is_sleep (schedule (length prompts)))
  = pred (window_count (length prompts)) /\
  schedule 12
  = [ Evaluate 0; Evaluate 1; Evaluate 2; Evaluate 3; Evaluate 4;
      AwaitAll [0; 1; 2; 3; 4]%nat; Sleep 1000;
      Evaluate 5; Evaluate 6; Evaluate 7; Evaluate 8; Evaluate 9;
      AwaitAll [5; 6; 7; 8; 9]%nat; Sleep 1000;
      Evaluate 10; Evaluate 11; AwaitAll [10; 11]%nat ].
Proof.
  split; [|split; [|split; [|split]]].
  - apply batch_settles.
  - intros w Hw. pose proof (proj1 (window_lt _ _) Hw) as Hlt.
    unfold window_size. split; [lia|].
    intros Hnext. apply window_lt in Hnext. lia.
  - rewrite window_indices by lia.
    rewrite Nat.mul_0_r, Nat.sub_0_r. reflexivity.
  - apply sleeps_from. lia.
  - reflexivity.
Qed.

(** Over the evaluation client of this file, which always returns, no
    result of a batch has its error field set. *)
Lemma batch_with_service_reports_no_error
  JSON_parse ZodError_message String_of service prompts :
  exists results,
    batchEvaluatePrompts_with_service JSON_parse ZodError_message String_of
      service prompts
    = (Returned results, schedule (length prompts)) /\
    Forall (fun r => BatchResult.error r = None) results.
Proof.
  unfold batchEvaluatePrompts_with_service.
  set (evaluate := fun (k : nat) (prompt : BatchItem.t) =>
         evaluatePrompt JSON_parse ZodError_message String_of (service k)
           (BatchItem.content prompt) (BatchItem.title prompt)
           (BatchItem.description prompt)).
  destruct (batch_settles evaluate prompts) as (results & Hrun & Hset).
  exists results. split; [assumption|].
  rewrite Forall_forall. intros r Hin.
  destruct (settled_from_In _ _ _ _ _ Hset Hin) as (j & p & Hs).
  destruct Hs as [_ Hcase].
  destruct (reply_cases JSON_parse scoringSchema (service j))
    as [Hfail | (value & s & Hvalid)].
  - unfold evaluate in Hcase at 1.
    rewrite (evaluate_failure _ _ _ _ _ _ _ Hfail) in Hcase.
    simpl in Hcase. tauto.
  - unfold evaluate in Hcase at 1.
    rewrite (evaluate_valid _ _ _ _ _ _ _ _ _ Hvalid) in Hcase. tauto.
Qed.

(** ** Closed instances *)

Lemma evaluatePrompt_total_with_default_witness :
  exists s,
    evaluatePrompt unreadable plain_message plain_text
      (reply_with (js "not json")) (js "hello") None None = Returned s /\
    default_score (js "Evaluation failed - default score assigned")
      (js "hello") s.
Proof.
  destruct (evaluatePrompt_total_with_default unreadable plain_message
              plain_text (reply_with (js "not json")) (js "hello") None None)
    as [_ H].
  destruct H as (s & Hs & Hd & _).
  - eapply body_not_json; [reflexivity | discriminate | reflexivity].
  - exists s. split; assumption.
Defined.

(** C1 as stated fails: the reasoning strings of the default score are
    not the literal with the em dash. *)
Lemma evaluatePrompt_spec_literal_counterexample :
  evaluation_failure unreadable scoringSchema (Rejects JsOther) /\
  exists s,
    evaluatePrompt unreadable plain_message plain_text
      (Rejects JsOther) [] None None = Returned s /\
    ~ default_score spec_evaluation_failed [] s.
Proof.
  split; [constructor|].
  eexists. split; [reflexivity|].
  intros (_ & _ & _ & _ & Hr & _). vm_compute in Hr. discriminate Hr.
Qed.


(** C5 at the failing input: a response with clarity 7.5 passes the
    validator and is returned; its clarity lies in [1,10] and is not an
    integer. *)
Theorem scoringSchema_accepts_fractional_score :
  scoringSchema (Some fractional_response) = Some fractional_score /\
  evaluatePrompt (reads fractional_text fractional_response) plain_message
    plain_text (reply_with fractional_text) (js "Write a poem") None None
  = Returned fractional_score /\
  within 1 10 (PromptScore.clarity fractional_score) /\
  ~ is_integer (PromptScore.clarity fractional_score).
Proof.
  split; [reflexivity|]. split; [reflexivity|]. split.
  - split; discriminate.
  - intros [z Hz]. unfold Qeq in Hz. simpl in Hz. lia.
Qed.

Lemma generateAutoTags_total_with_default_witness :
  exists r,
    generateAutoTags unreadable plain_message
      (reply_with (js "not json")) (js "hello") None None = Returned r /\
    default_tags (js "Auto-tagging failed - default tags assigned") r.
Proof.
  destruct (generateAutoTags_total_with_default unreadable plain_message
              (reply_with (js "not json")) (js "hello") None None)
    as [_ H].
  apply H.
  eapply body_not_json; [reflexivity | discriminate | reflexivity].
Defined.

(** C9 as stated fails: the reasoning string of the default tags is not
    the literal with the em dash and the final full stop. *)
Lemma generateAutoTags_spec_literal_counterexample :
  evaluation_failure unreadable autoTagSchema (Rejects JsOther) /\
  exists r,
    generateAutoTags unreadable plain_message
      (Rejects JsOther) [] None None = Returned r /\
    ~ default_tags spec_tagging_failed r.
Proof.
  split; [constructor|].
  eexists. split; [reflexivity|].
  intros (_ & _ & Hr). vm_compute in Hr. discriminate Hr.
Qed.

Lemma scenario_scores_integer : Forall integer_scores scenario_scores.
Proof.
  repeat constructor; intros m; destruct m;
    (exists 2; split; [reflexivity | lia]) ||
    (exists 7; split; [reflexivity | lia]).
Qed.

Lemma histogram_buckets_partition_scale_witness :
  count_of
    (histogram
       (ScoringStats.distributions
          (calculateScoringStats native_code as_given scenario_scores))
       overall)
    (js "1-2") = 1 /\
  count_of
    (histogram
       (ScoringStats.distributions
          (calculateScoringStats native_code as_given scenario_scores))
       overall)
    (js "7-8") = 2 /\
  forall key x,
    own
      (histogram
         (ScoringStats.distributions
            (calculateScoringStats native_code as_given scenario_scores))
         overall)
      key = Some x ->
    In key bucket_labels.
Proof.
  destruct (histogram_buckets_partition_scale native_code as_given
              scenario_scores scenario_scores_integer)
    as (_ & _ & Hm & _).
  destruct (Hm overall) as (Hcount & Hkeys & _).
  split; [apply (Hcount 0); lia|].
  split; [apply (Hcount 3); lia|].
  intros key x Hx. apply (Hkeys key x Hx).
Defined.

Lemma topTags_sorted_in_enumeration_order_witness :
  top_by_enumeration scenario_scores
    (ScoringStats.topTags
       (calculateScoringStats native_code as_given scenario_scores)) /\
  top_by_first_seen scenario_scores
    (ScoringStats.topTags
       (calculateScoringStats native_code as_given scenario_scores)).
Proof.
  destruct (topTags_sorted_in_enumeration_order native_code as_given
              scenario_scores)
    as (Henum & _ & _ & Hfirst).
  - repeat constructor.
  - split; [exact Henum|]. apply Hfirst. repeat constructor.
Defined.

(** C8 as stated fails: with the tags "ai" then "2024", both met once, the
    code lists "2024" before "ai". *)
Lemma topTags_first_seen_counterexample :
  (forall native_source engine_order,
     ScoringStats.topTags
       (calculateScoringStats native_source engine_order year_tagged)
     = [TagCount.mk (js "2024") (Count 1); TagCount.mk (js "ai") (Count 1)])
  /\
  ~ top_by_first_seen year_tagged
      [TagCount.mk (js "2024") (Count 1); TagCount.mk (js "ai") (Count 1)].
Proof.
  split; [intros native_source engine_order; reflexivity|].
  intros (sorted & Hs & Htop).
  pose proof (stable_descending_unique _ _ _ Hs
                (Array_sort_stable_descending _)) as E.
  subst sorted. vm_compute in Htop. discriminate Htop.
Qed.

(** A tag that names a member of [Object.prototype] is counted as text:
    the aggregator returns, its histograms hold numbers, and the order of
    the tags is the implementation's. *)
Example inherited_tag_is_counted_as_text :
  forall native_source engine_order,
    ScoringStats.topTags
      (calculateScoringStats native_source engine_order
         [scored 5 [js "ai"; js "constructor"; js "constructor"]])
    = firstn 20
        (engine_order
           [ TagCount.mk (js "ai") (Count 1);
             TagCount.mk (js "constructor")
               (Source
                  ((native_source (js "constructor") ++ js "1") ++ js "1")) ])
    /\
    histogram
      (ScoringStats.distributions
         (calculateScoringStats native_source engine_order
            [scored 5 [js "ai"; js "constructor"; js "constructor"]]))
      clarity
    = [(js "5-6", Count 1)].
Proof.
  intros native_source engine_order. split; reflexivity.
Qed.

Lemma batchEvaluatePrompts_isolates_failures_witness :
  exists results trace r,
    batchEvaluatePrompts second_throws three_items
    = (Returned results, trace) /\
    length results = 3%nat /\
    nth_error results 1 = Some r /\
    pessimistic (BatchResult.score r) /\
    BatchResult.error r = Some (js "rate limit exceeded").
Proof.
  destruct (batchEvaluatePrompts_isolates_failures second_throws three_items
              1 (item "p2" "Sort a list") eq_refl)
    as (results & trace & r & Hrun & Hlen & Hr & _ & Hp & He).
  exists results, trace, r. repeat split; try assumption; apply Hp.
Defined.

Lemma failed_item_has_no_token_estimate_witness :
  exists r,
    In r three_results /\
    BatchResult.error r = Some (js "rate limit exceeded") /\
    PromptScore.estimatedTokens (BatchResult.score r) = None.
Proof.
  destruct (nth_error three_results 1) as [r|] eqn:Hr; [|discriminate Hr].
  exists r.
  assert (Hin : In r three_results) by (eapply nth_error_In; eassumption).
  assert (He : BatchResult.error r = Some (js "rate limit exceeded"))
    by (vm_compute in Hr; inversion Hr; reflexivity).
  split; [assumption|]. split; [assumption|].
  apply (failed_item_has_no_token_estimate second_throws three_items
           three_results (schedule 3) r).
  - reflexivity.
  - assumption.
  - rewrite He. discriminate.
Defined.

Lemma batchEvaluatePrompts_windows_witness :
  snd (batchEvaluatePrompts second_throws twelve_items) = schedule 12 /\
  map (window_size 12) (seq 0 (window_count 12)) = [5; 5; 2]%nat /\
  window_size 12 0 = 5%nat /\
  length (filter is_sleep (schedule 12)) = 2%nat.
Proof.
  destruct (batchEvaluatePrompts_windows second_throws twelve_items)
    as (Htrace & Hsizes & _ & Hsleeps & _).
  split; [destruct Htrace as (results & Hrun & _); rewrite Hrun; reflexivity|].
  split; [reflexivity|]. split.
  - apply (Hsizes 0%nat); vm_compute; lia.
  - exact Hsleeps.
Defined.

(** ** More on the validator and the evaluation client *)

Lemma z_range_ok lo hi x :
  within lo hi x -> z_max hi (z_min lo z_number) (Some (JNum x)) = Some x.
Proof.
  intros [Hlo Hhi]. unfold z_max, z_min, z_number. simpl.
  rewrite (proj2 (Qle_bool_iff lo x) Hlo). simpl.
  rewrite (proj2 (Qle_bool_iff x hi) Hhi). reflexivity.
Qed.

Lemma parse_items_strings_ok l : parse_items z_string (map JStr l) = Some l.
Proof.
  induction l as [|s l IH]; simpl; [reflexivity|]. rewrite IH. reflexivity.
Qed.

Lemma z_tags_ok bound l :
  (length l <= bound)%nat ->
  z_array_max bound (z_array z_string) (Some (JArr (map JStr l))) = Some l.
Proof.
  intros H. unfold z_array_max, z_array. rewrite parse_items_strings_ok.
  simpl. rewrite (proj2 (Nat.leb_le _ _) H). reflexivity.
Qed.

Lemma z_category_ok c :
  z_enum Category_literal Category_values (Some (JStr (Category_literal c)))
  = Some c.
Proof. destruct c; reflexivity. Qed.

Lemma z_complexity_ok c :
  z_enum Complexity_literal Complexity_values
    (Some (JStr (Complexity_literal c)))
  = Some c.
Proof. destruct c; reflexivity. Qed.

Lemma z_optional_number_ok x :
  z_optional z_number (option_map JNum x) = Some x.
Proof. destruct x; reflexivity. Qed.

(** X1. The validator accepts a JSON value as the score [s] exactly when the
    value is an object that holds, under the schema's keys, the data of
    [s]: four numbers of [1,10], a reasoning object of four strings, an
    array of at most ten strings, an enumerated category and complexity,
    and estimatedTokens absent or a number.  One violation rejects the
    whole value. *)
Theorem scoringSchema_accepts_exactly value s :
  scoringSchema (Some value) = Some s <-> same_data value s /\ in_range s.
Proof.
  split; [apply scoringSchema_inv|].
  intros [(o & r & -> & Hc & Hs & Hu & Ho & Hr & Hrc & Hrs & Hru & Hro
           & Ht & Hcat & Hcx & He)
          (Rc & Rs & Ru & Ro & Rt & _ & _)].
  unfold scoringSchema.
  rewrite Hc, Hs, Hu, Ho, Hr, Ht, Hcat, Hcx, He.
  rewrite !z_range_ok by assumption. cbn [bind_opt].
  unfold reasoningSchema. rewrite Hrc, Hrs, Hru, Hro. cbn [z_string bind_opt].
  rewrite z_tags_ok by assumption. cbn [bind_opt].
  rewrite z_category_ok, z_complexity_ok, z_optional_number_ok.
  cbn [bind_opt]. destruct s as [? ? ? ? [] ? ? ? ?]; reflexivity.
Qed.

Lemma autoTagSchema_inv value r :
  autoTagSchema (Some value) = Some r ->
  same_tag_data value r /\
  within 0 1 (AutoTagResult.confidence r) /\
  (length (AutoTagResult.tags r) <= 10)%nat.
Proof.
  destruct value; try discriminate.
  unfold autoTagSchema. intros H.
  do 3 bind_inv H. inversion H; subst; clear H.
  apply z_tags_inv in Ha. apply z_range_inv in Ha0. apply z_string_inv in Ha1.
  split; [exists fields; simpl; intuition | simpl; intuition].
Qed.

Section EvaluatorMore.

Variable JSON_parse : jsstring -> outcome json.
Variable ZodError_message : json -> jsstring.
Variable String_of : thrown -> jsstring.

(** X2. Whatever the service replies, [evaluatePrompt] returns a score that
    is either the validated response or the default score, and in both
    cases the four scores lie in [1,10], there are at most ten tags and
    category and complexity are enumerated values. *)
Theorem evaluatePrompt_always_in_range reply promptContent title description :
  exists s,
    evaluatePrompt JSON_parse ZodError_message String_of reply promptContent
      title description = Returned s /\
    in_range s /\
    ((exists value, valid_response JSON_parse scoringSchema reply value s) \/
     (evaluation_failure JSON_parse scoringSchema reply /\
      default_score (js "Evaluation failed - default score assigned")
        promptContent s)).
Proof.
  destruct (reply_cases JSON_parse scoringSchema reply)
    as [Hfail | (value & s & Hvalid)].
  - destruct (evaluate_rejected_default JSON_parse ZodError_message String_of
                promptContent title description) as (s & Hs & Hd).
    exists s. rewrite (evaluate_failure _ _ _ _ _ _ _ Hfail).
    split; [assumption|]. split; [|right; split; assumption].
    destruct Hd as (Hc & Hst & Hu & Ho & _ & Ht & Hcat & Hcx & _).
    unfold in_range, within. rewrite Hc, Hst, Hu, Ho, Ht, Hcat, Hcx.
    repeat split; try discriminate; simpl; auto 10.
  - exists s. split; [eapply evaluate_valid; eassumption|].
    split; [|left; exists value; assumption].
    destruct Hvalid as [c text _ _ _ _ Hs].
    apply scoringSchema_inv in Hs. tauto.
Qed.

(** X3. When the response content parses as a JSON object that the tag
    schema accepts, [generateAutoTags] returns the validated result: its
    tags, confidence and reasoning are those of the response object, the
    confidence lies in [0,1] and there are at most ten tags. *)
Theorem generateAutoTags_returns_validated
  reply value r promptContent title description :
  valid_response JSON_parse autoTagSchema reply value r ->
  generateAutoTags JSON_parse ZodError_message reply promptContent title
    description = Returned r /\
  same_tag_data value r /\
  within 0 1 (AutoTagResult.confidence r) /\
  (length (AutoTagResult.tags r) <= 10)%nat.
Proof.
  intros [c text -> Hc Hne Hp Hs]. split.
  - unfold generateAutoTags. cbn [await_create and_then].
    rewrite Hc. destruct text; [congruence|]. simpl. rewrite Hp. simpl.
    unfold parse. rewrite Hs. reflexivity.
  - apply autoTagSchema_inv. assumption.
Qed.

End EvaluatorMore.

(** ** More on the statistics aggregator *)

Lemma occurrences_filter {A} (f : A -> jsstring) (test : A -> bool) key l :
  (forall a, In a l ->
     (if jsstring_eq_dec (f a) key then true else false) = test a) ->
  occurrences (map f l) key = Z.of_nat (length (filter test l)).
Proof.
  intros H. unfold occurrences. f_equal.
  induction l as [|a l IH]; [reflexivity|].
  cbn [map count_occ filter].
  pose proof (H a (or_introl eq_refl)) as E.
  rewrite IH by (intros b Hb; apply H; right; assumption).
  destruct (jsstring_eq_dec (f a) key); rewrite <- E; reflexivity.
Qed.

Lemma one_of_five_sum {A} (tests : Z -> A -> bool) l :
  (forall a, In a l ->
     exists k, 0 <= k <= 4 /\ tests k a = true /\
               forall k', tests k' a = true -> k' = k) ->
  fold_right Z.add 0
    (map (fun k => Z.of_nat (length (filter (tests k) l))) [0; 1; 2; 3; 4])
  = Z.of_nat (length l).
Proof.
  induction l as [|a l IH]; intros H; [reflexivity|].
  specialize (IH (fun b Hb => H b (or_intror Hb))).
  destruct (H a (or_introl eq_refl)) as (k & Hk & Hin & Huniq).
  assert (Hb : forall k', tests k' a = if k' =? k then true else false).
  { intros k'. destruct (k' =? k) eqn:E.
    - apply Z.eqb_eq in E. subst. assumption.
    - apply Z.eqb_neq in E. destruct (tests k' a) eqn:Hk'; [|reflexivity].
      apply Huniq in Hk'. contradiction. }
  cbn [map fold_right filter] in *. rewrite !Hb.
  assert (Ck : k = 0 \/ k = 1 \/ k = 2 \/ k = 3 \/ k = 4) by lia.
  destruct Ck as [-> | [-> | [-> | [-> | ->]]]];
    cbn [Z.eqb Pos.eqb length]; lia.
Qed.

Lemma range_of_floor x : range_of x = bucket (Qfloor ((x - 1) / 2)).
Proof.
  unfold range_of, bucket, Math_floor.
  rewrite (Z.mul_comm (Qfloor ((x - 1) / 2)) 2). reflexivity.
Qed.

Lemma Qfloor_unique (y : Q) k :
  (inject_Z k <= y)%Q -> (y < inject_Z (k + 1))%Q -> Qfloor y = k.
Proof.
  intros Hle Hlt.
  pose proof (Qfloor_le y) as H1. pose proof (Qlt_floor y) as H2.
  assert (Ha : (inject_Z k < inject_Z (Qfloor y + 1))%Q)
    by (eapply Qle_lt_trans; eassumption).
  assert (Hb : (inject_Z (Qfloor y) < inject_Z (k + 1))%Q)
    by (eapply Qle_lt_trans; eassumption).
  rewrite <- Zlt_Qlt in Ha, Hb. lia.
Qed.

Lemma half_mul (x : Q) : ((x - 1) / 2 == (x - 1) * (1 # 2))%Q.
Proof. field. Qed.

Lemma wide_bucket_spec k (x : Q) :
  in_wide_bucket k x = true <-> Qfloor ((x - 1) / 2) = k.
Proof.
  unfold in_wide_bucket. rewrite andb_true_iff, negb_true_iff, Qle_bool_iff.
  rewrite <- not_true_iff_false, Qle_bool_iff.
  assert (E1 : (inject_Z (2 * k + 1) == 2 * inject_Z k + 1)%Q)
    by (rewrite inject_Z_plus, inject_Z_mult; reflexivity).
  assert (E3 : (inject_Z (2 * k + 3) == 2 * inject_Z k + 3)%Q)
    by (rewrite inject_Z_plus, inject_Z_mult; reflexivity).
  assert (Es : (inject_Z (k + 1) == inject_Z k + 1)%Q)
    by (rewrite inject_Z_plus; reflexivity).
  split.
  - intros [Hlo Hhi]. apply Qnot_le_lt in Hhi. rewrite E1 in Hlo.
    rewrite E3 in Hhi.
    apply Qfloor_unique; [|rewrite Es]; rewrite half_mul; lra.
  - intros <-.
    pose proof (Qfloor_le ((x - 1) / 2)) as H1.
    pose proof (Qlt_floor ((x - 1) / 2)) as H2.
    rewrite Es in H2. clear Es. rewrite E1, E3.
    set (q := inject_Z (Qfloor ((x - 1) / 2))) in *.
    rewrite half_mul in H1, H2. split; [lra|]. apply Qlt_not_le. lra.
Qed.

Lemma scale_floor (x : Q) :
  within 1 10 x -> 0 <= Qfloor ((x - 1) / 2) <= 4.
Proof.
  intros [Hlo Hhi].
  pose proof (Qfloor_le ((x - 1) / 2)) as H1.
  pose proof (Qlt_floor ((x - 1) / 2)) as H2.
  rewrite inject_Z_plus in H2. change (inject_Z 1) with 1%Q in H2.
  assert (Ha : (inject_Z (-1) < inject_Z (Qfloor ((x - 1) / 2)))%Q).
  { change (inject_Z (-1)) with (-1)%Q.
    set (q := inject_Z (Qfloor ((x - 1) / 2))) in *.
    rewrite half_mul in H2. lra. }
  assert (Hb : (inject_Z (Qfloor ((x - 1) / 2)) < inject_Z 5)%Q).
  { change (inject_Z 5) with 5%Q.
    set (q := inject_Z (Qfloor ((x - 1) / 2))) in *.
    rewrite half_mul in H1. lra. }
  rewrite <- Zlt_Qlt in Ha, Hb. lia.
Qed.

Lemma range_of_wide_bucket k x :
  0 <= k <= 4 -> within 1 10 x ->
  (if jsstring_eq_dec (range_of x) (bucket k) then true else false)
  = in_wide_bucket k x.
Proof.
  intros Hk Hx. rewrite range_of_floor.
  destruct (jsstring_eq_dec (bucket (Qfloor ((x - 1) / 2))) (bucket k))
    as [E | E].
  - apply bucket_injective in E; [|apply scale_floor; assumption | assumption].
    symmetry. apply wide_bucket_spec. assumption.
  - destruct (in_wide_bucket k x) eqn:Hb; [|reflexivity].
    apply wide_bucket_spec in Hb. exfalso. apply E. f_equal. assumption.
Qed.

(** X4. For every collection whose scores lie in [1,10], whole or not, each
    histogram that the aggregator returns has only the five labels as
    keys, the bucket "{2k+1}-{2k+2}" counts the values from [2k+1] up to
    but not including [2k+3] (so 2.5 is counted under "1-2"), and the five
    counts add up to the number of items. *)
Theorem histogram_of_fractional_scores native_source engine_order scores :
  Forall scores_in_scale scores ->
  forall m,
    (forall k, 0 <= k <= 4 ->
       count_of
         (histogram
            (ScoringStats.distributions
               (calculateScoringStats native_source engine_order scores))
            m)
         (bucket k)
       = Z.of_nat
           (length
              (filter (fun s => in_wide_bucket k (metric_value m s))
                 scores))) /\
    (forall key,
       own
         (histogram
            (ScoringStats.distributions
               (calculateScoringStats native_source engine_order scores))
            m)
         key <> None ->
       In key bucket_labels) /\
    fold_right Z.add 0
      (map
         (fun k =>
            count_of
              (histogram
                 (ScoringStats.distributions
                    (calculateScoringStats native_source engine_order
                       scores))
                 m)
              (bucket k))
         [0; 1; 2; 3; 4])
    = Z.of_nat (length scores).
Proof.
  intros H m. rewrite Forall_forall in H.
  rewrite stats_distributions, distributions_of_counted.
  assert (Hcount : forall k, 0 <= k <= 4 ->
    count_of (counted (map (fun s => range_of (metric_value m s)) scores))
      (bucket k)
    = Z.of_nat
        (length
           (filter (fun s => in_wide_bucket k (metric_value m s)) scores))).
  { intros k Hk. rewrite count_of_counted. apply occurrences_filter.
    intros s Hs. apply range_of_wide_bucket; [assumption | apply H; assumption]. }
  split; [assumption|]. split.
  - intros key Hkey. apply own_counted_In in Hkey.
    apply in_map_iff in Hkey. destruct Hkey as (s & <- & Hs).
    rewrite range_of_floor. apply bucket_label. apply scale_floor.
    apply H. assumption.
  - cbn [map]. rewrite !Hcount by lia.
    apply (one_of_five_sum
             (fun k s => in_wide_bucket k (metric_value m s)) scores).
    intros s Hs. exists (Qfloor ((metric_value m s - 1) / 2)).
    split; [apply scale_floor; apply H; assumption|].
    split; [apply wide_bucket_spec; reflexivity|].
    intros k' Hk'. apply wide_bucket_spec in Hk'. congruence.
Qed.

Lemma Category_literal_plain c : inherited (Category_literal c) = false.
Proof. destruct c; reflexivity. Qed.

Lemma has_category_literal c score :
  (if jsstring_eq_dec (Category_literal (PromptScore.category score))
        (Category_literal c)
   then true else false)
  = has_category c score.
Proof.
  unfold has_category.
  destruct (PromptScore.category score); destruct c;
    match goal with
    | |- (if ?d then _ else _) = _ => destruct d as [E | E]
    end;
    try reflexivity;
    try (vm_compute in E; discriminate E);
    exfalso; apply E; reflexivity.
Qed.

Lemma categoryDistribution_counted native_source scores :
  categoryDistribution_of native_source scores
  = counted
      (map (fun s => Category_literal (PromptScore.category s)) scores).
Proof.
  unfold categoryDistribution_of.
  change (@nil (jsstring * held)) with (counted []).
  rewrite (tally_each_counted native_source
             (fun s => Category_literal (PromptScore.category s)) scores [])
    by (intros s _; apply Category_literal_plain).
  reflexivity.
Qed.

(** X5. The category distribution that the aggregator returns counts, for
    each category, the items of that category; it has a key only for a
    category that some item has, with a number for it, and its counts add
    up to the number of items. *)
Theorem categoryDistribution_counts_items native_source engine_order scores :
  (forall c,
     count_of
       (ScoringStats.categoryDistribution
          (calculateScoringStats native_source engine_order scores))
       (Category_literal c)
     = Z.of_nat (length (filter (has_category c) scores))) /\
  (forall key x,
     own
       (ScoringStats.categoryDistribution
          (calculateScoringStats native_source engine_order scores))
       key = Some x ->
     exists c s n,
       key = Category_literal c /\ In s scores /\
       PromptScore.category s = c /\ x = Count n /\ 1 <= n) /\
  fold_right Z.add 0
    (map
       (fun c =>
          count_of
            (ScoringStats.categoryDistribution
               (calculateScoringStats native_source engine_order scores))
            (Category_literal c))
       Category_values)
  = Z.of_nat (length scores).
Proof.
  rewrite stats_categoryDistribution, categoryDistribution_counted.
  assert (Hcount : forall c,
    count_of
      (counted
         (map (fun s => Category_literal (PromptScore.category s)) scores))
      (Category_literal c)
    = Z.of_nat (length (filter (has_category c) scores))).
  { intros c. rewrite count_of_counted. apply occurrences_filter.
    intros s _. apply has_category_literal. }
  split; [assumption|]. split.
  - intros key x Hkey. rewrite own_counted in Hkey.
    destruct (in_dec jsstring_eq_dec key
                (map (fun s => Category_literal (PromptScore.category s))
                   scores)) as [Hin | Hout]; [|discriminate Hkey].
    inversion Hkey; subst x.
    pose proof (occurrences_present _ _ Hin) as Hpos.
    apply in_map_iff in Hin. destruct Hin as (s & <- & Hs).
    exists (PromptScore.category s), s. eexists.
    repeat split; try assumption; try reflexivity. lia.
  - cbn [Category_values map]. rewrite !Hcount. clear Hcount.
    induction scores as [|s rest IH]; [reflexivity|].
    cbn [filter fold_right] in *.
    remember (has_category creative s) as b1 eqn:E1.
    remember (has_category technical s) as b2 eqn:E2.
    remember (has_category business s) as b3 eqn:E3.
    remember (has_category educational s) as b4 eqn:E4.
    remember (has_category other s) as b5 eqn:E5.
    unfold has_category in E1, E2, E3, E4, E5.
    destruct (PromptScore.category s); subst; cbn [length]; lia.
Qed.

(** ** Rounding to doubles *)

Lemma round_half_even_between (a b : Z) (y : Q) :
  (inject_Z a <= y)%Q -> (y <= inject_Z b)%Q ->
  a <= round_half_even y <= b.
Proof.
  intros Ha Hb. unfold round_half_even.
  pose proof (Qfloor_le y) as H1. pose proof (Qlt_floor y) as H2.
  assert (Haf : a <= Qfloor y).
  { assert (H : (inject_Z a < inject_Z (Qfloor y + 1))%Q)
      by (eapply Qle_lt_trans; eassumption).
    rewrite <- Zlt_Qlt in H. lia. }
  assert (Hfb : Qfloor y <= b).
  { assert (H : (inject_Z (Qfloor y) <= inject_Z b)%Q)
      by (eapply Qle_trans; eassumption).
    rewrite <- Zle_Qle in H. lia. }
  assert (Hup : (inject_Z (Qfloor y) < y)%Q -> Qfloor y + 1 <= b).
  { intros H.
    assert (H' : (inject_Z (Qfloor y) < inject_Z b)%Q)
      by (eapply Qlt_le_trans; eassumption).
    rewrite <- Zlt_Qlt in H'. lia. }
  destruct (Qcompare (y - inject_Z (Qfloor y)) (1 # 2)) eqn:E.
  - apply Qeq_alt in E.
    assert (Hlt : (inject_Z (Qfloor y) < y)%Q) by lra.
    specialize (Hup Hlt). destruct (Z.even (Qfloor y)); lia.
  - lia.
  - apply Qgt_alt in E.
    assert (Hlt : (inject_Z (Qfloor y) < y)%Q) by lra.
    specialize (Hup Hlt). lia.
Qed.

Lemma two_power_pos e : (0 < 2 ^ e)%Q.
Proof. apply Qpower_0_lt. reflexivity. Qed.

Lemma two_power_Z k : 0 <= k -> (inject_Z (2 ^ k) == 2 ^ k)%Q.
Proof. intros H. apply (Zpower_Qpower 2 k H). Qed.

Lemma two_power_succ e : (2 ^ (e + 1) == 2 * 2 ^ e)%Q.
Proof.
  rewrite Qpower_plus by (intros H; discriminate H).
  rewrite Qpower_1_r. ring.
Qed.

Lemma binade_spec (x : Q) :
  (0 < x)%Q -> (2 ^ binade x <= x)%Q /\ (x < 2 ^ (binade x + 1))%Q.
Proof.
  intros Hx. unfold binade.
  destruct x as [a b]. cbn [Qnum Qden].
  assert (Ha : 0 < a).
  { unfold Qlt in Hx. cbn in Hx. lia. }
  pose proof (Z.log2_spec a Ha) as [Ha1 Ha2].
  pose proof (Z.log2_spec (Zpos b) (Pos2Z.is_pos b)) as [Hb1 Hb2].
  pose proof (Z.log2_nonneg a) as Hla.
  pose proof (Z.log2_nonneg (Zpos b)) as Hlb.
  set (la := Z.log2 a) in *. set (lb := Z.log2 (Zpos b)) in *.
  assert (HA1 : (2 ^ la <= inject_Z a)%Q)
    by (rewrite <- two_power_Z by lia; rewrite <- Zle_Qle; exact Ha1).
  assert (HA2 : (inject_Z a < 2 * 2 ^ la)%Q).
  { rewrite <- two_power_succ, <- two_power_Z by lia.
    rewrite <- Zlt_Qlt. exact Ha2. }
  assert (HB1 : (2 ^ lb <= inject_Z (Zpos b))%Q)
    by (rewrite <- two_power_Z by lia; rewrite <- Zle_Qle; exact Hb1).
  assert (HB2 : (inject_Z (Zpos b) < 2 * 2 ^ lb)%Q).
  { rewrite <- two_power_succ, <- two_power_Z by lia.
    rewrite <- Zlt_Qlt. exact Hb2. }
  assert (Hx' : (a # b == inject_Z a / inject_Z (Zpos b))%Q)
    by apply Qmake_Qdiv.
  pose proof (two_power_pos la) as Pla. pose proof (two_power_pos lb) as Plb.
  assert (HE : (2 ^ (la - lb) == 2 ^ la / 2 ^ lb)%Q)
    by (apply Qpower_minus; intros H; discriminate H).
  assert (HB0 : (0 < inject_Z (Zpos b))%Q) by lra.
  assert (Hhi : (a # b < 2 * 2 ^ (la - lb))%Q).
  { rewrite Hx', HE. apply Qlt_shift_div_r; [exact HB0|].
    setoid_replace (2 * (2 ^ la / 2 ^ lb) * inject_Z (Z.pos b))%Q
      with ((2 * 2 ^ la) * (inject_Z (Zpos b) / 2 ^ lb))%Q
      by (field; intros H; rewrite H in Plb; discriminate Plb).
    assert (H1 : (1 <= inject_Z (Zpos b) / 2 ^ lb)%Q)
      by (apply Qle_shift_div_l; [exact Plb | lra]).
    nra. }
  assert (Hlo : (2 ^ (la - lb) <= 2 * (a # b))%Q).
  { rewrite Hx', HE. apply Qle_shift_div_r; [exact Plb|].
    setoid_replace (2 * (inject_Z a / inject_Z (Z.pos b)) * 2 ^ lb)%Q
      with (inject_Z a * ((2 * 2 ^ lb) / inject_Z (Zpos b)))%Q
      by (field; intros H; rewrite H in HB0; discriminate HB0).
    assert (H1 : (1 <= (2 * 2 ^ lb) / inject_Z (Zpos b))%Q)
      by (apply Qle_shift_div_l; [exact HB0 | lra]).
    nra. }
  destruct (Qle_bool (2 ^ (la - lb)) (a # b)) eqn:E.
  - apply Qle_bool_iff in E. split; [exact E|].
    rewrite two_power_succ. exact Hhi.
  - assert (Hlt : (a # b < 2 ^ (la - lb))%Q).
    { apply Qnot_le_lt. intros H. apply Qle_bool_iff in H. congruence. }
    replace (la - lb - 1 + 1) with (la - lb) by lia.
    split; [|exact Hlt].
    assert (Hs : (2 ^ (la - lb) == 2 * 2 ^ (la - lb - 1))%Q).
    { rewrite <- two_power_succ. replace (la - lb - 1 + 1) with (la - lb) by lia.
      reflexivity. }
    rewrite Hs in Hlo. lra.
Qed.

(** A number between two whole numbers from 1 up to 2^53 is rounded to a
    double between them. *)
Lemma round_nearest_between (a b : Z) (x : Q) :
  1 <= a -> b < 2 ^ 53 ->
  (inject_Z a <= x)%Q -> (x <= inject_Z b)%Q ->
  (inject_Z a <= round_nearest x)%Q /\ (round_nearest x <= inject_Z b)%Q.
Proof.
  intros Ha Hb Hax Hxb.
  assert (H1 : (1 <= x)%Q).
  { eapply Qle_trans; [|exact Hax]. change 1%Q with (inject_Z 1).
    rewrite <- Zle_Qle. exact Ha. }
  assert (Hpos : (0 < x)%Q) by lra.
  unfold round_nearest.
  assert (Hc : Qcompare x 0 = Gt) by (apply Qgt_alt; exact Hpos).
  rewrite Hc. unfold round_positive.
  destruct (binade_spec x Hpos) as [Hlo Hhi].
  set (e := binade x) in *.
  assert (He0 : 0 <= e).
  { assert (H : (2 ^ 0 < 2 ^ (e + 1))%Q).
    { change (2 ^ 0)%Q with 1%Q. lra. }
    apply (Qpower_lt_compat_l_inv 2 0 (e + 1)) in H; [lia | reflexivity]. }
  assert (He52 : e <= 52).
  { assert (H : (2 ^ e < 2 ^ 53)%Q).
    { eapply Qle_lt_trans; [exact Hlo|].
      eapply Qle_lt_trans; [exact Hxb|].
      rewrite <- (two_power_Z 53) by lia. rewrite <- Zlt_Qlt. exact Hb. }
    apply (Qpower_lt_compat_l_inv 2 e 53) in H; [lia | reflexivity]. }
  rewrite Z.max_l by lia.
  set (k := 52 - e).
  assert (Hk : 0 <= k) by (unfold k; lia).
  assert (Hu : (2 ^ (e - 52) == / inject_Z (2 ^ k))%Q).
  { replace (e - 52) with (- k) by (unfold k; lia).
    rewrite Qpower_opp, two_power_Z by exact Hk. reflexivity. }
  assert (HK : (0 < inject_Z (2 ^ k))%Q).
  { rewrite two_power_Z by exact Hk. apply two_power_pos. }
  set (K := inject_Z (2 ^ k)) in *.
  assert (Hy : (x / 2 ^ (e - 52) == x * K)%Q).
  { rewrite Hu. field. intros H. rewrite H in HK. discriminate HK. }
  destruct (round_half_even_between (a * 2 ^ k) (b * 2 ^ k)
              (x / 2 ^ (e - 52))) as [Hm1 Hm2].
  - rewrite Hy, inject_Z_mult. fold K. nra.
  - rewrite Hy, inject_Z_mult. fold K. nra.
  - set (m := round_half_even (x / 2 ^ (e - 52))) in *.
    rewrite Zle_Qle, inject_Z_mult in Hm1. rewrite Zle_Qle, inject_Z_mult in Hm2.
    fold K in Hm1, Hm2.
    rewrite Hu. split.
    + apply Qle_shift_div_l with (c := K) in Hm1; [|exact HK].
      unfold Qdiv in Hm1. exact Hm1.
    + apply Qle_shift_div_r with (b := K) in Hm2; [|exact HK].
      unfold Qdiv in Hm2. exact Hm2.
Qed.

(** A whole number below 2^53 is a double. *)
Lemma round_nearest_whole (z : Z) (x : Q) :
  0 <= z < 2 ^ 53 -> (x == inject_Z z)%Q -> (round_nearest x == inject_Z z)%Q.
Proof.
  intros Hz Hx. destruct (Z.eq_dec z 0) as [-> | Hnz].
  - unfold round_nearest.
    assert (Hc : Qcompare x 0 = Eq) by (apply Qeq_alt; exact Hx).
    rewrite Hc. reflexivity.
  - destruct (round_nearest_between z z x) as [H1 H2];
      try lia; try (rewrite Hx; apply Qle_refl).
    apply Qle_antisym; assumption.
Qed.

(** Below 2^53 the nearest double is finite. *)
Lemma round_double_finite (b : Z) (x : Q) :
  b < 2 ^ 53 ->
  (0 <= round_nearest x)%Q -> (round_nearest x <= inject_Z b)%Q ->
  round_double x = Finite (round_nearest x).
Proof.
  intros Hb H0 Hr. unfold round_double.
  assert (Hbig : (inject_Z b < 2 ^ 1024)%Q).
  { rewrite <- (two_power_Z 1024) by lia. rewrite <- Zlt_Qlt.
    eapply Z.lt_trans; [exact Hb|]. reflexivity. }
  pose proof (two_power_pos 1024) as Hpos.
  destruct (Qle_bool (2 ^ 1024) (round_nearest x)) eqn:E1.
  - apply Qle_bool_iff in E1. lra.
  - destruct (Qle_bool (round_nearest x) (- 2 ^ 1024)) eqn:E2.
    + apply Qle_bool_iff in E2. lra.
    + reflexivity.
Qed.

Lemma round_double_between (a b : Z) (x : Q) :
  1 <= a -> b < 2 ^ 53 ->
  (inject_Z a <= x)%Q -> (x <= inject_Z b)%Q ->
  exists r,
    round_double x = Finite r /\
    (inject_Z a <= r)%Q /\ (r <= inject_Z b)%Q.
Proof.
  intros Ha Hb Hax Hxb.
  destruct (round_nearest_between a b x Ha Hb Hax Hxb) as [H1 H2].
  exists (round_nearest x). split; [|split; assumption].
  apply (round_double_finite b); try assumption.
  eapply Qle_trans; [|exact H1]. change 0%Q with (inject_Z 0).
  rewrite <- Zle_Qle. lia.
Qed.

Lemma round_double_whole (z : Z) (x : Q) :
  0 <= z < 2 ^ 53 -> (x == inject_Z z)%Q ->
  exists r, round_double x = Finite r /\ (r == inject_Z z)%Q.
Proof.
  intros Hz Hx. pose proof (round_nearest_whole z x Hz Hx) as Hr.
  exists (round_nearest x). split; [|exact Hr].
  apply (round_double_finite z); [lia | |].
  - rewrite Hr. change 0%Q with (inject_Z 0). rewrite <- Zle_Qle. lia.
  - rewrite Hr. apply Qle_refl.
Qed.

(** *** Sums and averages of doubles *)

Lemma sum_between m scores : forall (a b : Z) (acc : Q),
  Forall scores_in_scale scores ->
  0 <= a -> b + 10 * Z.of_nat (length scores) < 2 ^ 53 ->
  (inject_Z a <= acc)%Q -> (acc <= inject_Z b)%Q ->
  exists t,
    fold_left (fun sum s => Number_add sum (metric_value m s)) scores
      (Finite acc)
    = Finite t /\
    (inject_Z (a + Z.of_nat (length scores)) <= t)%Q /\
    (t <= inject_Z (b + 10 * Z.of_nat (length scores)))%Q.
Proof.
  induction scores as [|s rest IH]; intros a b acc H Ha Hb Hlo Hhi.
  - cbn [fold_left length Z.of_nat]. rewrite Z.add_0_r, Z.mul_0_r, Z.add_0_r.
    exists acc. split; [reflexivity | split; assumption].
  - inversion H as [|? ? Hs Hrest]; subst.
    cbn [fold_left Number_add]. cbn [length] in *.
    rewrite Nat2Z.inj_succ in *.
    destruct (Hs m) as [Hv1 Hv10].
    destruct (round_double_between (a + 1) (b + 10)
                (acc + metric_value m s)) as (r & Er & H1 & H2); try lia.
    + rewrite inject_Z_plus. change (inject_Z 1) with 1%Q. lra.
    + rewrite inject_Z_plus. change (inject_Z 10) with 10%Q. lra.
    + rewrite Er.
      destruct (IH (a + 1) (b + 10) r) as (t & Et & H3 & H4);
        try assumption; try lia.
      exists t. split; [exact Et|].
      replace (a + Z.succ (Z.of_nat (length rest)))
        with (a + 1 + Z.of_nat (length rest)) by lia.
      replace (b + 10 * Z.succ (Z.of_nat (length rest)))
        with (b + 10 + 10 * Z.of_nat (length rest)) by lia.
      split; assumption.
Qed.

Lemma sum_whole m (v : Z) scores : forall (j : Z) (acc : Q),
  (forall s, In s scores -> metric_value m s == inject_Z v) ->
  0 <= j -> 0 <= v -> (j + Z.of_nat (length scores)) * v < 2 ^ 53 ->
  (acc == inject_Z (j * v))%Q ->
  exists t,
    fold_left (fun sum s => Number_add sum (metric_value m s)) scores
      (Finite acc)
    = Finite t /\
    (t == inject_Z ((j + Z.of_nat (length scores)) * v))%Q.
Proof.
  induction scores as [|s rest IH]; intros j acc H Hj Hv Hb Hacc.
  - cbn [fold_left length Z.of_nat]. rewrite Z.add_0_r.
    exists acc. split; [reflexivity | exact Hacc].
  - cbn [fold_left Number_add]. cbn [length] in *.
    rewrite Nat2Z.inj_succ in *.
    replace (j + Z.succ (Z.of_nat (length rest)))
      with (j + 1 + Z.of_nat (length rest)) by lia.
    assert (Hb' : (j + 1 + Z.of_nat (length rest)) * v < 2 ^ 53).
    { replace (j + 1 + Z.of_nat (length rest))
        with (j + Z.succ (Z.of_nat (length rest))) by lia. exact Hb. }
    destruct (round_double_whole ((j + 1) * v) (acc + metric_value m s))
      as (r & Er & Hr).
    + nia.
    + rewrite Hacc, (H s (or_introl eq_refl)).
      rewrite <- inject_Z_plus.
      replace (j * v + v) with ((j + 1) * v) by lia. reflexivity.
    + rewrite Er.
      apply (IH (j + 1) r
               (fun s' Hs' => H s' (or_intror Hs')) ltac:(lia) Hv Hb' Hr).
Qed.

Lemma length_positive {A} (l : list A) :
  l <> [] -> (0 < inject_Z (Z.of_nat (length l)))%Q.
Proof.
  intros H. change 0%Q with (inject_Z 0). rewrite <- Zlt_Qlt.
  destruct l; [congruence | simpl; lia].
Qed.

(** The average of scores of the scale is finite and lies in the scale. *)
Lemma average_between m scores :
  scores <> [] -> Z.of_nat (length scores) < 2 ^ 32 ->
  Forall scores_in_scale scores ->
  exists x, average m scores = Finite x /\ within 1 10 x.
Proof.
  intros Hne Hlen H. unfold average.
  destruct (sum_between m scores 0 0 0%Q H) as (t & Et & Hlo & Hhi);
    try lia; try apply Qle_refl.
  rewrite Et. cbn [Number_div].
  pose proof (length_positive scores Hne) as Hn.
  rewrite Z.add_0_l in Hlo, Hhi. rewrite inject_Z_mult in Hhi.
  change (inject_Z 10) with 10%Q in Hhi.
  set (n := inject_Z (Z.of_nat (length scores))) in *.
  destruct (round_double_between 1 10 (t / n)) as (r & Er & H1 & H2);
    try lia.
  - change (inject_Z 1) with 1%Q. apply Qle_shift_div_l; [exact Hn | lra].
  - change (inject_Z 10) with 10%Q. apply Qle_shift_div_r; [exact Hn | lra].
  - exists r. split; [exact Er | split; assumption].
Qed.

(** The average of equal whole scores is that score. *)
Lemma average_whole m (v : Z) scores :
  scores <> [] -> Z.of_nat (length scores) < 2 ^ 32 -> 0 <= v <= 10 ->
  (forall s, In s scores -> metric_value m s == inject_Z v) ->
  exists x, average m scores = Finite x /\ x == inject_Z v.
Proof.
  intros Hne Hlen Hv H. unfold average.
  destruct (sum_whole m v scores 0 0%Q H) as (t & Et & Hsum);
    try lia; [nia | reflexivity |].
  rewrite Z.add_0_l in Hsum. rewrite Et. cbn [Number_div].
  pose proof (length_positive scores Hne) as Hn.
  apply round_double_whole; [lia|].
  rewrite Hsum, inject_Z_mult. field.
  intros E. rewrite E in Hn. discriminate Hn.
Qed.

Lemma stats_averages native_source engine_order scores m :
  scores <> [] ->
  mean
    (ScoringStats.averages
       (calculateScoringStats native_source engine_order scores)) m
  = average m scores.
Proof.
  intros Hne. destruct scores as [|s rest]; [congruence|].
  destruct m; reflexivity.
Qed.

(** X6. For a non-empty collection of fewer than 2^32 items, the length of
    an array of the language, whose scores lie in [1,10], whole or not,
    each average that the aggregator returns, the double nearest to the
    quotient of the sum of doubles by the number of items, is finite and
    lies in [1,10]; and when every item has the same whole value for a
    dimension, the average of that dimension is that value. *)
Theorem averages_stay_in_scale native_source engine_order scores :
  scores <> [] ->
  Z.of_nat (length scores) < 2 ^ 32 ->
  Forall scores_in_scale scores ->
  forall m,
    (exists x,
       mean
         (ScoringStats.averages
            (calculateScoringStats native_source engine_order scores)) m
       = Finite x /\
       within 1 10 x) /\
    forall v : Z,
      (forall s, In s scores -> metric_value m s == inject_Z v) ->
      exists x,
        mean
          (ScoringStats.averages
             (calculateScoringStats native_source engine_order scores)) m
        = Finite x /\
        x == inject_Z v.
Proof.
  intros Hne Hlen H m. rewrite stats_averages by assumption. split.
  - apply average_between; assumption.
  - intros v Hv. apply average_whole; try assumption.
    destruct scores as [|s rest]; [congruence|].
    inversion H as [|? ? Hs _]; subst. destruct (Hs m) as [H1 H10].
    rewrite (Hv s (or_introl eq_refl)) in H1, H10.
    change 1%Q with (inject_Z 1) in H1. change 10%Q with (inject_Z 10) in H10.
    rewrite <- Zle_Qle in H1, H10. lia.
Qed.

(** *** The entries of the top tags *)

Lemma sorted_entries_perm tags :
  Permutation (map (with_occurrences tags) (first_seen tags))
    (Array_sort by_tally_descending
       (map (with_occurrences tags)
          (map fst (Object_entries (counted tags))))).
Proof.
  rewrite <- Array_sort_perm. apply Permutation_map.
  replace (first_seen tags) with (map fst (counted tags))
    by (unfold counted; rewrite map_map; apply map_id).
  apply Permutation_map. apply Object_entries_perm.
Qed.

Lemma listed_tags tags :
  map TagCount.tag (map (with_occurrences tags) (first_seen tags))
  = first_seen tags.
Proof.
  rewrite map_map. apply map_id.
Qed.

Lemma listed_entry tags e :
  In e (map (with_occurrences tags) (first_seen tags)) ->
  In (TagCount.tag e) tags /\
  TagCount.count e = Count (occurrences tags (TagCount.tag e)).
Proof.
  intros H. apply in_map_iff in H.
  destruct H as (t & <- & Ht). simpl. split; [|reflexivity].
  apply first_seen_In. assumption.
Qed.

Lemma In_firstn_In {A} n (l : list A) a : In a (firstn n l) -> In a l.
Proof.
  intros H. rewrite <- (firstn_skipn n l). apply in_or_app. auto.
Qed.

Lemma StronglySorted_app_inv {A} (R : A -> A -> Prop) l1 l2 :
  StronglySorted R (l1 ++ l2) ->
  StronglySorted R l1 /\ forall a b, In a l1 -> In b l2 -> R a b.
Proof.
  induction l1 as [|x l1 IH]; simpl; intros H.
  - split; [constructor | contradiction].
  - inversion H as [|? ? Hs Hx]; subst. destruct (IH Hs) as [H1 H12].
    rewrite Forall_forall in Hx. split.
    + constructor; [assumption|]. rewrite Forall_forall.
      intros b Hb. apply Hx. apply in_or_app. auto.
    + intros a b [<- | Ha] Hb; [apply Hx; apply in_or_app; auto | auto].
Qed.

(** X7. For every collection none of whose tags names a member of
    [Object.prototype], the top tags that the aggregator returns list each
    tag at most once, with the number of its occurrences over all items
    (at least 1), in descending order of count; their number is the number
    of distinct tags, cut at 20; and a tag that is left out occurs no more
    often than any tag that is listed. *)
Theorem topTags_are_the_most_frequent native_source engine_order scores :
  Forall (fun t => inherited t = false) (all_tags scores) ->
  NoDup
    (map TagCount.tag
       (ScoringStats.topTags
          (calculateScoringStats native_source engine_order scores))) /\
  (forall e,
     In e
       (ScoringStats.topTags
          (calculateScoringStats native_source engine_order scores)) ->
     In (TagCount.tag e) (all_tags scores) /\
     TagCount.count e
     = Count (occurrences (all_tags scores) (TagCount.tag e)) /\
     1 <= occurrences (all_tags scores) (TagCount.tag e)) /\
  StronglySorted count_ge
    (ScoringStats.topTags
       (calculateScoringStats native_source engine_order scores)) /\
  length
    (ScoringStats.topTags
       (calculateScoringStats native_source engine_order scores))
  = Nat.min 20 (length (first_seen (all_tags scores))) /\
  (forall t,
     In t (all_tags scores) ->
     ~ In t
         (map TagCount.tag
            (ScoringStats.topTags
               (calculateScoringStats native_source engine_order scores))) ->
     forall e,
       In e
         (ScoringStats.topTags
            (calculateScoringStats native_source engine_order scores)) ->
       occurrences (all_tags scores) t <= tally_of e).
Proof.
  intros Hplain. rewrite stats_topTags, topTags_of_counted by assumption.
  set (tags := all_tags scores).
  set (L := Array_sort by_tally_descending
              (map (with_occurrences tags)
                 (map fst (Object_entries (counted tags))))).
  pose proof (sorted_entries_perm tags) as Hperm. fold L in Hperm.
  pose proof (Array_sort_sorted
                (map (with_occurrences tags)
                   (map fst (Object_entries (counted tags)))))
    as Hsorted. fold L in Hsorted.
  rewrite <- (firstn_skipn 20 L) in Hsorted.
  apply StronglySorted_app_inv in Hsorted. destruct Hsorted as [Htop Hdom].
  assert (Hnd : NoDup (map TagCount.tag L)).
  { eapply Permutation_NoDup; [apply Permutation_map; exact Hperm|].
    rewrite listed_tags. apply first_seen_NoDup. }
  assert (Hin : forall e, In e L ->
                In e (map (with_occurrences tags) (first_seen tags))).
  { intros e He. eapply Permutation_in; [symmetry; exact Hperm | exact He]. }
  split; [|split; [|split; [|split]]].
  - rewrite <- (firstn_skipn 20 L), map_app in Hnd.
    apply NoDup_app_remove_r in Hnd. assumption.
  - intros e He. apply In_firstn_In, Hin, listed_entry in He.
    destruct He as [Ht Hc]. split; [assumption|]. split; [assumption|].
    pose proof (occurrences_present _ _ Ht). lia.
  - assumption.
  - rewrite length_firstn. f_equal.
    rewrite <- (Permutation_length Hperm), length_map. reflexivity.
  - intros t Ht Hout e He.
    assert (Het : In (with_occurrences tags t) L).
    { eapply Permutation_in; [exact Hperm|]. apply in_map.
      apply first_seen_In. assumption. }
    rewrite <- (firstn_skipn 20 L) in Het. apply in_app_or in Het.
    destruct Het as [Het | Het].
    + exfalso. apply Hout. apply in_map_iff.
      eexists. split; [|exact Het]. reflexivity.
    + specialize (Hdom e _ He Het). unfold count_ge in Hdom.
      unfold tally_of at 2 in Hdom. simpl in Hdom. lia.
Qed.

(** ** More on the batch orchestrator *)

Lemma window_events_evaluate n w :
  filter is_evaluate (window_events n w)
  = map Evaluate (seq (5 * w) (window_size n w)).
Proof.
  unfold window_events. rewrite !filter_app.
  assert (E : forall l, filter is_evaluate (map Evaluate l) = map Evaluate l)
    by (induction l; simpl; congruence).
  rewrite E. destruct (S w <? window_count n)%nat; simpl;
    rewrite app_nil_r; reflexivity.
Qed.

Lemma windows_evaluate n r : forall w,
  filter is_evaluate (flat_map (window_events n) (seq w r))
  = map Evaluate
      (flat_map (fun w => seq (5 * w) (window_size n w)) (seq w r)).
Proof.
  induction r as [|r IH]; intros w; cbn [seq flat_map]; [reflexivity|].
  rewrite filter_app, map_app, window_events_evaluate, IH. reflexivity.
Qed.

Lemma schedule_evaluates n :
  filter is_evaluate (schedule n) = map Evaluate (seq 0 n).
Proof.
  unfold schedule. rewrite windows_evaluate.
  rewrite window_indices by lia.
  rewrite Nat.mul_0_r, Nat.sub_0_r. reflexivity.
Qed.

Lemma window_events_await n w :
  length (filter is_await (window_events n w)) = 1%nat.
Proof.
  unfold window_events. rewrite !filter_app.
  assert (E : forall l, filter is_await (map Evaluate l) = [])
    by (induction l; simpl; congruence).
  rewrite E. destruct (S w <? window_count n)%nat; reflexivity.
Qed.

Lemma windows_await n r : forall w,
  length (filter is_await (flat_map (window_events n) (seq w r))) = r.
Proof.
  induction r as [|r IH]; intros w; cbn [seq flat_map]; [reflexivity|].
  rewrite filter_app, length_app, window_events_await, IH. reflexivity.
Qed.

Lemma schedule_awaits n :
  length (filter is_await (schedule n)) = window_count n.
Proof.
  unfold schedule. apply windows_await.
Qed.

Lemma window_events_awaited n w :
  flat_map awaited (window_events n w) = seq (5 * w) (window_size n w).
Proof.
  unfold window_events. rewrite !flat_map_app.
  assert (E : forall l, flat_map awaited (map Evaluate l) = [])
    by (induction l; simpl; congruence).
  rewrite E. destruct (S w <? window_count n)%nat; simpl;
    rewrite !app_nil_r; reflexivity.
Qed.

Lemma windows_awaited n r : forall w,
  flat_map awaited (flat_map (window_events n) (seq w r))
  = flat_map (fun w => seq (5 * w) (window_size n w)) (seq w r).
Proof.
  induction r as [|r IH]; intros w; cbn [seq flat_map]; [reflexivity|].
  rewrite flat_map_app, window_events_awaited, IH. reflexivity.
Qed.

Lemma schedule_awaited n : flat_map awaited (schedule n) = seq 0 n.
Proof.
  unfold schedule. rewrite windows_awaited.
  rewrite window_indices by lia.
  rewrite Nat.mul_0_r, Nat.sub_0_r. reflexivity.
Qed.

Lemma schedule_window n w :
  (w < window_count n)%nat ->
  exists before sleeps after,
    schedule n
    = before
      ++ (map Evaluate (seq (5 * w) (window_size n w))
          ++ [AwaitAll (seq (5 * w) (window_size n w))] ++ sleeps)
      ++ after.
Proof.
  intros Hw. unfold schedule.
  replace (window_count n) with (w + S (window_count n - S w))%nat by lia.
  rewrite seq_app, flat_map_app. cbn [seq flat_map Nat.add].
  eexists. eexists. eexists. unfold window_events at 2. reflexivity.
Qed.

Lemma schedule_awaits_after_call n k :
  (k < n)%nat ->
  exists pre calls post,
    schedule n = pre ++ [AwaitAll calls] ++ post /\
    In (Evaluate k) pre /\ In k calls.
Proof.
  intros Hk.
  assert (Hw : (k / 5 < window_count n)%nat).
  { apply window_lt. pose proof (Nat.div_mod_eq k 5). lia. }
  destruct (schedule_window n (k / 5) Hw) as (before & sleeps & after & E).
  assert (Hin : In k (seq (5 * (k / 5)) (window_size n (k / 5)))).
  { apply in_seq. unfold window_size.
    pose proof (Nat.div_mod_eq k 5) as Hd.
    pose proof (Nat.mod_upper_bound k 5 ltac:(lia)) as Hm. lia. }
  exists (before ++ map Evaluate (seq (5 * (k / 5)) (window_size n (k / 5)))),
    (seq (5 * (k / 5)) (window_size n (k / 5))), (sleeps ++ after).
  split; [|split].
  - rewrite E. rewrite <- !app_assoc. reflexivity.
  - apply in_or_app. right. apply in_map. exact Hin.
  - exact Hin.
Qed.

Lemma schedule_ends_awaiting n :
  (0 < n)%nat ->
  exists pre calls,
    schedule n = pre ++ [AwaitAll calls] /\ (1 <= length calls <= 5)%nat.
Proof.
  intros Hn. unfold schedule.
  assert (HW : (0 < window_count n)%nat) by (apply window_lt; lia).
  destruct (window_count n) as [|W] eqn:EW; [lia|].
  rewrite seq_S, flat_map_app. cbn [flat_map Nat.add].
  rewrite app_nil_r. unfold window_events at 2. rewrite EW.
  rewrite Nat.ltb_irrefl, app_nil_r.
  eexists. exists (seq (5 * W) (window_size n W)). rewrite app_assoc.
  split; [reflexivity|]. rewrite length_seq.
  assert (H : (W < window_count n)%nat) by lia.
  apply window_lt in H. unfold window_size. lia.
Qed.

(** X8. In a batch the call of [evaluatePrompt] is made exactly once for
    every item, in input order, and the promise of every item is awaited
    exactly once, in input order, after its call was made; there are as
    many awaits as windows; a non-empty batch ends with the await of its
    last window; and the results returned are those of the calls made,
    each for its own item. *)
Theorem batchEvaluatePrompts_evaluates_each_item_once evaluate prompts :
  (exists results,
     fst (batchEvaluatePrompts evaluate prompts) = Returned results /\
     settled_from evaluate 0 prompts results) /\
  filter is_evaluate (snd (batchEvaluatePrompts evaluate prompts))
  = map Evaluate (seq 0 (length prompts)) /\
  flat_map awaited (snd (batchEvaluatePrompts evaluate prompts))
  = seq 0 (length prompts) /\
  length (filter is_await (snd (batchEvaluatePrompts evaluate prompts)))
  = window_count (length prompts) /\
  (forall k, (k < length prompts)%nat ->
     exists pre calls post,
       snd (batchEvaluatePrompts evaluate prompts)
       = pre ++ [AwaitAll calls] ++ post /\
       In (Evaluate k) pre /\ In k calls) /\
  (prompts <> [] ->
   exists pre calls,
     snd (batchEvaluatePrompts evaluate prompts) = pre ++ [AwaitAll calls] /\
     (1 <= length calls <= 5)%nat).
Proof.
  destruct (batch_settles evaluate prompts) as (results & Hrun & Hset).
  rewrite Hrun. cbn [fst snd].
  split; [exists results; split; [reflexivity | exact Hset]|].
  split; [apply schedule_evaluates|]. split; [apply schedule_awaited|].
  split; [apply schedule_awaits|].
  split; [intros k Hk; apply schedule_awaits_after_call; exact Hk|].
  intros Hne. apply schedule_ends_awaiting.
  destruct prompts; [congruence | simpl; lia].
Qed.

Section OverTheClient.

Variable JSON_parse : jsstring -> outcome json.
Variable ZodError_message : json -> jsstring.
Variable String_of : thrown -> jsstring.
Variable service : nat -> api_reply.

#[local] Abbreviation client :=
  (fun (k : nat) (prompt : BatchItem.t) =>
     evaluatePrompt JSON_parse ZodError_message String_of (service k)
       (BatchItem.content prompt) (BatchItem.title prompt)
       (BatchItem.description prompt)).

Lemma client_returns k prompt :
  exists s,
    client k prompt = Returned s /\ in_range s /\
    (evaluation_failure JSON_parse scoringSchema (service k) -> neutral s).
Proof.
  destruct (reply_cases JSON_parse scoringSchema (service k))
    as [Hfail | (value & s & Hvalid)].
  - eexists. split; [apply (evaluate_failure _ _ _ _ _ _ _ Hfail)|].
    split.
    + unfold in_range, within. simpl.
      repeat split; try discriminate; auto 10.
    + intros _. split; [intros m; destruct m; reflexivity|].
      split; reflexivity.
  - exists s. split; [eapply evaluate_valid; eassumption|].
    destruct Hvalid as [c text E Hc Hne Hp Hs].
    split; [apply scoringSchema_inv in Hs; tauto|].
    intros Hfail. exfalso. rewrite E in Hfail.
    inversion Hfail as [| c' Hf | c' text' e Hc' _ Hp' | c' text' v Hc' _ Hp' Hs'];
      subst.
    + rewrite Hc in Hf. destruct text; [congruence | discriminate].
    + rewrite Hc in Hc'. inversion Hc'; subst. congruence.
    + rewrite Hc in Hc'. inversion Hc'; subst. rewrite Hp in Hp'.
      inversion Hp'; subst. congruence.
Qed.

(** X9. A batch run over the evaluation client gives each item the score
    that [evaluatePrompt] returns for it on the reply to its own call, with
    the item's id and with no error field; that score has its four scores
    in [1,10]. *)
Theorem batch_over_client_carries_client_scores prompts k prompt :
  nth_error prompts k = Some prompt ->
  exists results trace s,
    batchEvaluatePrompts_with_service JSON_parse ZodError_message String_of
      service prompts = (Returned results, trace) /\
    evaluatePrompt JSON_parse ZodError_message String_of (service k)
      (BatchItem.content prompt) (BatchItem.title prompt)
      (BatchItem.description prompt) = Returned s /\
    nth_error results k
    = Some {| BatchResult.id := BatchItem.id prompt;
              BatchResult.score := s;
              BatchResult.error := None |} /\
    in_range s.
Proof.
  intros Hk. unfold batchEvaluatePrompts_with_service.
  destruct (batch_settles client prompts) as (results & Hrun & Hset).
  destruct (settled_from_nth _ _ _ _ Hset k prompt Hk) as (r & Hr & Hs).
  destruct (client_returns k prompt) as (s & Hcs & Hrange & _).
  exists results, (schedule (length prompts)), s.
  split; [assumption|]. split; [assumption|]. split; [|assumption].
  rewrite Hr. f_equal. destruct Hs as [Hid Hcase].
  cbn beta in Hcase, Hcs. change (0 + k)%nat with k in Hcase.
  rewrite Hcs in Hcase. destruct Hcase as [Hscore Herror].
  destruct r as [i sc er]. cbn in *. subst. reflexivity.
Qed.

End OverTheClient.

(** *** The aggregate of a batch in a total outage *)

Lemma first_seen_repeat key n : first_seen (repeat key (S n)) = [key].
Proof.
  cbn [repeat first_seen]. f_equal.
  apply filter_none. rewrite Forall_forall. intros t Ht.
  apply first_seen_In, repeat_spec in Ht. subst.
  rewrite jsstring_eqb_refl. reflexivity.
Qed.

Lemma counted_repeat key n :
  counted (repeat key (S n)) = [(key, Count (Z.of_nat (S n)))].
Proof.
  unfold counted. rewrite first_seen_repeat. cbn [map]. f_equal. f_equal.
  f_equal. unfold occurrences. f_equal. apply count_occ_repeat_eq.
  reflexivity.
Qed.

Lemma map_constant {A B} (f : A -> B) b l :
  (forall a, In a l -> f a = b) -> map f l = repeat b (length l).
Proof.
  induction l as [|a l IH]; intros H; simpl; [reflexivity|].
  rewrite (H a) by (left; reflexivity). f_equal. apply IH.
  intros a' Ha'. apply H. right. assumption.
Qed.

Lemma all_tags_constant t scores :
  (forall s, In s scores -> PromptScore.suggestedTags s = [t]) ->
  all_tags scores = repeat t (length scores).
Proof.
  unfold all_tags. induction scores as [|s rest IH]; intros H; simpl;
    [reflexivity|].
  rewrite (H s) by (left; reflexivity). simpl. f_equal. apply IH.
  intros s' Hs'. apply H. right. assumption.
Qed.

Lemma neutral_stats native_source engine_order scores :
  scores <> [] -> Forall neutral scores ->
  (Z.of_nat (length scores) < 2 ^ 32 ->
   forall m,
     exists x,
       mean
         (ScoringStats.averages
            (calculateScoringStats native_source engine_order scores)) m
       = Finite x /\
       x == 5) /\
  (forall m,
     histogram
       (ScoringStats.distributions
          (calculateScoringStats native_source engine_order scores)) m
     = [(js "5-6", Count (Z.of_nat (length scores)))]) /\
  ScoringStats.topTags
    (calculateScoringStats native_source engine_order scores)
  = [TagCount.mk (js "untagged") (Count (Z.of_nat (length scores)))] /\
  ScoringStats.categoryDistribution
    (calculateScoringStats native_source engine_order scores)
  = [(js "other", Count (Z.of_nat (length scores)))].
Proof.
  intros Hne H. rewrite Forall_forall in H.
  assert (Htags : all_tags scores = repeat (js "untagged") (length scores))
    by (apply all_tags_constant; intros s Hs; apply H; assumption).
  assert (Hlen : exists n, length scores = S n)
    by (destruct scores; [congruence | eexists; reflexivity]).
  destruct Hlen as (n & Hlen).
  assert (Hplain : Forall (fun t => inherited t = false) (all_tags scores)).
  { rewrite Htags, Forall_forall. intros t Ht. apply repeat_spec in Ht.
    subst. reflexivity. }
  split; [|split; [|split]].
  - intros Hbound m. rewrite stats_averages by assumption.
    change 5%Q with (inject_Z 5).
    apply average_whole; try assumption; try lia.
    intros s Hs. destruct (H s Hs) as (Hv & _). rewrite Hv. reflexivity.
  - intros m. rewrite stats_distributions, distributions_of_counted.
    rewrite (map_constant _ (js "5-6")).
    + rewrite Hlen. apply counted_repeat.
    + intros s Hs. destruct (H s Hs) as (Hv & _). rewrite Hv. reflexivity.
  - rewrite stats_topTags, topTags_of_counted by assumption.
    rewrite Htags, Hlen, counted_repeat.
    assert (Hentries : forall x : held,
              Object_entries [(js "untagged", x)] = [(js "untagged", x)])
      by reflexivity.
    rewrite Hentries. cbn [map fst Array_sort sort_insert firstn].
    unfold with_occurrences, occurrences.
    rewrite count_occ_repeat_eq by reflexivity. reflexivity.
  - rewrite stats_categoryDistribution, categoryDistribution_counted.
    rewrite (map_constant _ (js "other")).
    + rewrite Hlen. apply counted_repeat.
    + intros s Hs. destruct (H s Hs) as (_ & _ & Hcat). rewrite Hcat.
      reflexivity.
Qed.

Lemma settled_scores evaluate (P : PromptScore.t -> Prop) :
  (forall k prompt, exists s, evaluate k prompt = Returned s /\ P s) ->
  forall k prompts results,
    settled_from evaluate k prompts results ->
    Forall P (map BatchResult.score results).
Proof.
  intros H k prompts results Hset.
  induction Hset as [k | k p ps r rs Hr Hrest IH]; simpl; constructor;
    [|assumption].
  destruct (H k p) as (s & Hs & HP). destruct Hr as [_ Hr].
  rewrite Hs in Hr. destruct Hr as [Hscore _]. rewrite Hscore. assumption.
Qed.

(** X10. When every call to the service fails, the statistics over the
    scores of a non-empty batch are the neutral ones: every histogram has
    the single bucket "5-6" with all items, the only top tag is
    "untagged" with all items, the only category is "other" with all
    items, and every average is the finite number 5 for a batch of fewer
    than 2^32 items, the length of an array of the language. *)
Theorem outage_gives_neutral_statistics
  JSON_parse ZodError_message String_of native_source engine_order
  service prompts :
  prompts <> [] ->
  (forall k, evaluation_failure JSON_parse scoringSchema (service k)) ->
  exists results trace,
    batchEvaluatePrompts_with_service JSON_parse ZodError_message String_of
      service prompts = (Returned results, trace) /\
    (Z.of_nat (length prompts) < 2 ^ 32 ->
     forall m,
       exists x,
         mean
           (ScoringStats.averages
              (calculateScoringStats native_source engine_order
                 (map BatchResult.score results))) m
         = Finite x /\
         x == 5) /\
    (forall m,
       histogram
         (ScoringStats.distributions
            (calculateScoringStats native_source engine_order
               (map BatchResult.score results))) m
       = [(js "5-6", Count (Z.of_nat (length prompts)))]) /\
    ScoringStats.topTags
      (calculateScoringStats native_source engine_order
         (map BatchResult.score results))
    = [TagCount.mk (js "untagged") (Count (Z.of_nat (length prompts)))] /\
    ScoringStats.categoryDistribution
      (calculateScoringStats native_source engine_order
         (map BatchResult.score results))
    = [(js "other", Count (Z.of_nat (length prompts)))].
Proof.
  intros Hne Hfail. unfold batchEvaluatePrompts_with_service.
  match goal with
  | |- context [batchEvaluatePrompts ?f prompts] => set (client := f)
  end.
  destruct (batch_settles client prompts) as (results & Hrun & Hset).
  assert (Hlen : length (map BatchResult.score results) = length prompts)
    by (rewrite length_map; eapply settled_from_length; eassumption).
  assert (Hneutral : Forall neutral (map BatchResult.score results)).
  { eapply settled_scores; [|eassumption].
    intros k p.
    destruct (client_returns JSON_parse ZodError_message String_of service
                k p) as (s & Hs & _ & Hn).
    exists s. split; [assumption | apply Hn, Hfail]. }
  exists results, (schedule (length prompts)).
  split; [assumption|]. rewrite <- Hlen.
  apply neutral_stats; [|assumption].
  intros E. rewrite E in Hlen. destruct prompts; [congruence|discriminate].
Qed.

(** ** The matcher agrees with what a pattern denotes *)

Lemma matches_cat_inv r1 r2 s :
  matches (Cat r1 r2) s ->
  exists s1 s2, s = s1 ++ s2 /\ matches r1 s1 /\ matches r2 s2.
Proof.
  intros H. inversion H; subst. eexists. eexists. eauto.
Qed.

Lemma matches_class_inv cls s :
  matches (Class cls) s -> exists c, s = [c] /\ cls c = true.
Proof.
  intros H. inversion H; subst. eexists. eauto.
Qed.

Lemma nullable_matches r : nullable r = true <-> matches r [].
Proof.
  induction r as [| | cls | r1 IH1 r2 IH2 | r IH]; simpl.
  - split; [discriminate | intros H; inversion H].
  - split; [constructor | reflexivity].
  - split; [discriminate | intros H; inversion H].
  - rewrite andb_true_iff, IH1, IH2. split.
    + intros [H1 H2]. apply (m_cat r1 r2 [] []); assumption.
    + intros H. apply matches_cat_inv in H.
      destruct H as (s1 & s2 & E & H1 & H2). symmetry in E.
      apply app_eq_nil in E. destruct E; subst. auto.
  - split; [constructor | reflexivity].
Qed.

Lemma matches_star_cons_inv r c s :
  matches (Star r) (c :: s) ->
  exists s1 s2,
    s = s1 ++ s2 /\ matches r (c :: s1) /\ matches (Star r) s2.
Proof.
  intros H. remember (Star r) as r' eqn:Er. remember (c :: s) as w eqn:Ew.
  revert s Ew. induction H as [| | | | r0 s1 s2 H1 _ H2 IH2];
    intros s Ew; try discriminate.
  inversion Er; subst r0. destruct s1 as [|c1 s1].
  - simpl in Ew. apply IH2; [reflexivity | assumption].
  - simpl in Ew. inversion Ew; subst. exists s1, s2. auto.
Qed.

Lemma derive_matches r : forall c s,
  matches r (c :: s) <-> exists d, In d (derive c r) /\ matches d s.
Proof.
  induction r as [| | cls | r1 IH1 r2 IH2 | r IH]; intros c s; simpl.
  - split; [intros H; inversion H | intros (d & [] & _)].
  - split; [intros H; inversion H | intros (d & [] & _)].
  - split.
    + intros H. apply matches_class_inv in H.
      destruct H as (c' & E & Hc). inversion E; subst. rewrite Hc.
      exists Empty. split; [left; reflexivity | constructor].
    + intros (d & Hd & Hm). destruct (cls c) eqn:E; [|contradiction].
      destruct Hd as [<- | []]. inversion Hm; subst.
      constructor. assumption.
  - split.
    + intros H. apply matches_cat_inv in H.
      destruct H as (s1 & s2 & E & H1 & H2).
      destruct s1 as [|c1 s1]; simpl in E.
      * subst s2. apply IH2 in H2. destruct H2 as (d & Hd & Hm).
        exists d. split; [|assumption]. apply in_or_app. right.
        rewrite (proj2 (nullable_matches r1) H1). assumption.
      * inversion E; subst. apply IH1 in H1. destruct H1 as (d & Hd & Hm).
        exists (Cat d r2). split; [|constructor; assumption].
        apply in_or_app. left.
        apply (in_map (fun d => Cat d r2)). assumption.
    + intros (d & Hd & Hm). apply in_app_or in Hd. destruct Hd as [Hd | Hd].
      * apply in_map_iff in Hd. destruct Hd as (d1 & <- & Hd1).
        apply matches_cat_inv in Hm.
        destruct Hm as (s1 & s2 & -> & H1 & H2).
        apply (m_cat r1 r2 (c :: s1) s2); [|assumption].
        apply IH1. exists d1. auto.
      * destruct (nullable r1) eqn:En; [|contradiction].
        apply (m_cat r1 r2 [] (c :: s)).
        -- apply nullable_matches. assumption.
        -- apply IH2. exists d. auto.
  - split.
    + intros H. apply matches_star_cons_inv in H.
      destruct H as (s1 & s2 & -> & H1 & H2).
      apply IH in H1. destruct H1 as (d & Hd & Hm).
      exists (Cat d (Star r)).
      split; [apply (in_map (fun d => Cat d (Star r))); assumption|].
      constructor; assumption.
    + intros (d & Hd & Hm). apply in_map_iff in Hd.
      destruct Hd as (d1 & <- & Hd1).
      apply matches_cat_inv in Hm. destruct Hm as (s1 & s2 & -> & H1 & H2).
      apply (m_star_cons r (c :: s1) s2); [|assumption].
      apply IH. exists d1. auto.
Qed.

Lemma match_any_matches s : forall rs,
  match_any rs s = true <-> exists r, In r rs /\ matches r s.
Proof.
  induction s as [|c s IH]; intros rs; simpl.
  - rewrite existsb_exists. split; intros (r & Hr & H); exists r;
      (split; [assumption | apply nullable_matches; assumption]).
  - rewrite IH. split.
    + intros (d & Hd & Hm). apply in_flat_map in Hd.
      destruct Hd as (r & Hr & Hd). exists r. split; [assumption|].
      apply derive_matches. exists d. auto.
    + intros (r & Hr & Hm). apply derive_matches in Hm.
      destruct Hm as (d & Hd & Hm). exists d. split; [|assumption].
      apply in_flat_map. exists r. auto.
Qed.

Lemma test_whole_matches r s : test_whole r s = true <-> matches r s.
Proof.
  unfold test_whole. rewrite match_any_matches. split.
  - intros (r' & [<- | []] & H). assumption.
  - intros H. exists r. split; [left; reflexivity | assumption].
Qed.

(** The strings of [[cls]+]: non-empty, every code unit in the class. *)
Lemma matches_star_class cls s :
  matches (Star (Class cls)) s <-> Forall (fun c => cls c = true) s.
Proof.
  split.
  - intros H. remember (Star (Class cls)) as r eqn:Er.
    induction H as [| | | | r0 s1 s2 H1 _ H2 IH2]; try discriminate.
    + constructor.
    + inversion Er; subst r0. apply matches_class_inv in H1.
      destruct H1 as (c & -> & Hc). constructor; auto.
  - induction 1 as [|c s Hc _ IH]; [constructor|].
    apply (m_star_cons (Class cls) [c] s); [constructor|]; assumption.
Qed.

Lemma matches_plus_class cls s :
  matches (Plus (Class cls)) s <->
  s <> [] /\ Forall (fun c => cls c = true) s.
Proof.
  unfold Plus. split.
  - intros H. apply matches_cat_inv in H.
    destruct H as (s1 & s2 & -> & H1 & H2). apply matches_class_inv in H1.
    destruct H1 as (c & -> & Hc). apply matches_star_class in H2.
    split; [discriminate | constructor; assumption].
  - intros [Hne H]. destruct s as [|c s]; [congruence|].
    inversion H; subst.
    apply (m_cat (Class cls) (Star (Class cls)) [c] s);
      [constructor | apply matches_star_class]; assumption.
Qed.

Lemma matches_unit u s :
  matches (Class (N.eqb u)) s <-> s = [u].
Proof.
  split.
  - intros H. apply matches_class_inv in H. destruct H as (c & -> & Hc).
    f_equal. symmetry. apply N.eqb_eq. assumption.
  - intros ->. constructor. apply N.eqb_refl.
Qed.

(** ** [validateEmail] and [validatePassword] *)

Lemma email_parts email :
  validateEmail email = true ->
  exists local domain tld,
    email = local ++ [at_sign] ++ domain ++ [full_stop] ++ tld /\
    local <> [] /\ domain <> [] /\ tld <> [] /\
    Forall clean local /\ Forall clean domain /\ Forall clean tld.
Proof.
  unfold validateEmail. rewrite test_whole_matches. unfold emailRegex.
  intros H.
  apply matches_cat_inv in H. destruct H as (l & s1 & -> & Hl & H).
  apply matches_cat_inv in H. destruct H as (a & s2 & -> & Ha & H).
  apply matches_cat_inv in H. destruct H as (d & s3 & -> & Hd & H).
  apply matches_cat_inv in H. destruct H as (p & t & -> & Hp & Ht).
  apply matches_plus_class in Hl, Hd, Ht.
  apply matches_unit in Ha, Hp. subst a p.
  exists l, d, t. unfold clean. tauto.
Qed.

(** X11. [validateEmail] accepts exactly the strings of the form
    local@domain.tld in which the three parts are non-empty and contain
    neither white space nor "@" (the domain and the last part may contain
    further full stops). *)
Theorem validateEmail_accepts_exactly email :
  validateEmail email = true <->
  exists local domain tld,
    email = local ++ [at_sign] ++ domain ++ [full_stop] ++ tld /\
    local <> [] /\ domain <> [] /\ tld <> [] /\
    Forall clean local /\ Forall clean domain /\ Forall clean tld.
Proof.
  split; [apply email_parts|].
  unfold validateEmail. rewrite test_whole_matches. unfold emailRegex.
  intros (l & d & t & -> & Hl & Hd & Ht & Fl & Fd & Ft).
  repeat (apply m_cat);
    try (apply matches_plus_class; split; assumption);
    apply matches_unit; reflexivity.
Qed.

Lemma clean_not_at s : Forall clean s -> count_occ N.eq_dec s at_sign = 0%nat.
Proof.
  induction 1 as [|c s Hc _ IH]; [reflexivity|]. simpl.
  destruct (N.eq_dec c at_sign) as [-> | _]; [discriminate Hc | assumption].
Qed.

Lemma clean_not_space s :
  Forall clean s -> Forall (fun c => is_space c = false) s.
Proof.
  apply Forall_impl. intros c Hc. unfold clean, not_space_or_at in Hc.
  apply negb_true_iff, orb_false_iff in Hc. tauto.
Qed.

(** X12. A string that [validateEmail] accepts contains exactly one "@",
    a full stop after it, no white space, and at least five code units. *)
Theorem validateEmail_necessary email :
  validateEmail email = true ->
  count_occ N.eq_dec email at_sign = 1%nat /\
  Forall (fun c => is_space c = false) email /\
  (5 <= length email)%nat /\
  exists before after,
    email = before ++ [at_sign] ++ after /\ In full_stop after.
Proof.
  intros H. apply email_parts in H.
  destruct H as (l & d & t & -> & Hl & Hd & Ht & Fl & Fd & Ft).
  split; [|split; [|split]].
  - rewrite !count_occ_app.
    pose proof (clean_not_at l Fl) as El.
    pose proof (clean_not_at d Fd) as Ed.
    pose proof (clean_not_at t Ft) as Et.
    assert (Ea : count_occ N.eq_dec [at_sign] at_sign = 1%nat)
      by reflexivity.
    assert (Ep : count_occ N.eq_dec [full_stop] at_sign = 0%nat)
      by reflexivity.
    unfold code_unit in *. lia.
  - repeat (apply Forall_app; split);
      try (apply clean_not_space; assumption);
      repeat constructor.
  - rewrite !length_app. simpl.
    destruct l; [congruence|]. destruct d; [congruence|].
    destruct t; [congruence|]. simpl. lia.
  - exists l, (d ++ [full_stop] ++ t). split; [reflexivity|].
    apply in_or_app. right. left. reflexivity.
Qed.

Lemma test_class_exists cls s :
  test_class cls s = true <-> Exists (fun c => cls c = true) s.
Proof.
  unfold test_class. rewrite existsb_exists, Exists_exists. reflexivity.
Qed.

(** X13. [validatePassword] reports a password valid exactly when it has
    at least 8 code units, an uppercase letter A-Z, a lowercase letter a-z
    and a digit 0-9; valid means that the list of errors is empty; and the
    errors are the messages of the violated rules, in the order length,
    uppercase, lowercase, digit. *)
Theorem validatePassword_rules password :
  (PasswordCheck.valid (validatePassword password) = true <->
   (8 <= length password)%nat /\
   Exists (fun c => is_upper c = true) password /\
   Exists (fun c => is_lower c = true) password /\
   Exists (fun c => is_digit c = true) password) /\
  (PasswordCheck.valid (validatePassword password) = true <->
   PasswordCheck.errors (validatePassword password) = []) /\
  PasswordCheck.errors (validatePassword password)
  = (if (length password <? 8)%nat
     then [js "Password must be at least 8 characters long"] else [])
    ++ (if test_class is_upper password then []
        else [js "Password must contain at least one uppercase letter"])
    ++ (if test_class is_lower password then []
        else [js "Password must contain at least one lowercase letter"])
    ++ (if test_class is_digit password then []
        else [js "Password must contain at least one number"]).
Proof.
  rewrite <- !test_class_exists.
  unfold validatePassword, push_if. cbn [PasswordCheck.valid PasswordCheck.errors].
  destruct (length password <? 8)%nat eqn:El;
    destruct (test_class is_upper password);
    destruct (test_class is_lower password);
    destruct (test_class is_digit password);
    cbn [negb app length Nat.eqb];
    (apply Nat.ltb_lt in El || apply Nat.ltb_ge in El);
    repeat split; try reflexivity; try discriminate; try tauto; try lia;
    intros (? & ? & ? & ?); try discriminate; lia.
Qed.

(** ** [truncateText] *)

(** X14. [truncateText] returns a text that fits unchanged; it cuts a longer
    one to its first [maxLength] code units (none when [maxLength] is
    negative) followed by "...", so that the result has [maxLength + 3]
    code units, up to two more than the text itself; and truncating twice
    is truncating once. *)
Theorem truncateText_cuts_once text maxLength :
  (Z.of_nat (length text) <= maxLength ->
   truncateText text maxLength = text) /\
  (maxLength < Z.of_nat (length text) ->
   truncateText text maxLength
   = firstn (Z.to_nat maxLength) text ++ js "..." /\
   Z.of_nat (length (truncateText text maxLength))
   = Z.max 0 maxLength + 3) /\
  truncateText (truncateText text maxLength) maxLength
  = truncateText text maxLength.
Proof.
  assert (Hfit : Z.of_nat (length text) <= maxLength ->
                 truncateText text maxLength = text).
  { intros H. unfold truncateText.
    rewrite (proj2 (Z.leb_le _ _) H). reflexivity. }
  assert (Hcut : maxLength < Z.of_nat (length text) ->
                 truncateText text maxLength
                 = firstn (Z.to_nat maxLength) text ++ js "...").
  { intros H. unfold truncateText, substring_to.
    rewrite (proj2 (Z.leb_gt _ _) H). reflexivity. }
  assert (Hlen : maxLength < Z.of_nat (length text) ->
                 Z.of_nat (length (truncateText text maxLength))
                 = Z.max 0 maxLength + 3).
  { intros H. rewrite (Hcut H), length_app, length_firstn.
    change (length (js "...")) with 3%nat. lia. }
  split; [assumption|]. split; [auto|].
  destruct (Z.le_gt_cases (Z.of_nat (length text)) maxLength) as [H | H].
  - rewrite (Hfit H). apply Hfit. assumption.
  - specialize (Hlen H). rewrite (Hcut H) at 2.
    unfold truncateText at 1, substring_to.
    replace (Z.of_nat (length (truncateText text maxLength)) <=? maxLength)
      with false by (symmetry; apply Z.leb_gt; lia).
    f_equal. rewrite (Hcut H), firstn_app, firstn_firstn, length_firstn.
    replace (Z.to_nat maxLength
             - Nat.min (Z.to_nat maxLength) (length text))%nat
      with 0%nat by lia.
    rewrite Nat.min_id. simpl. apply app_nil_r.
Qed.

(** ** The tag filter *)

Lemma trimStart_decomp s :
  exists ws,
    s = ws ++ trimStart s /\
    Forall (fun c => is_space c = true) ws /\
    (forall c rest, trimStart s = c :: rest -> is_space c = false).
Proof.
  induction s as [|c s (ws & E & Hws & Hhead)]; simpl.
  - exists []. repeat split; [constructor | discriminate].
  - destruct (is_space c) eqn:Hc.
    + exists (c :: ws). split; [simpl; congruence|].
      split; [constructor; assumption | assumption].
    + exists []. split; [reflexivity|]. split; [constructor|].
      intros c' rest Ec. inversion Ec; subst. assumption.
Qed.

Lemma trimEnd_decomp s :
  exists ws,
    s = trimEnd s ++ ws /\
    Forall (fun c => is_space c = true) ws /\
    (forall c front, trimEnd s = front ++ [c] -> is_space c = false).
Proof.
  unfold trimEnd. destruct (trimStart_decomp (rev s)) as (ws & E & Hws & Hh).
  exists (rev ws). split; [|split].
  - rewrite <- rev_app_distr, <- E, rev_involutive. reflexivity.
  - apply Forall_rev. assumption.
  - intros c front Ec. apply (Hh c (rev front)).
    rewrite <- (rev_involutive (trimStart (rev s))), Ec, rev_app_distr.
    reflexivity.
Qed.

Lemma trimStart_fixed s :
  (forall c rest, s = c :: rest -> is_space c = false) -> trimStart s = s.
Proof.
  destruct s as [|c s]; [reflexivity|]. intros H. simpl.
  rewrite (H c s eq_refl). reflexivity.
Qed.

Lemma trimStart_spaces ws s :
  Forall (fun c => is_space c = true) ws -> trimStart (ws ++ s) = trimStart s.
Proof.
  induction 1 as [|c ws Hc _ IH]; simpl; [reflexivity|]. rewrite Hc. exact IH.
Qed.

Lemma trim_padding tag padded :
  tidy tag -> padding_of tag padded -> trim padded = tag.
Proof.
  intros (Hne & _ & Hhead & Hlast) (before & after & -> & Hb & Ha).
  unfold trim. rewrite trimStart_spaces by assumption.
  assert (E1 : trimStart (tag ++ after) = tag ++ after).
  { apply trimStart_fixed. intros c rest E.
    destruct tag as [|t tag]; [congruence|]. inversion E; subst.
    eapply Hhead. reflexivity. }
  rewrite E1. unfold trimEnd. rewrite rev_app_distr.
  rewrite trimStart_spaces by (apply Forall_rev; assumption).
  rewrite trimStart_fixed; [apply rev_involutive|].
  intros c rest E. apply (Hlast c (rev rest)).
  rewrite <- (rev_involutive tag), E. reflexivity.
Qed.

Lemma trim_tidy_ends s :
  (forall c rest, trim s = c :: rest -> is_space c = false) /\
  (forall c front, trim s = front ++ [c] -> is_space c = false) /\
  (forall c, In c (trim s) -> In c s).
Proof.
  unfold trim.
  destruct (trimStart_decomp s) as (ws1 & E1 & Hws1 & Hh1).
  destruct (trimEnd_decomp (trimStart s)) as (ws2 & E2 & Hws2 & Hl2).
  split; [|split].
  - intros c rest E. rewrite E in E2. simpl in E2. eapply Hh1. exact E2.
  - assumption.
  - intros c Hc. rewrite E1. apply in_or_app. right.
    rewrite E2. apply in_or_app. left. assumption.
Qed.

Lemma split_on_no_separator u s :
  Forall (fun piece => ~ In u piece) (split_on u s).
Proof.
  induction s as [|c s IH]; simpl.
  - constructor; [intros [] | constructor].
  - destruct (c =? u)%N eqn:E.
    + constructor; [intros [] | assumption].
    + apply N.eqb_neq in E. destruct (split_on u s) as [|piece pieces].
      * constructor; [|constructor]. intros [H | []]. congruence.
      * inversion IH; subst. constructor; [|assumption].
        intros [H | H]; [congruence | contradiction].
Qed.

Lemma split_on_piece u piece :
  ~ In u piece -> split_on u piece = [piece].
Proof.
  induction piece as [|c piece IH]; simpl; intros H; [reflexivity|].
  rewrite (proj2 (N.eqb_neq c u)) by (intros ->; apply H; auto).
  rewrite IH by tauto. reflexivity.
Qed.

Lemma split_on_app u piece rest :
  ~ In u piece ->
  split_on u (piece ++ u :: rest) = piece :: split_on u rest.
Proof.
  induction piece as [|c piece IH]; simpl; intros H.
  - rewrite N.eqb_refl. reflexivity.
  - rewrite (proj2 (N.eqb_neq c u)) by (intros ->; apply H; auto).
    rewrite IH by tauto. reflexivity.
Qed.

Lemma split_on_join u pieces :
  pieces <> [] -> Forall (fun piece => ~ In u piece) pieces ->
  split_on u (join [u] pieces) = pieces.
Proof.
  intros Hne H. induction H as [|piece rest Hp Hrest IH]; [congruence|].
  destruct rest as [|next rest].
  - simpl. apply split_on_piece. assumption.
  - replace (join [u] (piece :: next :: rest))
      with (piece ++ u :: join [u] (next :: rest)) by reflexivity.
    rewrite split_on_app by assumption. f_equal. apply IH. discriminate.
Qed.

Lemma tidy_truthy tag : tidy tag -> truthy tag = true.
Proof.
  intros (Hne & _). destruct tag; [congruence | reflexivity].
Qed.

(** X15. Every tag that the filter of [fetchPrompts] extracts is non-empty,
    has no comma and no white space at either end; and a comma-separated
    text whose pieces are such tags, each with any white space around it,
    is split back into exactly those tags. *)
Theorem filter_tags_round_trip :
  (forall text tag, In tag (filter_tags text) -> tidy tag) /\
  (forall tags padded,
     Forall tidy tags -> Forall2 padding_of tags padded ->
     filter_tags (join [comma] padded) = tags).
Proof.
  split.
  - intros text tag H. unfold filter_tags in H.
    apply filter_In in H. destruct H as [H Ht].
    apply in_map_iff in H. destruct H as (piece & <- & Hp).
    destruct (trim_tidy_ends piece) as (Hhead & Hlast & Hsub).
    split; [destruct (trim piece); [discriminate | discriminate]|].
    split; [|split; assumption].
    intros Hc. apply Hsub in Hc.
    pose proof (split_on_no_separator comma text) as Hall.
    rewrite Forall_forall in Hall. exact (Hall piece Hp Hc).
  - intros tags padded Htidy Hpad. unfold filter_tags.
    destruct padded as [|p0 padded'] eqn:Ep.
    + inversion Hpad; subst. reflexivity.
    + rewrite <- Ep in *. rewrite split_on_join.
      * clear Ep. induction Hpad as [|tag p tags' padded'' Hp _ IH];
          [reflexivity|].
        inversion Htidy; subst. cbn [map filter].
        rewrite (trim_padding tag p) by assumption.
        rewrite tidy_truthy by assumption. f_equal. apply IH. assumption.
      * rewrite Ep. discriminate.
      * clear Ep. induction Hpad as [|tag p tags' padded'' Hp _ IH];
          constructor.
        -- inversion Htidy as [|? ? (_ & Hnc & _) _]; subst.
           destruct Hp as (before & after & -> & Hb & Ha).
           intros Hin. apply in_app_or in Hin. destruct Hin as [Hin | Hin].
           ++ rewrite Forall_forall in Hb. apply Hb in Hin. discriminate Hin.
           ++ apply in_app_or in Hin. destruct Hin as [Hin | Hin];
                [contradiction|].
              rewrite Forall_forall in Ha. apply Ha in Hin. discriminate Hin.
        -- apply IH. inversion Htidy. assumption.
Qed.

(** ** Relative dates *)

(** X16. [formatDate] of the comments, by the time elapsed between the two
    dates: under a minute, or a date in the future, gives "just now";
    under an hour, the whole minutes elapsed (1 to 59) and "m ago"; under a
    day, the whole hours (1 to 23) and "h ago"; under a week, the whole days
    (1 to 6) and "d ago"; from a week on, the calendar date. *)
Theorem formatDate_bands localeDate now date :
  (now - date < 60000 -> formatDate localeDate now date = js "just now") /\
  (60000 <= now - date < 3600000 ->
   exists n,
     1 <= n <= 59 /\ n * 60000 <= now - date < (n + 1) * 60000 /\
     formatDate localeDate now date = ToString_int n ++ js "m ago") /\
  (3600000 <= now - date < 86400000 ->
   exists n,
     1 <= n <= 23 /\ n * 3600000 <= now - date < (n + 1) * 3600000 /\
     formatDate localeDate now date = ToString_int n ++ js "h ago") /\
  (86400000 <= now - date < 604800000 ->
   exists n,
     1 <= n <= 6 /\ n * 86400000 <= now - date < (n + 1) * 86400000 /\
     formatDate localeDate now date = ToString_int n ++ js "d ago") /\
  (604800000 <= now - date ->
   formatDate localeDate now date = localeDate date now).
Proof.
  unfold formatDate. change (1000 * 60) with 60000.
  set (e := now - date). set (m := e / 60000).
  assert (Hm : 60000 * m <= e < 60000 * m + 60000).
  { pose proof (Z_div_mod_eq_full e 60000).
    pose proof (Z.mod_pos_bound e 60000 ltac:(lia)). unfold m. lia. }
  assert (Hh : 60 * (m / 60) <= m < 60 * (m / 60) + 60).
  { pose proof (Z_div_mod_eq_full m 60).
    pose proof (Z.mod_pos_bound m 60 ltac:(lia)). lia. }
  assert (Hd : 1440 * (m / 1440) <= m < 1440 * (m / 1440) + 1440).
  { pose proof (Z_div_mod_eq_full m 1440).
    pose proof (Z.mod_pos_bound m 1440 ltac:(lia)). lia. }
  cbv zeta.
  destruct (m <? 1) eqn:E1; [apply Z.ltb_lt in E1 | apply Z.ltb_ge in E1].
  { repeat split; intros; try reflexivity; lia. }
  destruct (m <? 60) eqn:E2; [apply Z.ltb_lt in E2 | apply Z.ltb_ge in E2].
  { split; [lia|]. split; [|repeat split; intros; lia].
    intros _. exists m. repeat split; try lia. }
  destruct (m <? 1440) eqn:E3; [apply Z.ltb_lt in E3 | apply Z.ltb_ge in E3].
  { split; [lia|]. split; [lia|]. split; [|repeat split; intros; lia].
    intros _. exists (m / 60). repeat split; try lia. }
  destruct (m <? 10080) eqn:E4; [apply Z.ltb_lt in E4 | apply Z.ltb_ge in E4].
  { split; [lia|]. split; [lia|]. split; [lia|]. split; [|intros; lia].
    intros _. exists (m / 1440). repeat split; try lia. }
  repeat split; intros; try lia.
Qed.

(** ** The upload form *)

Lemma includes_In array s : includes array s = true <-> In s array.
Proof.
  unfold includes. rewrite existsb_exists. split.
  - intros (x & Hx & E). apply jsstring_eqb_true in E. subst. assumption.
  - intros H. exists s. split; [assumption | apply jsstring_eqb_refl].
Qed.

Lemma refine_passes check path message :
  refine check path message = [] <-> check = true.
Proof.
  unfold refine. destruct check; split; intros H;
    try reflexivity; discriminate.
Qed.

Lemma property_set_same {V} (o : list (jsstring * V)) key v :
  property (set_property o key v) key = Some v.
Proof.
  induction o as [|[k x] o IH]; simpl.
  - rewrite jsstring_eqb_refl. reflexivity.
  - destruct (jsstring_eqb k key) eqn:E; simpl; rewrite E; auto.
Qed.

Lemma property_set_other {V} (o : list (jsstring * V)) key key' v :
  key <> key' -> property (set_property o key v) key' = property o key'.
Proof.
  intros Hne. induction o as [|[k x] o IH]; simpl.
  - rewrite jsstring_eqb_neq by assumption. reflexivity.
  - destruct (jsstring_eqb k key) eqn:E; simpl.
    + apply jsstring_eqb_true in E. subst k.
      rewrite jsstring_eqb_neq by assumption. reflexivity.
    + destruct (jsstring_eqb k key'); auto.
Qed.

Lemma set_property_not_nil {V} (o : list (jsstring * V)) key v :
  set_property o key v <> [].
Proof.
  destruct o as [|[k x] o]; simpl; [discriminate|].
  destruct (jsstring_eqb k key); discriminate.
Qed.

Lemma messages_untouched issues : forall acc key,
  Forall (fun i => Issue.path i <> key) issues ->
  property
    (fold_left
       (fun newErrors err =>
          set_property newErrors (Issue.path err) (Issue.message err))
       issues acc) key
  = property acc key.
Proof.
  induction issues as [|i issues IH]; intros acc key H; simpl;
    [reflexivity|].
  inversion H; subst. rewrite IH by assumption.
  apply property_set_other. assumption.
Qed.

Lemma errors_of_app l1 l2 :
  errors_of (l1 ++ l2)
  = fold_left
      (fun newErrors err =>
         set_property newErrors (Issue.path err) (Issue.message err))
      l2 (errors_of l1).
Proof.
  unfold errors_of. apply fold_left_app.
Qed.

Lemma errors_of_not_nil i issues : errors_of (i :: issues) <> [].
Proof.
  unfold errors_of. cbn [fold_left].
  assert (H : forall l (acc : list (jsstring * jsstring)),
             acc <> [] ->
             fold_left
               (fun newErrors err =>
                  set_property newErrors (Issue.path err) (Issue.message err))
               l acc <> []).
  { induction l as [|j l IH]; intros acc Hacc; simpl; [assumption|].
    apply IH. apply set_property_not_nil. }
  apply H. apply set_property_not_nil.
Qed.

Lemma refine_paths check path message key :
  path <> key -> Forall (fun i => Issue.path i <> key)
                   (refine check path message).
Proof.
  intros H. unfold refine. destruct check; repeat constructor. assumption.
Qed.

Section UploadFormFacts.

Variable toLowerCase : jsstring -> jsstring.
Variable invalid_enum_message : jsstring -> jsstring.

Lemma issues_none file formData :
  promptFileSchema_issues invalid_enum_message file formData = [] <->
  acceptable file formData.
Proof.
  unfold promptFileSchema_issues, acceptable.
  change (5 * 1024 * 1024) with 5242880.
  rewrite <- (Z.leb_le (UploadFile.size file)), <- !includes_In,
    <- !Nat.leb_le.
  destruct (UploadFile.size file <=? 5242880);
    destruct (includes allowedTypes (UploadFile.type file));
    destruct (3 <=? length (FormData.title formData))%nat;
    destruct (length (FormData.title formData) <=? 100)%nat;
    destruct (10 <=? length (FormData.description formData))%nat;
    destruct (length (FormData.description formData) <=? 500)%nat;
    destruct (includes formCategories (FormData.category formData));
    destruct (length (FormData.tags formData) <=? 5)%nat;
    cbn [refine app]; split; intros H;
    try reflexivity; try discriminate H; try tauto;
    repeat match goal with
           | H : _ /\ _ |- _ => destruct H
           end; discriminate.
Qed.

(** X17. [validateForm] returns true exactly when a file is selected whose
    size is at most 5242880 bytes and whose type is one of the four
    allowed, the title has 3 to 100 code units, the description 10 to 500,
    the category is one of the five and there are at most 5 tags; then it
    clears the errors, and otherwise it sets at least one.  Without a file
    the only error is the request to select one; a file that is too large
    and of a wrong type is reported with the message on the type. *)
Theorem validateForm_accepts_exactly selectedFile formData :
  (fst (validateForm invalid_enum_message selectedFile formData) = true <->
   exists file, selectedFile = Some file /\ acceptable file formData) /\
  (fst (validateForm invalid_enum_message selectedFile formData) = true ->
   snd (validateForm invalid_enum_message selectedFile formData) = []) /\
  (fst (validateForm invalid_enum_message selectedFile formData) = false ->
   snd (validateForm invalid_enum_message selectedFile formData) <> []) /\
  (selectedFile = None ->
   validateForm invalid_enum_message selectedFile formData
   = (false, [(js "file", js "Please select a file to upload")])) /\
  (forall file,
     selectedFile = Some file ->
     includes allowedTypes (UploadFile.type file) = false ->
     property (snd (validateForm invalid_enum_message selectedFile formData))
       (js "file")
     = Some (js "File must be .txt, .md, .json, or .csv format")).
Proof.
  unfold validateForm. destruct selectedFile as [file|].
  - destruct (promptFileSchema_issues invalid_enum_message file formData)
      as [|i issues] eqn:E.
    + apply issues_none in E.
      split; [split; [intros _; exists file; auto | reflexivity]|].
      split; [reflexivity|]. split; [discriminate|]. split; [discriminate|].
      intros f Hf Htype. inversion Hf; subst f.
      destruct E as (_ & Hin & _). apply includes_In in Hin. congruence.
    + cbn [fst snd]. split; [split; [discriminate|]|].
      * intros (f & Hf & Hacc). inversion Hf; subst f.
        apply issues_none in Hacc. congruence.
      * split; [discriminate|]. split; [intros _; apply errors_of_not_nil|].
        split; [discriminate|].
        intros f Hf Htype. inversion Hf; subst f. rewrite <- E.
        unfold promptFileSchema_issues. rewrite Htype.
        rewrite app_assoc, errors_of_app, messages_untouched.
        -- rewrite errors_of_app. simpl. apply property_set_same.
        -- repeat (apply Forall_app; split);
             apply refine_paths; intros H; vm_compute in H; discriminate H.
  - split; [split; [discriminate | intros (f & Hf & _); discriminate]|].
    split; [discriminate|]. split; [intros _; discriminate|].
    split; [reflexivity | intros f Hf; discriminate].
Qed.

Lemma act_keeps_tags_within_limit st a :
  tags_within_limit st -> tags_within_limit (act toLowerCase st a).
Proof.
  intros [Hlen Hnd]. destruct a as [text | | tag | field value].
  - split; assumption.
  - unfold act, addTag.
    destruct (truthy (trim (FormState.tagInput st))); [|split; assumption].
    destruct (length (FormData.tags (FormState.formData st)) <? 5)%nat eqn:E;
      [|split; assumption].
    apply Nat.ltb_lt in E. cbn [andb].
    destruct (includes (FormData.tags (FormState.formData st))
                (toLowerCase (trim (FormState.tagInput st)))) eqn:Ei;
      cbn [negb]; [split; assumption|].
    unfold tags_within_limit. cbn. rewrite length_app. simpl.
    split; [lia|].
    apply NoDup_app; [assumption | repeat constructor; intros [] | ].
    intros x Hx [<- | []].
    apply includes_In in Hx. congruence.
  - unfold act, removeTag, tags_within_limit. cbn. split.
    + etransitivity; [apply filter_length_le | assumption].
    + apply NoDup_filter. assumption.
  - destruct field; split; assumption.
Qed.

Lemma run_form_within_limit actions :
  tags_within_limit (run_form toLowerCase actions).
Proof.
  unfold run_form.
  assert (H0 : tags_within_limit initial_form)
    by (split; [simpl; lia | constructor]).
  revert H0. generalize initial_form.
  induction actions as [|a actions IH]; intros st H; simpl; [assumption|].
  apply IH. apply act_keeps_tags_within_limit. assumption.
Qed.

(** X18. Whatever the user types, adds, removes and edits on the empty
    form, the form holds at most 5 tags and no tag twice, so that
    [validateForm] never reports the tags. *)
Theorem form_tags_stay_within_limit actions file :
  (length (FormData.tags (FormState.formData (run_form toLowerCase actions)))
   <= 5)%nat /\
  NoDup (FormData.tags (FormState.formData (run_form toLowerCase actions))) /\
  property
    (snd (validateForm invalid_enum_message (Some file)
            (FormState.formData (run_form toLowerCase actions))))
    (js "tags")
  = None.
Proof.
  destruct (run_form_within_limit actions) as [Hlen Hnd].
  split; [assumption|]. split; [assumption|].
  unfold validateForm.
  destruct (promptFileSchema_issues invalid_enum_message file
              (FormState.formData (run_form toLowerCase actions)))
    as [|i issues] eqn:E; [reflexivity|].
  cbn [snd]. rewrite <- E. unfold errors_of. apply messages_untouched.
  unfold promptFileSchema_issues.
  rewrite (proj2 (Nat.leb_le _ _) Hlen).
  repeat (apply Forall_app; split);
    try (apply refine_paths; intros H; vm_compute in H; discriminate H).
  constructor.
Qed.

(** X19. Removing a tag leaves no occurrence of it and keeps the other tags
    in their order; and adding a tag that is new to a form with fewer than
    5 tags, then removing it, gives back the tags the form had. *)
Theorem removeTag_undoes_addTag st :
  (forall tag,
     FormData.tags (FormState.formData (removeTag tag st))
     = filter (fun t => negb (jsstring_eqb t tag))
         (FormData.tags (FormState.formData st)) /\
     ~ In tag (FormData.tags (FormState.formData (removeTag tag st)))) /\
  (truthy (trim (FormState.tagInput st)) = true ->
   (length (FormData.tags (FormState.formData st)) < 5)%nat ->
   ~ In (toLowerCase (trim (FormState.tagInput st)))
       (FormData.tags (FormState.formData st)) ->
   FormData.tags
     (FormState.formData
        (removeTag (toLowerCase (trim (FormState.tagInput st)))
           (addTag toLowerCase st)))
   = FormData.tags (FormState.formData st)).
Proof.
  split.
  - intros tag. split; [reflexivity|]. cbn. rewrite filter_In.
    intros [_ H]. rewrite jsstring_eqb_refl in H. discriminate.
  - intros Ht Hlen Hnew. unfold addTag. rewrite Ht.
    rewrite (proj2 (Nat.ltb_lt _ _) Hlen). cbn [andb].
    replace (includes (FormData.tags (FormState.formData st))
               (toLowerCase (trim (FormState.tagInput st)))) with false.
    + cbn. rewrite filter_app. simpl. rewrite jsstring_eqb_refl. simpl.
      rewrite app_nil_r. apply filter_all. rewrite Forall_forall.
      intros t Hin. apply negb_true_iff, jsstring_eqb_neq.
      intros ->. contradiction.
    + symmetry. apply not_true_iff_false. rewrite includes_In. assumption.
Qed.

End UploadFormFacts.

(** ** [PromptBrowser] *)

Lemma jsstring_eqb_sym a b : jsstring_eqb a b = jsstring_eqb b a.
Proof.
  destruct (jsstring_eqb a b) eqn:E.
  - apply jsstring_eqb_true in E. subst. symmetry. apply jsstring_eqb_refl.
  - symmetry. apply jsstring_eqb_neq. apply jsstring_eqb_false in E.
    congruence.
Qed.

Lemma getAll_delete params name name' :
  URLSearchParams.getAll (URLSearchParams.delete params name) name'
  = if jsstring_eqb name name' then []
    else URLSearchParams.getAll params name'.
Proof.
  unfold URLSearchParams.getAll, URLSearchParams.delete.
  induction params as [|[k v] params IH]; simpl.
  - destruct (jsstring_eqb name name'); reflexivity.
  - destruct (jsstring_eqb k name) eqn:E1; simpl.
    + apply jsstring_eqb_true in E1. subst k. rewrite IH.
      destruct (jsstring_eqb name name'); reflexivity.
    + destruct (jsstring_eqb k name') eqn:E2; simpl; rewrite IH.
      * apply jsstring_eqb_true in E2. subst k.
        rewrite (jsstring_eqb_sym name name'), E1. reflexivity.
      * destruct (jsstring_eqb name name'); reflexivity.
Qed.

Lemma getAll_set params name value name' :
  URLSearchParams.getAll (URLSearchParams.set params name value) name'
  = if jsstring_eqb name name' then [value]
    else URLSearchParams.getAll params name'.
Proof.
  induction params as [|[k v] params IH].
  - unfold URLSearchParams.getAll. simpl.
    destruct (jsstring_eqb name name'); reflexivity.
  - cbn [URLSearchParams.set].
    destruct (jsstring_eqb k name) eqn:E1.
    + apply jsstring_eqb_true in E1. subst k.
      pose proof (getAll_delete params name name') as Hd.
      unfold URLSearchParams.getAll in *. cbn [filter fst].
      destruct (jsstring_eqb name name') eqn:E; cbn [map snd];
        rewrite Hd; reflexivity.
    + unfold URLSearchParams.getAll in *. simpl.
      destruct (jsstring_eqb k name') eqn:E2; simpl; rewrite IH.
      * apply jsstring_eqb_true in E2. subst k.
        rewrite (jsstring_eqb_sym name name'), E1. reflexivity.
      * reflexivity.
Qed.

Lemma get_head params name :
  URLSearchParams.get params name
  = hd_error (URLSearchParams.getAll params name).
Proof.
  unfold URLSearchParams.get, URLSearchParams.getAll.
  induction params as [|[k v] params IH]; simpl; [reflexivity|].
  destruct (jsstring_eqb k name); simpl; auto.
Qed.

Lemma updateURL_getAll urlSearchParams params name :
  URLSearchParams.getAll (updateURL_params urlSearchParams params) name
  = match property (rev params) name with
    | Some value => if kept value then [value] else []
    | None => URLSearchParams.getAll urlSearchParams name
    end.
Proof.
  unfold updateURL_params.
  induction params as [|[k v] params IH] using rev_ind; [reflexivity|].
  rewrite fold_left_app, rev_app_distr. cbn [fold_left rev app property].
  cbn [fst snd]. destruct (kept v) eqn:Hk.
  - rewrite getAll_set. destruct (jsstring_eqb k name); [|exact IH].
    rewrite Hk. reflexivity.
  - rewrite getAll_delete. destruct (jsstring_eqb k name); [|exact IH].
    rewrite Hk. reflexivity.
Qed.

(** X20. After [updateURL], a name among the entries of the argument has
    its value as its one and only parameter when the value is not empty
    and not [all], and no parameter otherwise (the last entry of a name
    decides, which for the entries of an object is the only one); the
    parameters of every other name are those of the current address. *)
Theorem updateURL_sets_or_deletes urlSearchParams params name :
  URLSearchParams.getAll (updateURL_params urlSearchParams params) name
  = match property (rev params) name with
    | Some value =>
        if (0 <? length value)%nat && negb (jsstring_eqb value (js "all"))
        then [value] else []
    | None => URLSearchParams.getAll urlSearchParams name
    end.
Proof.
  rewrite updateURL_getAll.
  destruct (property (rev params) name) as [value|]; [|reflexivity].
  unfold kept. destruct value as [|c value]; [reflexivity|].
  replace (jsstring_eqb (c :: value) (js "")) with false
    by (symmetry; apply jsstring_eqb_neq; discriminate).
  cbn [truthy length Nat.ltb Nat.leb negb andb].
  rewrite andb_true_r. reflexivity.
Qed.

Lemma query_category params c :
  In (eq_text (js "category") c) (fetchPrompts_query params) <->
  FilterParams.category params = c /\ kept c = true.
Proof.
  unfold fetchPrompts_query. rewrite !in_app_iff. split.
  - intros [H | [H | [H | [H | H]]]].
    + destruct H as [H | [H | []]]; [discriminate H|].
      inversion H as [[H1]].
    + destruct (truthy (FilterParams.search params));
        [destruct H as [H | []]; discriminate H | destruct H].
    + destruct (truthy (FilterParams.category params)) eqn:Et;
        [|destruct H]. cbn [andb] in H.
      destruct (jsstring_eqb (FilterParams.category params) (js "all"))
        eqn:Ea; cbn [negb] in H; [destruct H|].
      destruct H as [H | []]. inversion H as [Hc]. split; [reflexivity|].
      unfold kept. rewrite Et, Ea.
      destruct (FilterParams.category params); [discriminate Et|].
      reflexivity.
    + destruct (overlaps_argument (Some (FilterParams.tags params)));
        [destruct H as [H | []]; discriminate H | destruct H].
    + destruct H as [H | [H | []]]; discriminate H.
  - intros [<- Hk]. right. right. left. unfold kept in Hk.
    destruct (truthy (FilterParams.category params)); [|discriminate Hk].
    destruct (jsstring_eqb (FilterParams.category params) (js "all"));
      [discriminate Hk|]. left. reflexivity.
Qed.

(** X21. [fetchPrompts] and [updateURL] are called with one argument: the
    query filters on a category exactly when the new address carries it,
    and a search text of the address is also searched for; but the search
    text [all] is searched for and dropped from the address.  After
    [handleFilterChange] the argument is the new state of the filters. *)
Theorem query_and_address_agree urlSearchParams params :
  (forall c,
     In (eq_text (js "category") c) (fetchPrompts_query params) <->
     URLSearchParams.get
       (updateURL_params urlSearchParams (entries_of params))
       (js "category") = Some c) /\
  (forall s,
     URLSearchParams.get
       (updateURL_params urlSearchParams (entries_of params))
       (js "search") = Some s ->
     In (or_filter (search_filter s)) (fetchPrompts_query params)) /\
  (FilterParams.search params = js "all" ->
   In (or_filter (search_filter (js "all"))) (fetchPrompts_query params) /\
   URLSearchParams.get
     (updateURL_params urlSearchParams (entries_of params))
     (js "search") = None) /\
  (forall type value st,
     snd (handleFilterChange type value st) = params ->
     BrowserState.searchQuery (fst (handleFilterChange type value st))
     = FilterParams.search params /\
     BrowserState.selectedCategory (fst (handleFilterChange type value st))
     = FilterParams.category params /\
     BrowserState.tagFilter (fst (handleFilterChange type value st))
     = FilterParams.tags params /\
     BrowserState.selectedSort (fst (handleFilterChange type value st))
     = FilterParams.sort params).
Proof.
  split; [|split; [|split]].
  - intros c. rewrite query_category, get_head, updateURL_getAll.
    change (property (rev (entries_of params)) (js "category"))
      with (Some (FilterParams.category params)).
    cbv beta iota.
    split.
    + intros [-> Hk]. rewrite Hk. reflexivity.
    + destruct (kept (FilterParams.category params)) eqn:Hk;
        cbn [hd_error]; intros H; [|discriminate H].
      inversion H; subst. auto.
  - intros s. rewrite get_head, updateURL_getAll.
    change (property (rev (entries_of params)) (js "search"))
      with (Some (FilterParams.search params)).
    cbv beta iota.
    destruct (kept (FilterParams.search params)) eqn:Hk;
      cbn [hd_error]; intros H; [|discriminate H].
    inversion H; subst. unfold fetchPrompts_query.
    rewrite !in_app_iff. right. left. unfold kept in Hk.
    destruct (truthy (FilterParams.search params)); [|discriminate Hk].
    left. reflexivity.
  - intros Hs. split.
    + unfold fetchPrompts_query. rewrite Hs, !in_app_iff. right. left.
      left. reflexivity.
    + rewrite get_head, updateURL_getAll.
      change (property (rev (entries_of params)) (js "search"))
        with (Some (FilterParams.search params)).
      cbv beta iota. rewrite Hs. reflexivity.
  - intros type value st <-. repeat split.
Qed.

(** X22. [handleLike] does nothing for a visitor who is not signed in.
    For a signed-in user it makes one call; when the call rejects the
    error is thrown on and the prompts stay; when it resolves, also to a
    value that reports an error, the prompts of that id and no others get
    their count changed by one, with no lower bound; and a like followed
    by an unlike, both resolved, gives back the prompts. *)
Theorem handleLike_local_count {R} db currentUserId promptId isLiked
  (prompts : list (Prompt.t R)) :
  (falsy currentUserId = true ->
   handleLike db currentUserId promptId isLiked prompts
   = ([], Returned tt, prompts)) /\
  (falsy currentUserId = false ->
   length (fst (fst (handleLike db currentUserId promptId isLiked prompts)))
   = 1%nat /\
   (forall e,
      snd (fst (handleLike db currentUserId promptId isLiked prompts))
      = Threw e ->
      snd (handleLike db currentUserId promptId isLiked prompts) = prompts) /\
   (snd (fst (handleLike db currentUserId promptId isLiked prompts))
    = Returned tt ->
    map Prompt.id
      (snd (handleLike db currentUserId promptId isLiked prompts))
    = map Prompt.id prompts /\
    map Prompt.rest
      (snd (handleLike db currentUserId promptId isLiked prompts))
    = map Prompt.rest prompts /\
    map Prompt.like_count
      (snd (handleLike db currentUserId promptId isLiked prompts))
    = map (fun prompt =>
             if jsstring_eqb (Prompt.id prompt) promptId
             then Prompt.like_count prompt + (if isLiked then 1 else -1)
             else Prompt.like_count prompt)
        prompts /\
    forall db',
      snd (fst (handleLike db' currentUserId promptId (negb isLiked)
                  (snd (handleLike db currentUserId promptId isLiked
                          prompts))))
      = Returned tt ->
      snd (handleLike db' currentUserId promptId (negb isLiked)
             (snd (handleLike db currentUserId promptId isLiked prompts)))
      = prompts)).
Proof.
  split.
  - destruct currentUserId as [[|c user]|]; try discriminate; reflexivity.
  - destruct currentUserId as [[|c user]|]; try discriminate. intros _.
    cbn [handleLike].
    set (call := if isLiked then insert_like (c :: user) promptId
                 else delete_like (c :: user) promptId).
    destruct (db call) as [e | err]; cbn [fst snd].
    + split; [reflexivity|]. split; [reflexivity | discriminate].
    + split; [reflexivity|]. split; [discriminate|]. intros _.
      split; [|split; [|split]].
      * rewrite map_map. apply map_ext. intros p.
        destruct (jsstring_eqb (Prompt.id p) promptId); reflexivity.
      * rewrite map_map. apply map_ext. intros p.
        destruct (jsstring_eqb (Prompt.id p) promptId); reflexivity.
      * rewrite map_map. apply map_ext. intros p.
        destruct (jsstring_eqb (Prompt.id p) promptId); reflexivity.
      * intros db'.
        set (call' := if negb isLiked then insert_like (c :: user) promptId
                      else delete_like (c :: user) promptId).
        destruct (db' call') as [e' | err']; cbn [fst snd];
          [discriminate|]. intros _.
        rewrite map_map. rewrite <- (map_id prompts) at 2.
        apply map_ext. intros [i n r]. cbn.
        destruct (jsstring_eqb i promptId) eqn:E; cbn; rewrite ?E;
          [|reflexivity].
        f_equal. destruct isLiked; cbn; lia.
Qed.

(** ** Sessions and the callback route *)

(** X23. [requireAuth] returns a user exactly when the service resolves,
    without an error, to a user; every other reply, a rejection included,
    leads to the login page.  On each reply exactly one of [requireAuth]
    and [redirectIfAuthenticated] redirects. *)
Theorem session_guards_are_complementary {User} (reply : getUser_reply User) :
  (forall user,
     requireAuth reply = Stays user <->
     reply = GetUserResolves (Some user) false) /\
  ((forall user, reply <> GetUserResolves (Some user) false) <->
   requireAuth reply = Redirects (js "/auth/login")) /\
  ((exists user, requireAuth reply = Stays user) <->
   redirectIfAuthenticated reply = Redirects (js "/prompts")) /\
  (requireAuth reply = Redirects (js "/auth/login") <->
   redirectIfAuthenticated reply = Stays tt).
Proof.
  unfold requireAuth, redirectIfAuthenticated.
  assert (Hcases :
            (exists user, reply = GetUserResolves (Some user) false /\
                          getCurrentUser reply = Some user) \/
            ((forall user, reply <> GetUserResolves (Some user) false) /\
             getCurrentUser reply = None)).
  { destruct reply as [e | [user|] [|]]; cbn [getCurrentUser];
      try (right; split; [intros u H; discriminate H | reflexivity]).
    left. exists user. split; reflexivity. }
  destruct Hcases as [(user & -> & Hu) | (Hnone & Hu)]; rewrite Hu.
  - split; [|split; [|split]].
    + intros u. split; intros H; inversion H; reflexivity.
    + split; [intros H; exfalso; apply (H user); reflexivity
             | intros H; discriminate H].
    + split; [reflexivity | intros _; exists user; reflexivity].
    + split; intros H; discriminate H.
  - split; [|split; [|split]].
    + intros u. split; intros H; [discriminate H|].
      exfalso. apply (Hnone u). assumption.
    + split; [reflexivity | intros _; assumption].
    + split; [intros [u H]; discriminate H | intros H; discriminate H].
    + split; reflexivity.
Qed.

Lemma try_redirect (inside handler after : outcome jsstring) :
  (let! returned :=
     try_catch (let! response := inside in Returned (Some response))
       (fun _ => let! response := handler in Returned (Some response)) in
   match returned with
   | Some response => Returned response
   | None => after
   end)%outcome
  = try_catch inside (fun _ => handler).
Proof.
  destruct inside; [reflexivity|]. destruct handler; reflexivity.
Qed.

Lemma try_thrown (e : thrown) (handler after : outcome jsstring) :
  (let! returned :=
     try_catch (Threw e)
       (fun _ => let! response := handler in Returned (Some response)) in
   match returned with
   | Some response => Returned response
   | None => after
   end)%outcome
  = handler.
Proof.
  destruct handler; reflexivity.
Qed.

(** X24. The callback route answers with the response that
    [NextResponse.redirect] makes of a text, and makes no call without a
    code.  When the exchange resolves without error to a user and the
    profile write resolves, whether or not the write reports an error,
    the text is the origin of the request followed by the page asked for
    ([/prompts] when none is); the page asked for is not checked, so any
    text whatever is appended to the origin, and when the result is not
    an address the answer is the login page with [unexpected_error].  In
    every other case the text is the login page under the origin with one
    of three reasons: [callback_error] when the exchange reports an
    error, [unexpected_error] when either call rejects, [no_code] when
    there is no code or no user.  The handler returns whenever the three
    login addresses are addresses.  The row written is the user's, with
    an empty name and no avatar when the user's metadata lack them. *)
Theorem GET_redirect_locations
  NextResponse_redirect exchange upsert now origin code next :
  ((exists c user profileError location,
      code = Some c /\ exchange c = ExchangeResolves (Some user) false /\
      upsert (profile_of now user) = UpsertResolves profileError /\
      NextResponse_redirect
        (origin
         ++ match next with Some path => path | None => js "/prompts" end)
      = Returned location /\
      snd (GET NextResponse_redirect exchange upsert now origin code next)
      = Returned location)
   \/ exists reason,
        In reason [js "callback_error"; js "unexpected_error"; js "no_code"]
        /\ snd (GET NextResponse_redirect exchange upsert now origin code
                  next)
           = NextResponse_redirect (login_error origin reason)) /\
  ((forall reason,
      In reason [js "callback_error"; js "unexpected_error"; js "no_code"] ->
      exists location,
        NextResponse_redirect (login_error origin reason)
        = Returned location) ->
   exists location,
     snd (GET NextResponse_redirect exchange upsert now origin code next)
     = Returned location) /\
  (falsy code = true ->
   GET NextResponse_redirect exchange upsert now origin code next
   = ([], NextResponse_redirect (login_error origin (js "no_code")))) /\
  (forall row,
     In (upsert_profile row)
       (fst (GET NextResponse_redirect exchange upsert now origin code next))
     ->
     exists c user,
       code = Some c /\ exchange c = ExchangeResolves (Some user) false /\
       row = profile_of now user /\
       (AuthUser.user_metadata user = None ->
        Profile.full_name row = js "" /\ Profile.avatar_url row = None)) /\
  (forall c user profileError,
     code = Some c -> c <> [] ->
     exchange c = ExchangeResolves (Some user) false ->
     upsert (profile_of now user) = UpsertResolves profileError ->
     GET NextResponse_redirect exchange upsert now origin code next
     = ([exchangeCodeForSession c; upsert_profile (profile_of now user)],
        try_catch
          (NextResponse_redirect
             (origin
              ++ match next with
                 | Some path => path
                 | None => js "/prompts"
                 end))
          (fun _ =>
             NextResponse_redirect
               (login_error origin (js "unexpected_error"))))) /\
  (forall c,
     code = Some c -> c <> [] ->
     (exists e, exchange c = ExchangeRejects e) \/
     (exists user e,
        exchange c = ExchangeResolves (Some user) false /\
        upsert (profile_of now user) = UpsertRejects e) ->
     snd (GET NextResponse_redirect exchange upsert now origin code next)
     = NextResponse_redirect (login_error origin (js "unexpected_error"))) /\
  (forall c user,
     code = Some c -> c <> [] ->
     exchange c = ExchangeResolves user true ->
     GET NextResponse_redirect exchange upsert now origin code next
     = ([exchangeCodeForSession c],
        try_catch
          (NextResponse_redirect (login_error origin (js "callback_error")))
          (fun _ =>
             NextResponse_redirect
               (login_error origin (js "unexpected_error"))))) /\
  (forall c,
     code = Some c -> c <> [] ->
     exchange c = ExchangeResolves None false ->
     GET NextResponse_redirect exchange upsert now origin code next
     = ([exchangeCodeForSession c],
        NextResponse_redirect (login_error origin (js "no_code")))).
Proof.
  assert (Hsuccess : forall c user profileError,
    code = Some c -> c <> [] ->
    exchange c = ExchangeResolves (Some user) false ->
    upsert (profile_of now user) = UpsertResolves profileError ->
    GET NextResponse_redirect exchange upsert now origin code next
    = ([exchangeCodeForSession c; upsert_profile (profile_of now user)],
       try_catch
         (NextResponse_redirect
            (origin
             ++ match next with
                | Some path => path
                | None => js "/prompts"
                end))
         (fun _ =>
            NextResponse_redirect
              (login_error origin (js "unexpected_error"))))).
  { intros c user profileError -> Hc He Hu. unfold GET, try_body. cbv zeta.
    destruct c as [|c0 c]; [contradiction|]. rewrite He, Hu.
    cbn [fst snd]. f_equal. apply try_redirect. }
  assert (Hreject : forall c,
    code = Some c -> c <> [] ->
    (exists e, exchange c = ExchangeRejects e) \/
    (exists user e,
       exchange c = ExchangeResolves (Some user) false /\
       upsert (profile_of now user) = UpsertRejects e) ->
    snd (GET NextResponse_redirect exchange upsert now origin code next)
    = NextResponse_redirect (login_error origin (js "unexpected_error"))).
  { intros c -> Hc H. unfold GET, try_body. cbv zeta.
    destruct c as [|c0 c]; [contradiction|].
    destruct H as [[e He] | (user & e & He & Hu)];
      [rewrite He | rewrite He, Hu]; cbn [fst snd]; apply try_thrown. }
  assert (Herror : forall c user,
    code = Some c -> c <> [] ->
    exchange c = ExchangeResolves user true ->
    GET NextResponse_redirect exchange upsert now origin code next
    = ([exchangeCodeForSession c],
       try_catch
         (NextResponse_redirect (login_error origin (js "callback_error")))
         (fun _ =>
            NextResponse_redirect
              (login_error origin (js "unexpected_error"))))).
  { intros c user -> Hc He. unfold GET, try_body. cbv zeta.
    destruct c as [|c0 c]; [contradiction|]. rewrite He.
    cbn [fst snd]. f_equal. apply try_redirect. }
  assert (Hnone : forall c,
    code = Some c -> c <> [] ->
    exchange c = ExchangeResolves None false ->
    GET NextResponse_redirect exchange upsert now origin code next
    = ([exchangeCodeForSession c],
       NextResponse_redirect (login_error origin (js "no_code")))).
  { intros c -> Hc He. unfold GET, try_body. cbv zeta.
    destruct c as [|c0 c]; [contradiction|]. rewrite He. reflexivity. }
  assert (Hempty : falsy code = true ->
    GET NextResponse_redirect exchange upsert now origin code next
    = ([], NextResponse_redirect (login_error origin (js "no_code")))).
  { destruct code as [[|c0 c]|]; try discriminate; reflexivity. }
  assert (Hcallback :
    (exists reason,
       In reason [js "callback_error"; js "unexpected_error"; js "no_code"]
       /\ try_catch
            (NextResponse_redirect
               (login_error origin (js "callback_error")))
            (fun _ =>
               NextResponse_redirect
                 (login_error origin (js "unexpected_error")))
          = NextResponse_redirect (login_error origin reason))).
  { destruct (NextResponse_redirect
                (login_error origin (js "callback_error"))) eqn:E.
    - exists (js "callback_error"). split; [left; reflexivity|].
      rewrite E. reflexivity.
    - exists (js "unexpected_error"). split; [right; left; reflexivity|].
      reflexivity. }
  assert (Hclass :
    (exists c user profileError location,
       code = Some c /\ exchange c = ExchangeResolves (Some user) false /\
       upsert (profile_of now user) = UpsertResolves profileError /\
       NextResponse_redirect
         (origin
          ++ match next with Some path => path | None => js "/prompts" end)
       = Returned location /\
       snd (GET NextResponse_redirect exchange upsert now origin code next)
       = Returned location)
    \/ exists reason,
         In reason [js "callback_error"; js "unexpected_error"; js "no_code"]
         /\ snd (GET NextResponse_redirect exchange upsert now origin code
                   next)
            = NextResponse_redirect (login_error origin reason)).
  { destruct code as [[|c0 c]|];
      try (right; exists (js "no_code"); split;
           [right; right; left; reflexivity | reflexivity]).
    assert (Hc : c0 :: c <> []) by discriminate.
    destruct (exchange (c0 :: c)) as [e | [user|] [|]] eqn:Ee.
    - right. exists (js "unexpected_error").
      split; [right; left; reflexivity|].
      apply (Hreject (c0 :: c)); [reflexivity | assumption |].
      left. exists e. assumption.
    - right. rewrite (Herror (c0 :: c) (Some user) eq_refl Hc Ee).
      exact Hcallback.
    - destruct (upsert (profile_of now user)) as [e | profileError] eqn:Eu.
      + right. exists (js "unexpected_error").
        split; [right; left; reflexivity|].
        apply (Hreject (c0 :: c)); [reflexivity | assumption |].
        right. exists user, e. split; assumption.
      + rewrite (Hsuccess (c0 :: c) user profileError eq_refl Hc Ee Eu).
        cbn [snd].
        destruct (NextResponse_redirect
                    (origin
                     ++ match next with
                        | Some path => path
                        | None => js "/prompts"
                        end)) as [location | e] eqn:Er.
        * left. exists (c0 :: c), user, profileError, location.
          repeat split; assumption || reflexivity.
        * right. exists (js "unexpected_error").
          split; [right; left; reflexivity | reflexivity].
    - right. rewrite (Herror (c0 :: c) None eq_refl Hc Ee). exact Hcallback.
    - right. exists (js "no_code").
      split; [right; right; left; reflexivity|].
      rewrite (Hnone (c0 :: c) eq_refl Hc Ee). reflexivity. }
  split; [exact Hclass|]. split; [|split; [exact Hempty|]].
  - intros Hlogin.
    destruct Hclass as [(c & user & pe & location & _ & _ & _ & _ & H)
                       | (reason & Hin & H)].
    + exists location. assumption.
    + rewrite H. apply Hlogin. assumption.
  - split; [|split; [exact Hsuccess|split; [exact Hreject|
             split; [exact Herror | exact Hnone]]]].
    intros row. unfold GET, try_body. cbv zeta.
    destruct code as [[|c0 c]|]; try (intros []).
    destruct (exchange (c0 :: c)) as [e | [user|] [|]] eqn:E; cbn [fst];
      try (intros [H | []]; discriminate H).
    assert (Hrow : In (upsert_profile row)
                     [exchangeCodeForSession (c0 :: c);
                      upsert_profile (profile_of now user)] ->
                   row = profile_of now user).
    { intros [H | [H | []]]; [discriminate H|].
      inversion H. reflexivity. }
    destruct (upsert (profile_of now user)); cbn [fst]; intros H;
      apply Hrow in H; subst row; exists (c0 :: c), user;
      (split; [reflexivity|]; split; [exact E|];
       split; [reflexivity|]);
      intros Hm; unfold profile_of; rewrite Hm; split; reflexivity.
Qed.

(** ** [CommentsSection]: threading *)

Section ThreadingFacts.

Context {R : Type}.

Implicit Types (data : list (CommentRow.t R)) (comment : CommentRow.t R).

Lemma numbered_from_In (l : list (CommentRow.t R)) : forall start k c,
  In (k, c) (combine (seq start (length l)) l) <->
  (start <= k)%nat /\ nth_error l (k - start) = Some c.
Proof.
  induction l as [|x l IH]; intros start k c; simpl.
  - split; [intros [] | intros [_ H]]. destruct (k - start)%nat; discriminate.
  - rewrite IH. split.
    + intros [H | [Hle H]].
      * inversion H; subst. split; [lia|]. rewrite Nat.sub_diag. reflexivity.
      * split; [lia|]. replace (k - start)%nat with (S (k - S start)) by lia.
        exact H.
    + intros [Hle H]. destruct (k - start)%nat as [|j] eqn:E.
      * left. inversion H; subst. f_equal. lia.
      * right. split; [lia|]. replace (k - S start)%nat with j by lia.
        exact H.
Qed.

Lemma numbered_In data k c :
  In (k, c) (numbered data) <-> nth_error data k = Some c.
Proof.
  unfold numbered. rewrite numbered_from_In, Nat.sub_0_r.
  split; [intros [_ H]; exact H | intros H; split; [lia | exact H]].
Qed.

Lemma numbered_rows data : map snd (numbered data) = data.
Proof.
  unfold numbered. generalize 0%nat.
  induction data as [|x data IH]; intros start; simpl; [reflexivity|].
  rewrite IH. reflexivity.
Qed.

Lemma first_pass_from (l : list (nat * CommentRow.t R)) : forall m roots,
  fold_left
    (fun state entry =>
       let commentMap :=
         set_property (fst state) (CommentRow.id (snd entry)) (fst entry) in
       if falsy (CommentRow.parent_id (snd entry))
       then (commentMap, snd state ++ [fst entry])
       else (commentMap, snd state))
    l (m, roots)
  = (fold_left
       (fun m entry =>
          set_property m (CommentRow.id (snd entry)) (fst entry))
       l m,
     roots
     ++ map fst
          (filter (fun entry => falsy (CommentRow.parent_id (snd entry))) l)).
Proof.
  induction l as [|e l IH]; intros m roots; simpl.
  - rewrite app_nil_r. reflexivity.
  - destruct (falsy (CommentRow.parent_id (snd e))); simpl; rewrite IH.
    + rewrite <- app_assoc. reflexivity.
    + reflexivity.
Qed.

Lemma commentMap_other (l : list (nat * CommentRow.t R)) : forall m x,
  ~ In x (map (fun entry => CommentRow.id (snd entry)) l) ->
  property
    (fold_left
       (fun m entry =>
          set_property m (CommentRow.id (snd entry)) (fst entry))
       l m) x
  = property m x.
Proof.
  induction l as [|e l IH]; intros m x Hx; simpl; [reflexivity|].
  rewrite IH by (intros H; apply Hx; right; exact H).
  apply property_set_other. intros H. apply Hx. left. exact H.
Qed.

Lemma commentMap_stored (l : list (nat * CommentRow.t R)) : forall m k c,
  NoDup (map (fun entry => CommentRow.id (snd entry)) l) ->
  In (k, c) l ->
  property
    (fold_left
       (fun m entry =>
          set_property m (CommentRow.id (snd entry)) (fst entry))
       l m) (CommentRow.id c)
  = Some k.
Proof.
  induction l as [|e l IH]; intros m k c Hnd Hin; [destruct Hin|].
  simpl. inversion Hnd as [|? ? Hnot Hnd']; subst.
  destruct Hin as [-> | Hin].
  - rewrite commentMap_other by exact Hnot. apply property_set_same.
  - apply IH; assumption.
Qed.

Lemma commentMap_sound (l : list (nat * CommentRow.t R)) : forall m x k,
  property
    (fold_left
       (fun m entry =>
          set_property m (CommentRow.id (snd entry)) (fst entry))
       l m) x
  = Some k ->
  (exists c, In (k, c) l /\ CommentRow.id c = x) \/ property m x = Some k.
Proof.
  induction l as [|[j c] l IH]; intros m x k H; simpl in H; [right; exact H|].
  apply IH in H. destruct H as [(c' & Hin & Hid) | H].
  - left. exists c'. split; [right; exact Hin | exact Hid].
  - cbn [fst snd] in H.
    destruct (jsstring_eq_dec (CommentRow.id c) x) as [E | E].
    + subst x. rewrite property_set_same in H. inversion H; subst.
      left. exists c. split; [left; reflexivity | reflexivity].
    + rewrite property_set_other in H by exact E. right. exact H.
Qed.

Lemma numbered_ids data :
  map (fun entry => CommentRow.id (snd entry)) (numbered data)
  = map CommentRow.id data.
Proof.
  rewrite <- (numbered_rows data) at 2. rewrite map_map. reflexivity.
Qed.

Lemma first_pass_spec data :
  first_pass data
  = (fold_left
       (fun m entry =>
          set_property m (CommentRow.id (snd entry)) (fst entry))
       (numbered data) [],
     map fst
       (filter (fun entry => falsy (CommentRow.parent_id (snd entry)))
          (numbered data))).
Proof.
  unfold first_pass. rewrite first_pass_from. reflexivity.
Qed.

Lemma push_reply_length heap : forall parent child,
  length (push_reply heap parent child) = length heap.
Proof.
  induction heap as [|r heap IH]; intros [|p] child; simpl; auto.
Qed.

Lemma push_reply_nth heap : forall parent child a,
  (parent < length heap)%nat ->
  nth a (push_reply heap parent child) []
  = if (a =? parent)%nat then nth a heap [] ++ [child] else nth a heap [].
Proof.
  induction heap as [|r heap IH]; intros [|p] child a Hlt; simpl in *;
    try lia.
  - destruct a; reflexivity.
  - destruct a as [|a]; [reflexivity|]. cbn [Nat.eqb]. apply IH. lia.
Qed.

Lemma second_pass_from (m : list (jsstring * nat)) rows : forall heap a,
  (forall x p, property m x = Some p -> (p < length heap)%nat) ->
  nth a
    (fold_left
       (fun heap comment =>
          match link m comment with
          | Some (parent, child) => push_reply heap parent child
          | None => heap
          end)
       rows heap) []
  = nth a heap []
    ++ flat_map
         (fun comment =>
            match link m comment with
            | Some (parent, child) =>
                if (a =? parent)%nat then [child] else []
            | None => []
            end)
         rows.
Proof.
  induction rows as [|c rows IH]; intros heap a Hm; simpl.
  - rewrite app_nil_r. reflexivity.
  - destruct (link m c) as [[parent child]|] eqn:E.
    + rewrite IH by (intros x p Hp; rewrite push_reply_length; eauto).
      assert (Hlt : (parent < length heap)%nat).
      { unfold link in E.
        destruct (falsy (CommentRow.parent_id c)); [discriminate E|].
        destruct (property m (or_empty (CommentRow.parent_id c)))
          as [p|] eqn:Ep; [|discriminate E].
        destruct (property m (CommentRow.id c)); [|discriminate E].
        inversion E; subst. eauto. }
      rewrite push_reply_nth by exact Hlt.
      destruct (a =? parent)%nat; [rewrite <- app_assoc|]; reflexivity.
    + rewrite IH by exact Hm. reflexivity.
Qed.

Lemma second_pass_length (m : list (jsstring * nat)) rows : forall heap,
  length
    (fold_left
       (fun heap comment =>
          match link m comment with
          | Some (parent, child) => push_reply heap parent child
          | None => heap
          end)
       rows heap)
  = length heap.
Proof.
  induction rows as [|c rows IH]; intros heap; simpl; [reflexivity|].
  rewrite IH. destruct (link m c) as [[parent child]|];
    [apply push_reply_length | reflexivity].
Qed.

Lemma flat_map_filter {A B} (f : A -> list B) (g : A -> bool) (h : A -> B)
  (l : list A) :
  (forall e, In e l -> f e = if g e then [h e] else []) ->
  flat_map f l = map h (filter g l).
Proof.
  induction l as [|e l IH]; intros H; simpl; [reflexivity|].
  rewrite (H e) by (left; reflexivity).
  rewrite IH by (intros e' He'; apply H; right; exact He').
  destruct (g e); reflexivity.
Qed.

Lemma flat_map_rows {B} (f : CommentRow.t R -> list B) data :
  flat_map f data = flat_map (fun entry => f (snd entry)) (numbered data).
Proof.
  rewrite <- (numbered_rows data) at 1.
  induction (numbered data) as [|e l IH]; simpl; [reflexivity|].
  rewrite IH. reflexivity.
Qed.

Lemma replies_by_parent data a comment :
  NoDup (map CommentRow.id data) ->
  nth_error data a = Some comment ->
  nth a (snd (thread data)) []
  = map fst (filter (fun entry => answers comment (snd entry))
               (numbered data)).
Proof.
  intros Hnd Ha. unfold thread, second_pass. cbn [snd].
  rewrite first_pass_spec. cbn [fst].
  set (m := fold_left
              (fun m entry =>
                 set_property m (CommentRow.id (snd entry)) (fst entry))
              (numbered data) []).
  assert (Hstored : forall k c, nth_error data k = Some c ->
                                property m (CommentRow.id c) = Some k).
  { intros k c Hk. apply commentMap_stored.
    - rewrite numbered_ids. exact Hnd.
    - apply numbered_In. exact Hk. }
  assert (Hsound : forall x k, property m x = Some k ->
                   exists c, nth_error data k = Some c /\
                             CommentRow.id c = x).
  { intros x k Hk. apply commentMap_sound in Hk.
    destruct Hk as [(c & Hin & Hid) | Hk]; [|discriminate Hk].
    exists c. split; [apply numbered_In; exact Hin | exact Hid]. }
  rewrite second_pass_from.
  - assert (Hnil : nth a (repeat (@nil nat) (length data)) [] = []).
    { apply nth_repeat. }
    rewrite Hnil. cbn [app]. rewrite flat_map_rows.
    apply flat_map_filter. intros [k c] Hin. cbn [fst snd].
    apply numbered_In in Hin. unfold link, answers.
    rewrite (Hstored k c Hin).
    destruct (falsy (CommentRow.parent_id c)); [reflexivity|]. cbn [negb andb].
    destruct (property m (or_empty (CommentRow.parent_id c))) as [p|] eqn:Ep.
    + destruct (Hsound _ _ Ep) as (c' & Hp & Hid).
      destruct (Nat.eqb_spec a p) as [-> | Hne].
      * rewrite Ha in Hp. inversion Hp; subst c'. rewrite <- Hid.
        rewrite jsstring_eqb_refl. reflexivity.
      * rewrite jsstring_eqb_neq; [reflexivity|]. intros Heq.
        rewrite Heq, (Hstored a comment Ha) in Ep. inversion Ep. lia.
    + rewrite jsstring_eqb_neq; [reflexivity|]. intros Heq.
      rewrite Heq, (Hstored a comment Ha) in Ep. discriminate Ep.
  - intros x p Hp. rewrite repeat_length.
    destruct (Hsound _ _ Hp) as (c & Hc & _).
    apply nth_error_Some. rewrite Hc. discriminate.
Qed.

(** X25. For rows with distinct ids, [fetchComments] makes the rows without
    a parent the top-level comments, in the order of the rows, and gives
    every comment as replies the rows that name it as their parent, in the
    order of the rows, at every depth.  So a row is shown exactly when it
    has no parent or its parent is a row that is shown; a row whose parent
    is not among the rows is not shown at all. *)
Theorem fetchComments_threads_by_parent data :
  NoDup (map CommentRow.id data) ->
  fst (thread data)
  = map fst
      (filter (fun entry => falsy (CommentRow.parent_id (snd entry)))
         (numbered data)) /\
  (forall a comment,
     nth_error data a = Some comment ->
     nth a (snd (thread data)) []
     = map fst (filter (fun entry => answers comment (snd entry))
                  (numbered data))) /\
  (forall k,
     shown data k <->
     exists reply,
       nth_error data k = Some reply /\
       (falsy (CommentRow.parent_id reply) = true \/
        exists a comment,
          nth_error data a = Some comment /\
          answers comment reply = true /\ shown data a)) /\
  (forall k reply,
     nth_error data k = Some reply ->
     falsy (CommentRow.parent_id reply) = false ->
     (forall comment,
        In comment data ->
        CommentRow.id comment <> or_empty (CommentRow.parent_id reply)) ->
     ~ shown data k).
Proof.
  intros Hnd.
  assert (Hroots :
            fst (thread data)
            = map fst
                (filter
                   (fun entry => falsy (CommentRow.parent_id (snd entry)))
                   (numbered data))).
  { unfold thread. cbn [fst]. rewrite first_pass_spec. reflexivity. }
  split; [exact Hroots|]. split; [|split].
  - intros a comment. apply replies_by_parent. exact Hnd.
  - intros k. split.
    + intros Hshown. destruct Hshown as [k Hin | a k Ha Hin].
      * rewrite Hroots in Hin. apply in_map_iff in Hin.
        destruct Hin as ([k' c] & Hfst & Hin). cbn in Hfst. subst k'.
        apply filter_In in Hin. destruct Hin as [Hin Hf]. cbn in Hf.
        apply numbered_In in Hin. exists c. split; [exact Hin|].
        left. exact Hf.
      * destruct (nth_error data a) as [comment|] eqn:Ea.
        -- rewrite (replies_by_parent data a comment Hnd Ea) in Hin.
           apply in_map_iff in Hin.
           destruct Hin as ([k' c] & Hfst & Hin). cbn in Hfst. subst k'.
           apply filter_In in Hin. destruct Hin as [Hin Hf]. cbn [snd] in Hf.
           apply numbered_In in Hin. exists c. split; [exact Hin|].
           right. exists a, comment. repeat split; assumption.
        -- apply nth_error_None in Ea.
           rewrite nth_overflow in Hin; [destruct Hin|].
           unfold thread, second_pass. cbn [snd].
           rewrite second_pass_length, repeat_length. exact Ea.
    + intros (reply & Hk & [Hroot | (a & comment & Ha & Hanswers & Hshown)]).
      * apply shown_root. rewrite Hroots. apply in_map_iff.
        exists (k, reply). split; [reflexivity|]. apply filter_In.
        split; [apply numbered_In; exact Hk | exact Hroot].
      * apply shown_reply with a; [exact Hshown|].
        rewrite (replies_by_parent data a comment Hnd Ha). apply in_map_iff.
        exists (k, reply). split; [reflexivity|]. apply filter_In.
        split; [apply numbered_In; exact Hk | exact Hanswers].
  - intros k reply Hk Hparent Horphan Hshown.
    destruct Hshown as [k Hin | a k _ Hin].
    + rewrite Hroots in Hin. apply in_map_iff in Hin.
      destruct Hin as ([k' c] & Hfst & Hin). cbn in Hfst. subst k'.
      apply filter_In in Hin. destruct Hin as [Hin Hf]. cbn in Hf.
      apply numbered_In in Hin. rewrite Hk in Hin. inversion Hin; subst c.
      congruence.
    + destruct (nth_error data a) as [comment|] eqn:Ha.
      * rewrite (replies_by_parent data a comment Hnd Ha) in Hin.
        apply in_map_iff in Hin.
        destruct Hin as ([k' c] & Hfst & Hin). cbn in Hfst. subst k'.
        apply filter_In in Hin. destruct Hin as [Hin Hf]. cbn [snd] in Hf.
        apply numbered_In in Hin. rewrite Hk in Hin. inversion Hin; subst c.
        unfold answers in Hf. apply andb_true_iff in Hf.
        destruct Hf as [_ Hf]. apply jsstring_eqb_true in Hf.
        apply (Horphan comment); [|congruence].
        apply nth_error_In with a. exact Ha.
      * apply nth_error_None in Ha.
        rewrite nth_overflow in Hin; [destruct Hin|].
        unfold thread, second_pass. cbn [snd].
        rewrite second_pass_length, repeat_length. exact Ha.
Qed.

End ThreadingFacts.

(** ** [CommentsSection]: the handlers *)

Section CommentHandlerFacts.

Context {R : Type}.

Implicit Types (comments : list (Comment R)) (st : CommentsState.t R).

Lemma node_eta (comment : Comment R) :
  Node (row_of comment) (replies_of comment) = comment.
Proof. destruct comment; reflexivity. Qed.

Lemma keep_other_ids commentId (replies : list (Comment R)) :
  Forall (fun reply => comment_id reply <> commentId) replies ->
  filter (fun reply => negb (jsstring_eqb (comment_id reply) commentId))
    replies
  = replies.
Proof.
  intros H. apply filter_all. rewrite Forall_forall in *. intros r Hr.
  apply negb_true_iff, jsstring_eqb_neq. apply H. exact Hr.
Qed.

Lemma delete_unused commentId comments :
  unused_id commentId comments ->
  map (fun comment =>
         Node (row_of comment)
           (filter (fun reply =>
                      negb (jsstring_eqb (comment_id reply) commentId))
              (replies_of comment)))
    (filter (fun comment =>
               negb (jsstring_eqb (comment_id comment) commentId))
       comments)
  = comments.
Proof.
  intros H. rewrite keep_other_ids.
  - rewrite <- (map_id comments) at 2. apply map_ext_in. intros c Hc.
    unfold unused_id in H. rewrite Forall_forall in H.
    rewrite keep_other_ids by (apply H; exact Hc). apply node_eta.
  - unfold unused_id in H. rewrite Forall_forall in *. intros c Hc.
    apply H. exact Hc.
Qed.

Lemma edit_unused content commentId comments :
  unused_id commentId comments ->
  map (fun comment =>
         if jsstring_eqb (comment_id comment) commentId
         then edited content comment
         else
           Node (row_of comment)
             (map (fun reply =>
                     if jsstring_eqb (comment_id reply) commentId
                     then edited content reply
                     else reply)
                (replies_of comment)))
    comments
  = comments.
Proof.
  intros H. unfold unused_id in H. rewrite Forall_forall in H.
  rewrite <- (map_id comments) at 2. apply map_ext_in. intros c Hc.
  destruct (H c Hc) as [Hid Hreplies].
  rewrite jsstring_eqb_neq by exact Hid.
  replace (map _ (replies_of c)) with (replies_of c); [apply node_eta|].
  rewrite <- (map_id (replies_of c)) at 1. apply map_ext_in. intros r Hr.
  rewrite Forall_forall in Hreplies.
  rewrite jsstring_eqb_neq by (apply Hreplies; exact Hr). reflexivity.
Qed.

Lemma drop_posted commentId (data : CommentRow.t R) :
  CommentRow.id data = commentId ->
  filter (fun comment => negb (jsstring_eqb (comment_id comment) commentId))
    [Node data []]
  = [].
Proof.
  intros Hid. cbn [filter]. unfold comment_id. cbn [row_of].
  rewrite Hid, jsstring_eqb_refl. reflexivity.
Qed.

(** X26. After a confirmed deletion that the database accepts, no top-level
    comment and no reply of one has the deleted id.  When a comment, or a
    reply to a top-level comment, has been posted under an id that was not
    in use, deleting it gives back the comments as they were before it was
    posted. *)
Theorem handleDeleteComment_undoes_posting update commentId st :
  update commentId = DbResolves false ->
  unused_id commentId
    (CommentsState.comments (handleDeleteComment true update commentId st))
  /\
  (forall insert currentUserId data,
     unused_id commentId (CommentsState.comments st) ->
     falsy currentUserId = false ->
     insert (trim (CommentsState.newComment st)) = InsertResolves data ->
     CommentRow.id data = commentId ->
     truthy (trim (CommentsState.newComment st)) = true ->
     CommentsState.comments
       (handleDeleteComment true update commentId
          (handleSubmitComment insert currentUserId st))
     = CommentsState.comments st) /\
  (forall insert currentUserId parentId data,
     unused_id commentId (CommentsState.comments st) ->
     falsy currentUserId = false ->
     insert (trim (CommentsState.replyContent st)) parentId
     = InsertResolves data ->
     CommentRow.id data = commentId ->
     truthy (trim (CommentsState.replyContent st)) = true ->
     CommentsState.comments
       (handleDeleteComment true update commentId
          (handleSubmitReply insert currentUserId parentId st))
     = CommentsState.comments st).
Proof.
  intros Hupdate. split; [|split].
  - unfold handleDeleteComment. rewrite Hupdate. cbn.
    unfold unused_id. rewrite Forall_forall. intros c Hc.
    apply in_map_iff in Hc. destruct Hc as (c0 & <- & Hc0).
    apply filter_In in Hc0. destruct Hc0 as [_ Hc0].
    split.
    + apply negb_true_iff, jsstring_eqb_false in Hc0. exact Hc0.
    + cbn [replies_of]. rewrite Forall_forall. intros r Hr.
      apply filter_In in Hr. destruct Hr as [_ Hr].
      apply negb_true_iff, jsstring_eqb_false in Hr. exact Hr.
  - intros insert currentUserId data Hfresh Huser Hinsert Hid Htext.
    unfold handleSubmitComment, handleDeleteComment.
    rewrite Huser, Htext, Hinsert, Hupdate. cbn.
    rewrite filter_app, (drop_posted commentId data Hid), app_nil_r.
    apply delete_unused. exact Hfresh.
  - intros insert currentUserId parentId data Hfresh Huser Hinsert Hid Htext.
    unfold handleSubmitReply, handleDeleteComment.
    rewrite Huser, Htext, Hinsert, Hupdate. cbn.
    unfold unused_id in Hfresh. rewrite Forall_forall in Hfresh.
    rewrite filter_all.
    + rewrite map_map. rewrite <- (map_id (CommentsState.comments st)) at 2.
      apply map_ext_in. intros c Hc. destruct (Hfresh c Hc) as [_ Hreplies].
      destruct (jsstring_eqb (comment_id c) parentId);
        cbn [row_of replies_of].
      * rewrite filter_app, (drop_posted commentId data Hid), app_nil_r.
        rewrite keep_other_ids by exact Hreplies. apply node_eta.
      * rewrite keep_other_ids by exact Hreplies. apply node_eta.
    + rewrite Forall_forall. intros c Hc. apply in_map_iff in Hc.
      destruct Hc as (c0 & <- & Hc0). destruct (Hfresh c0 Hc0) as [Hne _].
      apply negb_true_iff, jsstring_eqb_neq.
      destruct (jsstring_eqb (comment_id c0) parentId); exact Hne.
Qed.

(** X27. The handlers look at the top-level comments and at their replies
    and no deeper: for an id that neither a top-level comment nor a reply of
    one has, such as the id of a reply to a reply, posting a reply to it,
    editing it and deleting it leave the comments shown as they are,
    whatever the database answers. *)
Theorem handlers_reach_two_levels insert update update' currentUserId
  confirmed commentId st :
  unused_id commentId (CommentsState.comments st) ->
  CommentsState.comments
    (handleSubmitReply insert currentUserId commentId st)
  = CommentsState.comments st /\
  CommentsState.comments (handleEditComment update commentId st)
  = CommentsState.comments st /\
  CommentsState.comments
    (handleDeleteComment confirmed update' commentId st)
  = CommentsState.comments st.
Proof.
  intros Hfresh. split; [|split].
  - unfold handleSubmitReply.
    destruct (falsy currentUserId
              || negb (truthy (trim (CommentsState.replyContent st))));
      [reflexivity|].
    destruct (insert (trim (CommentsState.replyContent st)) commentId);
      try reflexivity.
    cbn. rewrite <- (map_id (CommentsState.comments st)) at 2.
    apply map_ext_in. intros c Hc.
    unfold unused_id in Hfresh. rewrite Forall_forall in Hfresh.
    destruct (Hfresh c Hc) as [Hne _].
    rewrite jsstring_eqb_neq by exact Hne. reflexivity.
  - unfold handleEditComment.
    destruct (negb (truthy (trim (CommentsState.editContent st))));
      [reflexivity|].
    destruct (update commentId (trim (CommentsState.editContent st)))
      as [e | [|]]; try reflexivity.
    cbn. apply edit_unused. exact Hfresh.
  - unfold handleDeleteComment. destruct confirmed; [|reflexivity].
    cbn [negb]. destruct (update' commentId) as [e | [|]]; try reflexivity.
    cbn. apply delete_unused. exact Hfresh.
Qed.

End CommentHandlerFacts.

(** ** Closed instances of the further properties *)

Lemma generateAutoTags_returns_validated_witness :
  generateAutoTags (reads tags_text tags_response) plain_message
    (reply_with tags_text) (js "Write a poem") None None
  = Returned tags_result /\
  within 0 1 (AutoTagResult.confidence tags_result).
Proof.
  destruct (generateAutoTags_returns_validated
              (reads tags_text tags_response) plain_message
              (reply_with tags_text) tags_response tags_result
              (js "Write a poem") None None)
    as (Hrun & _ & Hc & _).
  - eapply response_accepted;
      [reflexivity | reflexivity | discriminate | reflexivity | reflexivity].
  - split; assumption.
Defined.

Lemma histogram_of_fractional_scores_witness :
  count_of
    (histogram
       (ScoringStats.distributions
          (calculateScoringStats native_code as_given [fractional_score]))
       clarity)
    (js "7-8")
  = 1.
Proof.
  destruct (histogram_of_fractional_scores native_code as_given
              [fractional_score])
    with (m := clarity) as (Hcount & _).
  - repeat constructor; destruct m; discriminate.
  - apply (Hcount 3). lia.
Defined.

Lemma averages_stay_in_scale_witness :
  exists x,
    mean
      (ScoringStats.averages
         (calculateScoringStats native_code as_given scenario_scores))
      overall
    = Finite x /\
    within 1 10 x.
Proof.
  destruct (averages_stay_in_scale native_code as_given scenario_scores)
    with (m := overall) as (Hin & _).
  - discriminate.
  - reflexivity.
  - repeat constructor; destruct m; discriminate.
  - exact Hin.
Defined.

(** The average of 2, 7 and 7 is the double nearest to 16/3, and the sum
    of two numbers near the largest double is an infinity. *)
Example average_is_rounded :
  (exists x,
     mean
       (ScoringStats.averages
          (calculateScoringStats native_code as_given scenario_scores))
       overall
     = Finite x /\
     x == 6004799503160661 # (2 ^ 50)) /\
  average overall
    [scored (inject_Z (2 ^ 1023)) []; scored (inject_Z (2 ^ 1023)) []]
  = Infinity false.
Proof.
  split; [|vm_compute; reflexivity].
  eexists. split; [vm_compute; reflexivity|]. vm_compute. reflexivity.
Qed.

Lemma topTags_are_the_most_frequent_witness :
  NoDup
    (map TagCount.tag
       (ScoringStats.topTags
          (calculateScoringStats native_code as_given scenario_scores))) /\
  length
    (ScoringStats.topTags
       (calculateScoringStats native_code as_given scenario_scores))
  = 2%nat.
Proof.
  destruct (topTags_are_the_most_frequent native_code as_given
              scenario_scores)
    as (Hnd & _ & _ & Hlen & _).
  - repeat constructor.
  - split; [exact Hnd | exact Hlen].
Defined.

Lemma batch_over_client_carries_client_scores_witness :
  exists results s,
    fst (batchEvaluatePrompts_with_service unreadable plain_message
           plain_text outage three_items) = Returned results /\
    nth_error results 1
    = Some (BatchResult.mk (js "p2") s None) /\
    in_range s.
Proof.
  destruct (batch_over_client_carries_client_scores unreadable plain_message
              plain_text outage three_items 1 (item "p2" "Sort a list")
              eq_refl)
    as (results & trace & s & Hrun & _ & Hr & Hs).
  exists results, s. rewrite Hrun. repeat split; try assumption; apply Hs.
Defined.

Lemma outage_gives_neutral_statistics_witness :
  exists results,
    fst (batchEvaluatePrompts_with_service unreadable plain_message
           plain_text outage three_items) = Returned results /\
    ScoringStats.topTags
      (calculateScoringStats native_code as_given
         (map BatchResult.score results))
    = [TagCount.mk (js "untagged") (Count 3)].
Proof.
  destruct (outage_gives_neutral_statistics unreadable plain_message
              plain_text native_code as_given outage three_items)
    as (results & trace & Hrun & _ & _ & Htop & _).
  - discriminate.
  - intros k. constructor.
  - exists results. rewrite Hrun. split; [reflexivity | exact Htop].
Defined.

(** The page asked for is appended to the origin as it is: asked for
    [.evil.example/x], a handler whose [NextResponse.redirect] keeps the
    text that it is given answers with an address on another host. *)
Example GET_appends_any_text :
  GET (fun url => Returned url)
    (fun _ =>
       ExchangeResolves
         (Some (AuthUser.mk (js "u1") (js "ada@example.org") None)) false)
    (fun _ => UpsertResolves false) (js "2024-01-01T00:00:00.000Z")
    (js "https://app.example") (Some (js "abc"))
    (Some (js ".evil.example/x"))
  = ([exchangeCodeForSession (js "abc");
      upsert_profile
        (Profile.mk (js "u1") (js "ada@example.org") (js "") None
           (js "2024-01-01T00:00:00.000Z"))],
     Returned (js "https://app.example.evil.example/x")).
Proof.
  reflexivity.
Qed.

Lemma validateEmail_necessary_witness :
  count_occ N.eq_dec (js "ada@example.org") at_sign = 1%nat /\
  (5 <= length (js "ada@example.org"))%nat.
Proof.
  destruct (validateEmail_necessary (js "ada@example.org"))
    as (Hone & _ & Hlen & _).
  - reflexivity.
  - split; assumption.
Defined.

Lemma fetchComments_threads_by_parent_witness :
  fst (thread nested_rows) = [0%nat] /\
  nth 1 (snd (thread nested_rows)) [] = [2%nat] /\
  ~ shown nested_rows 3.
Proof.
  destruct (fetchComments_threads_by_parent nested_rows)
    as (Hroots & Hreplies & _ & Horphan).
  - repeat constructor; simpl; intros H;
      repeat (destruct H as [H | H]; try discriminate H); assumption.
  - split; [exact Hroots|]. split.
    + apply (Hreplies 1%nat (row "c2" "second" (Some "c1"%string))).
      reflexivity.
    + apply (Horphan 3%nat (row "c4" "lost" (Some "gone"%string)));
        [reflexivity | reflexivity|].
      intros comment Hin.
      repeat (destruct Hin as [<- | Hin]; [discriminate|]).
      destruct Hin.
Defined.

Lemma handleDeleteComment_undoes_posting_witness :
  CommentsState.comments
    (handleDeleteComment true accepts (js "c9")
       (handleSubmitComment (inserts "c9" None) (Some (js "u1"))
          (typing nested_comments " hello ")))
  = nested_comments.
Proof.
  destruct (handleDeleteComment_undoes_posting accepts (js "c9")
              (typing nested_comments " hello ") eq_refl)
    as (_ & Hsubmit & _).
  apply (Hsubmit (inserts "c9" None) (Some (js "u1"))
           (CommentRow.mk (js "c9") (js "hello") None false tt)).
  - repeat constructor; discriminate.
  - reflexivity.
  - reflexivity.
  - reflexivity.
  - reflexivity.
Defined.

Lemma handlers_reach_two_levels_witness :
  CommentsState.comments
    (handleEditComment (fun _ _ => DbResolves false) (js "c3")
       (typing nested_comments "edited"))
  = nested_comments /\
  CommentsState.comments
    (handleDeleteComment true accepts (js "c3")
       (typing nested_comments "edited"))
  = nested_comments.
Proof.
  destruct (handlers_reach_two_levels
              (fun text parent => inserts "c9" (Some parent) text)
              (fun _ _ => DbResolves false)
              accepts (Some (js "u1")) true (js "c3")
              (typing nested_comments "edited"))
    as (_ & Hedit & Hdelete).
  - repeat constructor; discriminate.
  - split; assumption.
Defined.
